(** * webFuzz mutation engine: a shallow embedding of [webFuzz/mutator.py]

    The first part is the embedding, in the order of the Python module:
    - module [Re]: the fragment of Python's [re] used by [alter_type];
    - the heap of mutable objects (nodes and their parameter dicts), the
      generator state and the computations over them;
    - module [Random]: the calls into Python's [random] module;
    - module [Dict]: insertion-ordered dictionaries;
    - the payload collections, the strategies and the functions of
      class [Mutator].
    The second part states and proves the properties. *)

From Stdlib Require Import Ascii String Arith Lia Bool.
From stdpp Require Import base option list strings.


(** Python [str] values are modelled as lists of characters. *)
Abbreviation str := (list ascii).

(** [lit "abc"] is the Python literal ['abc']. *)
Definition lit (s : string) : str := list_ascii_of_string s.

Definition lbracket : ascii := "["%char.
Definition rbracket : ascii := "]"%char.
Definition newline : ascii := "010"%char.

(* ================================================================== *)
(** ** The regular-expression fragment used by [alter_type] *)
(* ================================================================== *)

Module Re.

(** A pattern is a sequence of items; this covers patterns built from
    single-character classes, greedy stars of such classes and the
    end anchor, which is all that [r"\[[^\[]*\]$"] needs. *)
Inductive item :=
| Ch (p : ascii -> bool)        (* one character of the class [p] *)
| ChStar (p : ascii -> bool)    (* [p*], greedy *)
| EndAnchor.                    (* [$] *)

Definition regex := list item.

(** Without [re.MULTILINE], [$] matches at the end of the string and
    just before a newline that is the last character of the string. *)
Definition at_dollar (s : str) : bool :=
  match s with
  | [] => true
  | [c] => Ascii.eqb c newline
  | _ => false
  end.

(** Greedy star with backtracking: take as many characters of [p] as
    possible, and give characters back until the continuation [k]
    matches.  The result is the number of characters consumed. *)
Fixpoint star (p : ascii -> bool) (k : str -> option nat) (s : str)
  : option nat :=
  match s with
  | c :: s' =>
      if p c then
        match star p k s' with
        | Some n => Some (S n)
        | None => k s
        end
      else k s
  | [] => k s
  end.

(** [match_here re s]: does [re] match a prefix of [s]?  Returns the
    length of the match found by the backtracking search. *)
Fixpoint match_here (re : regex) (s : str) : option nat :=
  match re with
  | [] => Some 0
  | Ch p :: re' =>
      match s with
      | c :: s' => if p c then S <$> match_here re' s' else None
      | [] => None
      end
  | ChStar p :: re' => star p (match_here re') s
  | EndAnchor :: re' => if at_dollar s then match_here re' s else None
  end.

(** [re.findall]: the non-overlapping matches, scanning left to right.
    [skip] counts the characters of the current match still to pass. *)
Fixpoint findall_from (re : regex) (s : str) (skip : nat) : list str :=
  match s with
  | [] =>
      match skip, match_here re [] with
      | 0, Some _ => [[]]
      | _, _ => []
      end
  | c :: s' =>
      match skip with
      | S k => findall_from re s' k
      | 0 =>
          match match_here re s with
          | Some 0 => [] :: findall_from re s' 0
          | Some (S n) => take (S n) s :: findall_from re s' n
          | None => findall_from re s' 0
          end
      end
  end.

Definition findall (re : regex) (s : str) : list str := findall_from re s 0.

(** [re.sub] with a literal replacement. *)
Fixpoint sub_from (re : regex) (repl : str) (s : str) (skip : nat) : str :=
  match s with
  | [] =>
      match skip, match_here re [] with
      | 0, Some _ => repl
      | _, _ => []
      end
  | c :: s' =>
      match skip with
      | S k => sub_from re repl s' k
      | 0 =>
          match match_here re s with
          | Some 0 => repl ++ c :: sub_from re repl s' 0
          | Some (S n) => repl ++ sub_from re repl s' n
          | None => c :: sub_from re repl s' 0
          end
      end
  end.

Definition sub (re : regex) (repl : str) (s : str) : str :=
  sub_from re repl s 0.

End Re.

(** The pattern [r"\[[^\[]*\]$"]. *)
Definition array_access : Re.regex :=
  [ Re.Ch (Ascii.eqb lbracket);
    Re.ChStar (fun c => negb (Ascii.eqb lbracket c));
    Re.Ch (Ascii.eqb rbracket);
    Re.EndAnchor ].

(** [Mutator.skip_param] *)
Definition skip_param {V : Type} (param : str) (val : V) : str * V :=
  (param, val).

(** [Mutator.alter_type] *)
Definition alter_type {V : Type} (param : str) (val : V) : str * V :=
  if 0 <? length (Re.findall array_access param) then
    (Re.sub array_access [] param, val)
  else
    (param ++ lit "[]", val).

(* ================================================================== *)
(** ** Exceptions, the heap and the generator state *)
(* ================================================================== *)

(** The exceptions the modelled code can raise.  [TypeError] stands for
    an access to an object of the wrong kind or to a missing object. *)
Inductive exn := KeyError | IndexError | ValueError | TypeError.

Inductive res (A : Type) : Type :=
| Ok (a : A)
| Raise (e : exn).
Arguments Ok {A} a.
Arguments Raise {A} e.

Inductive HTTPMethod := GET | POST.

Definition HTTPMethod_eqb (a b : HTTPMethod) : bool :=
  match a, b with
  | GET, GET | POST, POST => true
  | _, _ => false
  end.

(** Object references. *)
Abbreviation loc := nat.

(** [Dict[str, List[str]]]: the parameters of one group, in insertion
    order.  The value lists are never updated in place by this module
    (every strategy builds a new list), so they are kept by value. *)
Abbreviation dict := (list (str * list str)).

(** Modelled from the spec: class [Node] (module [node], not part of the
    sources): a request descriptor with [url], [method], [params] (a
    mapping keyed by parameter group), [size] and [parent_request]. *)
Record Node := mkNode {
  url : str;
  method : HTTPMethod;
  params : loc;                   (* reference to the outer dict *)
  size : nat;
  parent_request : option loc
}.

(** The node [n] with another [params], and with another [size]. *)
Definition with_params (n : Node) (p : loc) : Node :=
  mkNode (url n) (method n) p (size n) (parent_request n).

Definition with_size (n : Node) (sz : nat) : Node :=
  mkNode (url n) (method n) (params n) sz (parent_request n).

(** The mutable objects. *)
Inductive obj :=
| ODict (d : dict)                (* the parameters of one group *)
| OParams (get post : loc)        (* {HTTPMethod.GET: .., HTTPMethod.POST: ..} *)
| ONode (n : Node).

(** The heap maps a reference to the object stored there; allocation
    extends it at the end. *)
Abbreviation heap := (list obj).

(** The generator of module [random]: the sequence of its raw draws. *)
Definition rng := nat -> nat.

(** The generator after one draw. *)
Definition advance (g : rng) : rng := fun i => g (S i).

Abbreviation state := (heap * rng)%type.

(** Computations over the heap and the generator that may raise. *)
Definition M (A : Type) : Type := state -> res (A * state).

Definition ret {A} (a : A) : M A := fun st => Ok (a, st).

Definition raise {A} (e : exn) : M A := fun _ => Raise e.

Definition bind {A B} (m : M A) (k : A -> M B) : M B :=
  fun st =>
    match m st with
    | Ok (a, st') => k a st'
    | Raise e => Raise e
    end.

Declare Scope py_scope.
Delimit Scope py_scope with py.
Notation "'let*' x ':=' m 'in' k" := (bind m (fun x => k))
  (at level 10, x pattern, m at level 100, k at level 200) : py_scope.
Notation "m ;;; k" := (bind m (fun _ => k))
  (at level 100, right associativity) : py_scope.
Open Scope py_scope.

(** [for x in xs: body x] *)
Fixpoint for_ {A} (xs : list A) (body : A -> M unit) : M unit :=
  match xs with
  | [] => ret tt
  | x :: xs' => body x ;;; for_ xs' body
  end.

(* ================================================================== *)
(** ** Python's [random] module *)
(* ================================================================== *)

Module Random.

(** One raw draw, reduced below [n].  Every call of the [random] module
    used here reduces to this: for integer weights,
    [bisect(cum, random() * total)] only depends on the integer part
    of [random() * total], which ranges over [0 .. total-1]. *)
Definition randbelow (n : nat) : M nat :=
  fun '(h, g) => Ok (g 0 mod n, (h, advance g)).

(** [itertools.accumulate] *)
Fixpoint accumulate_from (acc : nat) (ws : list nat) : list nat :=
  match ws with
  | [] => []
  | w :: ws' => (acc + w) :: accumulate_from (acc + w) ws'
  end.

Definition accumulate (ws : list nat) : list nat := accumulate_from 0 ws.

(** [bisect.bisect_right] on a sorted list: the number of elements that
    are [<= x]. *)
Fixpoint bisect (a : list nat) (x : nat) : nat :=
  match a with
  | [] => 0
  | c :: a' => if x <? c then 0 else S (bisect a' x)
  end.

(** [random.choices(population, weights=weights, k=1)[0]] *)
Definition choices {A} (population : list A) (weights : list nat) : M A :=
  let cum_weights := accumulate weights in
  if negb (length cum_weights =? length population) then raise ValueError
  else
    match last cum_weights with
    | None => raise IndexError
    | Some total =>
        if total =? 0 then raise ValueError
        else
          let* r := randbelow total in
          let hi := length population - 1 in
          match population !! bisect (take hi cum_weights) r with
          | Some x => ret x
          | None => raise IndexError
          end
    end.

(** [random.choice(seq)] *)
Definition choice {A} (seq : list A) : M A :=
  match seq with
  | [] => raise IndexError
  | _ =>
      let* i := randbelow (length seq) in
      match seq !! i with
      | Some x => ret x
      | None => raise IndexError
      end
  end.

(** [random.randrange(start, stop)] *)
Definition randrange (start stop : nat) : M nat :=
  if stop <=? start then raise ValueError
  else let* i := randbelow (stop - start) in ret (start + i).

(** [random.randint(a, b)] is [randrange(a, b+1)]. *)
Definition randint (a b : nat) : M nat := randrange a (b + 1).

(** [random.choices(population, k=k)] without weights. *)
Fixpoint choices_k {A} (population : list A) (k : nat) : M (list A) :=
  match k with
  | 0 => ret []
  | S k' =>
      let* i := randbelow (length population) in
      match population !! i with
      | Some x => let* xs := choices_k population k' in ret (x :: xs)
      | None => raise IndexError
      end
  end.

End Random.

(* ================================================================== *)
(** ** Insertion-ordered dictionaries *)
(* ================================================================== *)

Module Dict.

(** [d[k] = v]: overwrite in place, or append a new key. *)
Fixpoint setitem (k : str) (v : list str) (d : dict) : dict :=
  match d with
  | [] => [(k, v)]
  | (k', v') :: d' =>
      if decide (k' = k) then (k, v) :: d'
      else (k', v') :: setitem k v d'
  end.

(** [del d[k]]: [None] stands for [KeyError]. *)
Fixpoint delitem (k : str) (d : dict) : option dict :=
  match d with
  | [] => None
  | (k', v') :: d' =>
      if decide (k' = k) then Some d'
      else cons (k', v') <$> delitem k d'
  end.

(** [d.update(other)] *)
Definition update (d other : dict) : dict :=
  foldl (fun acc kv => setitem kv.1 kv.2 acc) d other.

(** The keys of a Python dict are pairwise distinct. *)
Definition wf (d : dict) : Prop := NoDup d.*1.

End Dict.

(* ================================================================== *)
(** ** Heap accesses *)
(* ================================================================== *)

Definition alloc (o : obj) : M loc :=
  fun '(h, g) => Ok (length h, (h ++ [o], g)).

Definition load (l : loc) : M obj :=
  fun '(h, g) =>
    match h !! l with
    | Some o => Ok (o, (h, g))
    | None => Raise TypeError
    end.

Definition store (l : loc) (o : obj) : M unit :=
  fun '(h, g) =>
    if l <? length h then Ok (tt, (<[l := o]> h, g)) else Raise TypeError.

Definition get_node (l : loc) : M Node :=
  let* o := load l in
  match o with ONode n => ret n | _ => raise TypeError end.

Definition get_outer (l : loc) : M (loc * loc) :=
  let* o := load l in
  match o with OParams g p => ret (g, p) | _ => raise TypeError end.

Definition get_dict (l : loc) : M dict :=
  let* o := load l in
  match o with ODict d => ret d | _ => raise TypeError end.

Definition group (ty : HTTPMethod) (gp : loc * loc) : loc :=
  match ty with GET => gp.1 | POST => gp.2 end.

(** [node.params[ty]]: the reference to the dict of one group. *)
Definition params_item (node : loc) (ty : HTTPMethod) : M loc :=
  let* n := get_node node in
  let* gp := get_outer (params n) in
  ret (group ty gp).

(** [node.params[ty] = d] *)
Definition params_setitem (node : loc) (ty : HTTPMethod) (d : loc) : M unit :=
  let* n := get_node node in
  let* gp := get_outer (params n) in
  store (params n)
        (match ty with
         | GET => OParams d gp.2
         | POST => OParams gp.1 d
         end).

(** [node.params = p] *)
Definition set_params (node : loc) (p : loc) : M unit :=
  let* n := get_node node in
  store node (ONode (with_params n p)).

(** [len(node.params[ty])] *)
Definition len_params (node : loc) (ty : HTTPMethod) : M nat :=
  let* d := params_item node ty in
  let* kvs := get_dict d in
  ret (length kvs).

(** [copy.deepcopy] of the dict of one group: a new dict object with the
    same entries. *)
Definition deepcopy_dict (d : loc) : M loc :=
  let* kvs := get_dict d in
  alloc (ODict kvs).

(** [copy.deepcopy] of a node's [params]: a new outer dict over copies of
    the two groups.  As with [deepcopy]'s memo, a dict object stored
    under both keys is copied once. *)
Definition deepcopy_params (p : loc) : M loc :=
  let* gp := get_outer p in
  let* g' := deepcopy_dict gp.1 in
  let* p' := (if decide (gp.2 = gp.1) then ret g' else deepcopy_dict gp.2) in
  alloc (OParams g' p').

(** Modelled from the spec: the constructor
    [Node(url=.., method=.., parent_request=..)] of the missing module
    [node]; a new node owns a new [params] mapping with both groups
    empty, and its [size] counts its parameters. *)
Definition Node_init (u : str) (m : HTTPMethod) (parent : option loc) : M loc :=
  let* g := alloc (ODict []) in
  let* p := alloc (ODict []) in
  let* outer := alloc (OParams g p) in
  alloc (ONode (mkNode u m outer 0 parent)).

(** Modelled from the spec: [Node.calculate_param_size] of the missing
    module [node]: [size] becomes the count of parameters across both
    groups. *)
Definition calculate_param_size (node : loc) : M unit :=
  let* a := len_params node GET in
  let* b := len_params node POST in
  let* n := get_node node in
  store node (ONode (with_size n (a + b))).

(* ================================================================== *)
(** ** Payload collections and the registry of strategies *)
(* ================================================================== *)

(** Weights that govern how often a mutation function is called. *)
Definition FREQ_XSS_PAYLOAD : nat := 30.
Definition FREQ_TYPE_ALTER : nat := 10.
Definition FREQ_RAND_TEXT : nat := 50.
Definition FREQ_SYNTAX_TOKEN : nat := 10.
Definition FREQ_SKIP_PARAM : nat := 10.

Definition HEADS : nat := 1.
Definition TAILS : nat := 2.

(** [class Kind(NamedTuple)]; weights are the non-negative integers
    [random.choices] expects. *)
Record Kind := mkKind {
  Kind_weight : nat;
  Kind_payloads : list str
}.

(** [class Payloads(NamedTuple)], with its single field [payloads]. *)
Abbreviation Payloads := (list Kind).

(** [Payloads.weights] *)
Definition Payloads_weights (self : Payloads) : list nat :=
  map Kind_weight self.

(** [Payloads.payload] *)
Definition Payloads_payload (self : Payloads) : M str :=
  let* p := Random.choices self (Payloads_weights self) in
  Random.choice (Kind_payloads p).

(** The type of a per-parameter strategy. *)
Definition strategy : Type := str -> list str -> M (str * list str).

(** [class MutateFunc(NamedTuple)] *)
Record MutateFunc := mkMutateFunc {
  MutateFunc_id : nat;
  MutateFunc_weight : nat;
  MutateFunc_func : strategy
}.

(** [class MutateFunctions(NamedTuple)], with its single field [funcs]. *)
Abbreviation MutateFunctions := (list MutateFunc).

Definition MutateFunctions_functions (self : MutateFunctions) : list strategy :=
  map MutateFunc_func self.

Definition MutateFunctions_weights (self : MutateFunctions) : list nat :=
  map MutateFunc_weight self.

(** [MutateFunctions.mutator] *)
Definition MutateFunctions_mutator (self : MutateFunctions) : M strategy :=
  Random.choices (MutateFunctions_functions self) (MutateFunctions_weights self).

(** [string.ascii_lowercase], [string.punctuation], [string.digits] *)
Definition ascii_lowercase : str := lit "abcdefghijklmnopqrstuvwxyz".
Definition digits : str := lit "0123456789".
Definition punctuation : str :=
  map ascii_of_nat (seq 33 15 ++ seq 58 7 ++ seq 91 6 ++ seq 123 4).

Definition alphabet : str := ascii_lowercase ++ punctuation ++ digits.

(** [ceil(n / 2)] for a length [n]. *)
Definition ceil_half (n : nat) : nat := (n + 1) / 2.

(* ================================================================== *)
(** ** Class [Mutator] *)
(* ================================================================== *)

(** The payload collections a [Mutator] holds; [__init__] reads them
    from the payload files, which are outside of this model. *)
Record Mutator := mkMutator {
  xss_payloads : Payloads;
  syntax_tokens : Payloads
}.

(** [Mutator.random_string] *)
Definition random_string (length : nat) : M str :=
  Random.choices_k alphabet length.

(** The shared tail of the three text-adding strategies. *)
Definition place (payload : str) (param : str) (val : list str)
  : M (str * list str) :=
  let* coin := Random.randint HEADS TAILS in
  if coin =? HEADS then ret (param, map (fun x => payload ++ x) val)
  else ret (param, map (fun x => x ++ payload) val).

(** [Mutator.add_random_text] *)
Definition add_random_text : strategy := fun param val =>
  let* n := Random.randrange 1 6 in
  let* payload := random_string n in
  place payload param val.

(** [Mutator.add_syntax_token] *)
Definition add_syntax_token (self : Mutator) : strategy := fun param val =>
  let* payload := Payloads_payload (syntax_tokens self) in
  place payload param val.

(** [Mutator.add_xss_payload] *)
Definition add_xss_payload (self : Mutator) : strategy := fun param val =>
  let* payload := Payloads_payload (xss_payloads self) in
  place payload param val.

(** The registry built by [Mutator.__init__]. *)
Definition per_param_mutators (self : Mutator) : MutateFunctions :=
  [ mkMutateFunc 1 FREQ_XSS_PAYLOAD (add_xss_payload self);
    mkMutateFunc 2 FREQ_TYPE_ALTER (fun param val => ret (alter_type param val));
    mkMutateFunc 3 FREQ_RAND_TEXT add_random_text;
    mkMutateFunc 4 FREQ_SYNTAX_TOKEN (add_syntax_token self);
    mkMutateFunc 5 FREQ_SKIP_PARAM (fun param val => ret (skip_param param val)) ].

(** [node.url] *)
Definition node_url (node : loc) : M str :=
  let* n := get_node node in ret (url n).

(** The loop of [Mutator.select_favourable_node]; [cross_node] is the
    current donor, a result before the end of the list is the [break]. *)
Fixpoint select_scan (start_node : loc) (cross_type : HTTPMethod)
    (len_params_self : nat) (cross_node : loc) (nodes : list loc) : M loc :=
  match nodes with
  | [] => ret cross_node
  | node :: rest =>
      let* len_params_node := len_params node cross_type in
      let* len_cross := len_params cross_node cross_type in
      let* other_url :=
        (if len_cross <? len_params_node then
           let* u := node_url node in
           let* su := node_url start_node in
           ret (negb (bool_decide (u = su)))
         else ret false) in
      if other_url then ret node
      else if ceil_half len_params_self <=? len_params_node then
        select_scan start_node cross_type len_params_self node rest
      else
        select_scan start_node cross_type len_params_self cross_node rest
  end.

(** [Mutator.select_favourable_node] *)
Definition select_favourable_node (node_list : list loc) (start_node : loc)
    (cross_type : HTTPMethod) : M (option loc) :=
  match node_list with
  | [] => ret None
  | first :: _ =>
      let* len_params_self := len_params start_node cross_type in
      let* cross_node :=
        select_scan start_node cross_type len_params_self first node_list in
      ret (Some cross_node)
  end.

(** [Mutator.merge_nodes] *)
Definition merge_nodes (new_node cross_node : loc) (cross_type : HTTPMethod)
  : M unit :=
  let* target := params_item new_node cross_type in
  let* donor := params_item cross_node cross_type in
  let* d := get_dict target in
  let* other := get_dict donor in
  store target (ODict (Dict.update d other)).

(** The body of the loop of [Mutator.cross_over]; [ret tt] before the
    end is the [continue]. *)
Definition cross_over_group (node_list : list loc) (new_node : loc)
    (param_type : HTTPMethod) : M unit :=
  let* nn := get_node new_node in
  if HTTPMethod_eqb (method nn) GET && HTTPMethod_eqb param_type POST then
    ret tt
  else
    let* cross_node := select_favourable_node node_list new_node param_type in
    match cross_node with
    | None => ret tt
    | Some c => merge_nodes new_node c param_type
    end.

(** [Mutator.cross_over] *)
Definition cross_over (from_node : loc) (node_list : list loc) (new_node : loc)
  : M unit :=
  let* fn := get_node from_node in
  let* p := deepcopy_params (params fn) in
  set_params new_node p ;;;
  for_ [GET; POST] (cross_over_group node_list new_node).

(** One iteration of the inner loop of [Mutator.per_param_mutate]. *)
Definition mutate_param (self : Mutator) (new_node : loc)
    (param_type : HTTPMethod) (kv : str * list str) : M unit :=
  let '(key, value) := kv in
  let* f := MutateFunctions_mutator (per_param_mutators self) in
  let* pv := f key value in
  let '(param, val) := pv in
  (if bool_decide (param = key) then ret tt
   else
     let* t := params_item new_node param_type in
     let* d := get_dict t in
     match Dict.delitem key d with
     | Some d' => store t (ODict d')
     | None => raise KeyError
     end) ;;;
  let* t := params_item new_node param_type in
  let* d := get_dict t in
  store t (ODict (Dict.setitem param val d)).

(** The body of the outer loop of [Mutator.per_param_mutate].  The
    items of the source dict are read when the inner loop starts; the
    loop only updates the copy held by [new_node], a different object
    whenever the two nodes do not share their [params] mapping. *)
Definition mutate_group (self : Mutator) (from_node new_node : loc)
    (param_type : HTTPMethod) : M unit :=
  let* src := params_item from_node param_type in
  let* c := deepcopy_dict src in
  params_setitem new_node param_type c ;;;
  let* it := params_item from_node param_type in
  let* items := get_dict it in
  for_ items (mutate_param self new_node param_type).

(** [Mutator.per_param_mutate] *)
Definition per_param_mutate (self : Mutator) (from_node new_node : loc)
    (node_list : list loc) : M unit :=
  for_ [GET; POST] (mutate_group self from_node new_node).

(** [Mutator.all_param_mutate] *)
Definition all_param_mutate (self : Mutator) (from_node new_node : loc)
    (node_list : list loc) : M unit :=
  let functions := [cross_over] in
  let* f := Random.choice functions in
  f from_node node_list new_node.

(** [Mutator.mutate] *)
Definition mutate (self : Mutator) (from_node : loc) (node_list : list loc)
  : M loc :=
  let* fn := get_node from_node in
  let* new_node := Node_init (url fn) (method fn) (Some from_node) in
  let* fn := get_node from_node in
  (if size fn =? 0 then cross_over from_node node_list new_node
   else
     let* choice :=
       Random.choices [per_param_mutate self; all_param_mutate self] [80; 20] in
     choice from_node new_node node_list) ;;;
  calculate_param_size new_node ;;;
  ret new_node.

(* ================================================================== *)
(** ** Reading the payload files *)
(* ================================================================== *)

(** [s.split(sep)] for a separator of one character. *)
Fixpoint split (sep : ascii) (s : str) : list str :=
  match s with
  | [] => [[]]
  | c :: s' =>
      if Ascii.eqb c sep then [] :: split sep s'
      else
        match split sep s' with
        | l :: ls => (c :: l) :: ls
        | [] => [[c]]
        end
  end.

Definition carriage_return : ascii := "013"%char.

(** What [open(path)] followed by [read()] meets at a path. *)
Inductive file : Type :=
| NoFile             (* [open] raises [OSError] *)
| NoText             (* the file opens, [read] raises [UnicodeDecodeError] *)
| Text (raw : str).  (* the decoded characters, line ends as stored *)

Definition files : Type := str -> file.

(** The translation of line ends by a file opened in text mode with the
    default [newline=None]: each of [\r\n], [\r] and [\n] is read as
    [\n]. *)
Fixpoint universal_newlines (raw : str) : str :=
  match raw with
  | [] => []
  | c :: raw' =>
      if Ascii.eqb c carriage_return then
        newline ::
          match raw' with
          | c' :: raw'' =>
              if Ascii.eqb c' newline then universal_newlines raw''
              else universal_newlines raw'
          | [] => []
          end
      else c :: universal_newlines raw'
  end.

(** [read_tokens]; [dir] stands for [dirname(__file__)].  The result is
    [None] when [open] or [read] raises.  The lambda of the [filter]
    keeps the lines that are not empty. *)
Definition read_tokens (dir : str) (fs : files) (filename : str)
  : option (list str) :=
  match fs (dir ++ lit "/" ++ filename) with
  | Text raw =>
      let lines := split newline (universal_newlines raw) in
      Some (List.filter (fun l => match l with [] => false | _ => true end)
                        lines)
  | NoFile | NoText => None
  end.

(** [Mutator.__init__]: the two payload collections, read from six
    files in this order; the registry of strategies is
    [per_param_mutators]. *)
Definition Mutator_init (dir : str) (fs : files) : option Mutator :=
  attributes ← read_tokens dir fs (lit "Payloads/XSS/attributes");
  dirty ← read_tokens dir fs (lit "Payloads/XSS/dirty");
  well_formed ← read_tokens dir fs (lit "Payloads/XSS/well_formed");
  html ← read_tokens dir fs (lit "Payloads/Syntax/html");
  php ← read_tokens dir fs (lit "Payloads/Syntax/php");
  js ← read_tokens dir fs (lit "Payloads/Syntax/js");
  Some (mkMutator
          [mkKind 30 attributes; mkKind 50 dirty; mkKind 20 well_formed]
          [mkKind 30 html; mkKind 30 php; mkKind 40 js]).

(* ================================================================== *)
(** ** Vocabulary of the properties *)
(* ================================================================== *)

(** The names [alter_type] shortens: a bracket group that starts at the
    last opening bracket and closes at the position matched by [$]. *)
Definition has_group (param base inner tail : str) : Prop :=
  param = base ++ lbracket :: inner ++ rbracket :: tail /\
  (lbracket ∉ inner) /\ (tail = [] \/ tail = [newline]).

(** A name is bracket-free when it holds neither bracket character. *)
Definition bracket_free (p : str) : Prop :=
  (lbracket ∉ p) /\ (rbracket ∉ p).

(** A collection the payload files are expected to give: some weight,
    and no empty category. *)
Definition Payloads_ok (self : Payloads) : Prop :=
  0 < sum_list (Payloads_weights self) /\
  Forall (fun kind => Kind_payloads kind <> []) self.

(** [out] is [vals] with [token] put in front of every element, or with
    [token] put behind every element. *)
Definition inserted (token : str) (vals out : list str) : Prop :=
  out = map (fun x => token ++ x) vals \/
  out = map (fun x => x ++ token) vals.

(** *** Views of the heap *)

(** The object of each kind stored at a reference, if any. *)
Definition node_at (h : heap) (l : loc) : option Node :=
  match h !! l with Some (ONode n) => Some n | _ => None end.

Definition outer_at (h : heap) (l : loc) : option (loc * loc) :=
  match h !! l with Some (OParams g p) => Some (g, p) | _ => None end.

Definition dict_at (h : heap) (l : loc) : option dict :=
  match h !! l with Some (ODict d) => Some d | _ => None end.

(** The reference held by [node.params[ty]]. *)
Definition group_loc (h : heap) (node : loc) (ty : HTTPMethod) : option loc :=
  match node_at h node with
  | Some n =>
      match outer_at h (params n) with
      | Some gp => Some (group ty gp)
      | None => None
      end
  | None => None
  end.

(** The parameters [node.params[ty]] denotes in the heap [h]. *)
Definition read_group (h : heap) (node : loc) (ty : HTTPMethod) : option dict :=
  match group_loc h node ty with
  | Some l => dict_at h l
  | None => None
  end.

(** A node all of whose parts are present, with dicts of distinct keys
    and the two groups held by different dict objects. *)
Definition wf_node (h : heap) (node : loc) : Prop :=
  exists n g p dg dp,
    node_at h node = Some n /\ outer_at h (params n) = Some (g, p) /\
    dict_at h g = Some dg /\ dict_at h p = Some dp /\
    Dict.wf dg /\ Dict.wf dp /\ g <> p.

(** [len(node.params[ty])] and [node.url] as functions of the heap. *)
Definition nparams (h : heap) (ty : HTTPMethod) (node : loc) : nat :=
  from_option length 0 (read_group h node ty).

Definition url_of (h : heap) (node : loc) : str :=
  from_option url [] (node_at h node).

(** *** Donor selection *)

(** [node.params[ty]] can be read in [h]. *)
Definition readable (h : heap) (ty : HTTPMethod) (node : loc) : Prop :=
  is_Some (read_group h node ty).

Section donor.

Variables (h : heap) (ty : HTTPMethod) (start : loc).

(** The stronger condition: the candidate has more parameters in the
    group than the current donor, and another url than the target. *)
Definition fires (donor cand : loc) : Prop :=
  nparams h ty donor < nparams h ty cand /\ url_of h cand <> url_of h start.

(** The weaker condition: at least [ceil(selfCount / 2)] parameters. *)
Definition weak (cand : loc) : bool :=
  ceil_half (nparams h ty start) <=? nparams h ty cand.

(** The donor after the candidates [pre], when the stronger condition
    fired for none of them: the last one of [pre] that satisfies the
    weaker condition, and the donor before them when there is none. *)
Definition running_donor (donor : loc) (pre : list loc) : loc :=
  default donor (last (List.filter weak pre)).

(** The stronger condition fires for no candidate of [l]. *)
Definition never_fires (donor : loc) (l : list loc) : Prop :=
  forall pre cand post,
    l = pre ++ cand :: post -> ~ fires (running_donor donor pre) cand.

End donor.

(** *** Sample data *)

(** A heap with three nodes: [/x] with one GET parameter at reference 3,
    [/y] with three at reference 7, and [/a] with two at reference 11. *)
Definition sample_heap : heap :=
  [ ODict [(lit "q", [lit "1"])]; ODict []; OParams 0 1;
    ONode (mkNode (lit "/x") GET 2 1 None);
    ODict [(lit "a", [lit "1"]); (lit "b", [lit "2"]); (lit "c", [lit "3"])];
    ODict []; OParams 4 5;
    ONode (mkNode (lit "/y") GET 6 3 None);
    ODict [(lit "id", [lit "1"]); (lit "p[]", [lit "x"; lit "y"])];
    ODict []; OParams 8 9;
    ONode (mkNode (lit "/a") GET 10 2 None) ].

(** A generator whose draws are all [d]. *)
Definition constant_rng (d : nat) : rng := fun _ => d.

(** *** Frames *)

(** From [h] to [h'] no object was removed, and the objects of [h]
    outside of the references [X] are unchanged. *)
Definition modifies (X : list loc) (h h' : heap) : Prop :=
  length h <= length h' /\
  forall x, x < length h -> x ∉ X -> h' !! x = h !! x.

(** Both groups of [node] can be read. *)
Definition readable2 (h : heap) (node : loc) : Prop :=
  readable h GET node /\ readable h POST node.

(** A heap for [cross_over]: the source at reference 3 is a POST request
    with one body parameter, the target at reference 7 a GET request
    without parameters. *)
Definition post_heap : heap :=
  [ ODict []; ODict [(lit "a", [lit "1"])]; OParams 0 1;
    ONode (mkNode (lit "/s") POST 2 1 None);
    ODict []; ODict []; OParams 4 5;
    ONode (mkNode (lit "/t") GET 6 0 None) ].

(** A computation that leaves the heap as it is. *)
Definition pure_heap {A} (m : M A) : Prop :=
  forall h g a st', m (h, g) = Ok (a, st') -> exists g', st' = (h, g').

(** The node and its [params] mapping all live at references from [L]
    on, that is, they were allocated after the first [L] objects. *)
Definition owns (L : nat) (h : heap) (node : loc) : Prop :=
  L <= node /\
  exists n a b,
    node_at h node = Some n /\ L <= params n /\
    outer_at h (params n) = Some (a, b) /\ L <= a /\ L <= b.

(** The invariant of a mutation that started in [h0] and builds the node
    [new]: the objects of [h0] are unchanged, and [new] only refers to
    objects allocated since. *)
Definition mutation_inv (h0 : heap) (new : loc) (h : heap) : Prop :=
  modifies [] h0 h /\ owns (length h0) h new.

(** The heap after the constructor [Node(url, method, parent_request)]
    ran in [h]; the new node is at [length h + 3]. *)
Definition constructed (h : heap) (u : str) (m : HTTPMethod)
    (parent : option loc) : heap :=
  h ++ [ ODict []; ODict []; OParams (length h) (S (length h));
         ONode (mkNode u m (S (S (length h))) 0 parent) ].

(** A [Mutator] with small payload collections. *)
Definition sample_mutator : Mutator :=
  mkMutator [mkKind 30 [lit "<x>"]; mkKind 70 [lit "<svg>"; lit "<b>"]]
            [mkKind 40 [lit "'"]].

(** A generator whose first draws are those of [l]. *)
Definition list_rng (l : list nat) : rng := fun i => nth i l 0.

(** What [mutate], started in [h] on the source [from] with fields [fn],
    promises of the node it returns: [nn] are the fields of the new
    node in the final heap [h']. *)
Definition built (from : loc) (h : heap) (fn : Node) (h' : heap) (nn : Node)
  : Prop :=
  let new := S (S (S (length h))) in
  node_at h' new = Some nn /\
  url nn = url fn /\ method nn = method fn /\
  parent_request nn = Some from /\
  readable2 h' new /\
  size nn = nparams h' GET new + nparams h' POST new.

(** *** Vocabulary of the further properties *)

(** ["\n".join(ls)] *)
Fixpoint join_lines (ls : list str) : str :=
  match ls with
  | [] => []
  | [l] => l
  | l :: ls' => l ++ newline :: join_lines ls'
  end.

(** [eol.join(ls)] *)
Fixpoint join_with (eol : str) (ls : list str) : str :=
  match ls with
  | [] => []
  | [l] => l
  | l :: ls' => l ++ eol ++ join_with eol ls'
  end.

(** The three line ends a text file may use: [\n], [\r\n] and [\r]. *)
Definition line_end (eol : str) : Prop :=
  eol = [newline] \/ eol = [carriage_return; newline] \/
  eol = [carriage_return].

(** A payload as [read_tokens] returns them: not empty, and without a
    character that text mode reads as a line end. *)
Definition token (t : str) : Prop :=
  t <> [] /\ (newline ∉ t) /\ (carriage_return ∉ t).

(** [open] and [read] both succeed at the path of the payload file. *)
Definition reads (dir : str) (fs : files) (filename : str) : Prop :=
  exists raw, fs (dir ++ lit "/" ++ filename) = Text raw.

(** The payload files of the two collections. *)
Definition xss_files : list str :=
  [lit "Payloads/XSS/attributes"; lit "Payloads/XSS/dirty";
   lit "Payloads/XSS/well_formed"].

Definition syntax_files : list str :=
  [lit "Payloads/Syntax/html"; lit "Payloads/Syntax/php";
   lit "Payloads/Syntax/js"].

(** The file can be read and holds a line that is not empty. *)
Definition has_token (dir : str) (fs : files) (filename : str) : Prop :=
  exists toks, read_tokens dir fs filename = Some toks /\ toks <> [].

(** Every draw from the collection returns a payload. *)
Definition always_draws (self : Payloads) : Prop :=
  forall st, exists x st', Payloads_payload self st = Ok (x, st').

(** A file system with the one file [path], holding [raw]. *)
Definition one_file (path raw : str) : files :=
  fun p => if decide (p = path) then Text raw else NoFile.

(** A file system in which every path holds [raw]. *)
Definition every_file (raw : str) : files := fun _ => Text raw.

(** [d.get(k)] *)
Fixpoint dict_get (k : str) (d : dict) : option (list str) :=
  match d with
  | [] => None
  | (k', v) :: d' => if decide (k' = k) then Some v else dict_get k d'
  end.

(** [d'] has every parameter name of [d], hence at least as many. *)
Definition keeps_names (d d' : dict) : Prop :=
  (forall k, k ∈ d.*1 -> k ∈ d'.*1) /\ length d <= length d'.

(** The group [f] of the target after [cross_over]: the group [d] of the
    source, alone or updated with the same group of a node of the
    corpus. *)
Definition crossed (h : heap) (corpus : list loc) (ty : HTTPMethod)
    (d f : dict) : Prop :=
  f = d \/
  exists c other,
    c ∈ corpus /\ read_group h c ty = Some other /\ f = Dict.update d other.

(** [(param, val)] is what a strategy of the registry can make of
    [(key, value)]: the name kept and the values kept or extended by one
    token each, or the pair [alter_type] gives. *)
Definition mutation_of (key : str) (value : list str)
    (param : str) (val : list str) : Prop :=
  (param = key /\ (val = value \/ exists token, inserted token value val)) \/
  (param, val) = alter_type key value.

(** The group [dst] holds only mutations of parameters of [src], with
    pairwise distinct names; it is empty only if [src] is, and not
    longer than [src]. *)
Definition mutated (src dst : dict) : Prop :=
  (forall param val, (param, val) ∈ dst ->
     exists key value, (key, value) ∈ src /\ mutation_of key value param val) /\
  (src <> [] -> dst <> []) /\
  Dict.wf dst /\
  length dst <= length src.

(* ================================================================== *)
(** * Properties *)
(* ================================================================== *)

(** ** The regular expression of [alter_type] *)

Section regex_facts.

Import Re.

Lemma star_inv p k s n :
  star p k s = Some n ->
  exists pre post m,
    s = pre ++ post /\ Forall (fun c => p c = true) pre /\
    k post = Some m /\ n = length pre + m.
Proof.
  revert n. induction s as [|c s IH]; intros n H; simpl in H.
  - exists [], [], n. by repeat split.
  - destruct (p c) eqn:Hc.
    + destruct (star p k s) as [n'|] eqn:Hs.
      * injection H as <-.
        destruct (IH n' eq_refl) as (pre & post & m & -> & Hpre & Hk & ->).
        exists (c :: pre), post, m. repeat split; auto.
      * exists [], (c :: s), n. by repeat split.
    + exists [], (c :: s), n. by repeat split.
Qed.

(** A character class that accepts the whole of [pre] is first tried
    on all of it: the match of the continuation furthest to the right
    wins. *)
Lemma star_skip p k pre post :
  Forall (fun c => p c = true) pre ->
  forall n, star p k post = Some n ->
  star p k (pre ++ post) = Some (length pre + n).
Proof.
  induction 1 as [|c pre Hc _ IH]; intros n Hn; simpl; [done|].
  by rewrite Hc, (IH n Hn).
Qed.

Lemma at_dollar_cases s :
  at_dollar s = true <-> s = [] \/ s = [newline].
Proof.
  destruct s as [|c [|d s]]; simpl.
  - split; [by left | done].
  - rewrite Ascii.eqb_eq. split; [intros ->; by right | by intros [|[= ->]]].
  - split; [done | by intros [|]].
Qed.

Lemma match_array_access_inv s n :
  match_here array_access s = Some n ->
  exists inner tail,
    s = lbracket :: inner ++ rbracket :: tail /\ (lbracket ∉ inner) /\
    (tail = [] \/ tail = [newline]) /\ n = length inner + 2.
Proof.
  unfold array_access. cbn [match_here].
  destruct s as [|c s]; [done|].
  destruct (Ascii.eqb lbracket c) eqn:Hc; [|done].
  apply Ascii.eqb_eq in Hc as <-.
  destruct (star _ _ s) as [n'|] eqn:Hs; [|done].
  cbn [fmap option_fmap option_map]. intros [= <-].
  apply star_inv in Hs as (pre & post & m & -> & Hpre & Hk & ->).
  cbn [match_here] in Hk.
  destruct post as [|d post]; [done|].
  destruct (Ascii.eqb rbracket d) eqn:Hd; [|done].
  apply Ascii.eqb_eq in Hd as <-.
  destruct (at_dollar post) eqn:Hpost; [|done].
  injection Hk as <-.
  exists pre, post. repeat split.
  - intros Hin. rewrite Forall_forall in Hpre.
    specialize (Hpre _ Hin). cbv beta in Hpre.
    by rewrite Ascii.eqb_refl in Hpre.
  - by apply at_dollar_cases.
  - lia.
Qed.

Lemma match_array_access_group inner tail :
  lbracket ∉ inner -> tail = [] \/ tail = [newline] ->
  match_here array_access (lbracket :: inner ++ rbracket :: tail)
  = Some (S (length inner + 1)).
Proof.
  intros Hin Htail. unfold array_access. cbn [match_here].
  rewrite Ascii.eqb_refl.
  erewrite star_skip; [done| |].
  - apply Forall_forall. intros c Hc.
    destruct (Ascii.eqb lbracket c) eqn:E; [|done].
    apply Ascii.eqb_eq in E as <-. done.
  - by destruct Htail as [-> | ->].
Qed.

(** No match starts to the left of the last opening bracket. *)
Lemma match_array_access_before c base rest :
  match_here array_access (c :: base ++ lbracket :: rest) = None.
Proof.
  destruct (match_here _ _) as [n|] eqn:H; [|done]. exfalso.
  apply match_array_access_inv in H
    as (inner & tail & Heq & Hin & Htail & _).
  injection Heq as _ Heq.
  assert (lbracket ∈ inner ++ rbracket :: tail) as Hl.
  { rewrite <- Heq. apply elem_of_app. right. by left. }
  apply elem_of_app in Hl as [Hl | Hl]; [done|].
  apply elem_of_cons in Hl as [Hl | Hl]; [done|].
  destruct Htail as [-> | ->]; [by apply elem_of_nil in Hl|].
  apply list_elem_of_singleton in Hl. done.
Qed.

Lemma findall_from_skip re xs ys :
  findall_from re (xs ++ ys) (length xs) = findall_from re ys 0.
Proof. induction xs as [|x xs IH]; [done|]. simpl. apply IH. Qed.

Lemma sub_from_skip re repl xs ys :
  sub_from re repl (xs ++ ys) (length xs) = sub_from re repl ys 0.
Proof. induction xs as [|x xs IH]; [done|]. simpl. apply IH. Qed.

Lemma findall_no_match re s :
  (forall i, match_here re (drop i s) = None) -> findall re s = [].
Proof.
  unfold findall. induction s as [|c s IH]; intros H; cbn [findall_from].
  - by rewrite (H 0 : match_here re [] = None).
  - rewrite (H 0 : match_here re (c :: s) = None).
    apply IH. intros i. apply (H (S i)).
Qed.

End regex_facts.


Lemma alter_type_strip {V} param base inner tail (val : V) :
  has_group param base inner tail ->
  alter_type param val = (base ++ tail, val).
Proof.
  intros (-> & Hin & Htail). unfold alter_type, Re.findall, Re.sub.
  assert ((0 <? length (Re.findall_from array_access
            (base ++ lbracket :: inner ++ rbracket :: tail) 0)) = true) as ->.
  { induction base as [|b base IH]; simpl app.
    - cbn [Re.findall_from].
      rewrite match_array_access_group by done. done.
    - cbn [Re.findall_from].
      by rewrite match_array_access_before. }
  f_equal. induction base as [|b base IH]; simpl app.
  - cbn [Re.sub_from]. rewrite match_array_access_group by done.
    simpl app.
    replace (length inner + 1) with (length (inner ++ [rbracket]))
      by (rewrite length_app; simpl; lia).
    replace (inner ++ rbracket :: tail) with ((inner ++ [rbracket]) ++ tail)
      by (by rewrite <- app_assoc).
    rewrite sub_from_skip.
    by destruct Htail as [-> | ->].
  - cbn [Re.sub_from]. rewrite match_array_access_before. by rewrite IH.
Qed.

Lemma alter_type_append {V} param (val : V) :
  (forall base inner tail, ~ has_group param base inner tail) ->
  alter_type param val = (param ++ lit "[]", val).
Proof.
  intros Hno. unfold alter_type.
  rewrite findall_no_match; [done|].
  intros i. destruct (Re.match_here _ _) as [n|] eqn:H; [|done]. exfalso.
  apply match_array_access_inv in H as (inner & tail & Heq & Hin & Htail & _).
  apply (Hno (take i param) inner tail). repeat split; [|done..].
  by rewrite <- Heq, take_drop.
Qed.


Lemma has_group_open_bracket param base inner tail :
  has_group param base inner tail -> lbracket ∈ param.
Proof. intros (-> & _). apply elem_of_app. right. by left. Qed.

(** C3 (amended): [alter_type] never raises (it is a total function);
    when the name is [base ++ "[" ++ inner ++ "]" ++ tail], where [inner]
    holds zero or more characters other than ["["] and [tail] is empty
    or a single final newline (the positions where [$] matches), the
    result is [base ++ tail] with the values unchanged; a name of no such
    shape gets the two characters ["[]"] appended, values unchanged. *)
Theorem alter_type_spec (param : str) (val : list str) :
  (forall base inner tail,
      has_group param base inner tail ->
      alter_type param val = (base ++ tail, val)) /\
  ((forall base inner tail, ~ has_group param base inner tail) ->
   alter_type param val = (param ++ lit "[]", val)).
Proof.
  split.
  - intros base inner tail H. by apply (alter_type_strip _ _ inner).
  - apply alter_type_append.
Qed.

Lemma alter_type_spec_witness :
  has_group (lit "foo[2]") (lit "foo") (lit "2") [] /\
  alter_type (lit "foo[2]") [lit "1"] = (lit "foo" ++ [], [lit "1"]).
Proof.
  assert (has_group (lit "foo[2]") (lit "foo") (lit "2") []) as H.
  { split; [reflexivity|]. split; [|by left].
    apply (bool_decide_unpack _). by vm_compute. }
  split; [exact H|].
  exact (proj1 (alter_type_spec (lit "foo[2]") [lit "1"])
               (lit "foo") (lit "2") [] H).
Defined.

(** C3, as stated, fails: the name ["p[1]\n"] does not end with a bracket
    group, yet [alter_type] strips the group before the final newline
    instead of appending ["[]"]. *)
Lemma alter_type_newline_counterexample :
  let name := lit "p[1]" ++ [newline] in
  last name <> Some rbracket /\
  alter_type name [lit "v"] = (lit "p" ++ [newline], [lit "v"]) /\
  alter_type name [lit "v"] <> (name ++ lit "[]", [lit "v"]).
Proof. vm_compute. repeat split; discriminate. Qed.

(** C7: for a bracket-free name [p] and any values [vs], the first
    application of [alter_type] yields [p ++ "[]"] and the second one
    strips that group again, so two applications return [(p, vs)]. *)
Theorem alter_type_twice (p : str) (vs : list str) :
  bracket_free p ->
  alter_type p vs = (p ++ lit "[]", vs) /\
  alter_type (alter_type p vs).1 (alter_type p vs).2 = (p, vs).
Proof.
  intros [Hl _].
  assert (alter_type p vs = (p ++ lit "[]", vs)) as H1.
  { apply alter_type_append. intros base inner tail H.
    by apply Hl, (has_group_open_bracket _ _ _ _ H). }
  split; [exact H1|]. rewrite H1. cbn [fst snd].
  rewrite (alter_type_strip _ p [] []).
  - by rewrite app_nil_r.
  - split; [done|]. split; [apply not_elem_of_nil | by left].
Qed.

Lemma alter_type_twice_witness :
  bracket_free (lit "p") /\
  alter_type (alter_type (lit "p") [lit "1"]).1
             (alter_type (lit "p") [lit "1"]).2 = (lit "p", [lit "1"]).
Proof.
  assert (bracket_free (lit "p")) as H.
  { split; apply (bool_decide_unpack _); by vm_compute. }
  split; [exact H|].
  exact (proj2 (alter_type_twice (lit "p") [lit "1"] H)).
Defined.

(** ** Running computations *)

Lemma bind_Ok {A B} (m : M A) (k : A -> M B) st a st' :
  m st = Ok (a, st') -> bind m k st = k a st'.
Proof. unfold bind. by intros ->. Qed.

Lemma bind_Raise {A B} (m : M A) (k : A -> M B) st e :
  m st = Raise e -> bind m k st = Raise e.
Proof. unfold bind. by intros ->. Qed.

Lemma bind_inv {A B} (m : M A) (k : A -> M B) st r :
  bind m k st = Ok r -> exists a st', m st = Ok (a, st') /\ k a st' = Ok r.
Proof.
  unfold bind. destruct (m st) as [[a st']|e]; [|done]. intros H. eauto.
Qed.

(** ** The [random] module *)

Lemma randbelow_run n h g :
  Random.randbelow n (h, g) = Ok (g 0 mod n, (h, advance g)).
Proof. reflexivity. Qed.

Lemma bisect_le a x : Random.bisect a x <= length a.
Proof.
  induction a as [|c a IH]; simpl; [lia|]. destruct (x <? c); lia.
Qed.

Lemma accumulate_from_length acc ws :
  length (Random.accumulate_from acc ws) = length ws.
Proof. revert acc. induction ws; intros; simpl; auto. Qed.

Lemma accumulate_from_last acc w ws :
  last (Random.accumulate_from acc (w :: ws)) = Some (acc + sum_list (w :: ws)).
Proof.
  revert acc w. induction ws as [|w' ws IH]; intros acc w.
  - simpl. f_equal. lia.
  - change (Random.accumulate_from acc (w :: w' :: ws))
      with ((acc + w) :: Random.accumulate_from (acc + w) (w' :: ws)).
    rewrite last_cons, IH. simpl. f_equal. lia.
Qed.

(** A weighted draw over a population of positive total weight returns
    one of its members and takes one draw from the generator. *)
Lemma choices_run {A} (population : list A) (weights : list nat) h g :
  length weights = length population ->
  0 < sum_list weights ->
  exists x, x ∈ population /\
    Random.choices population weights (h, g) = Ok (x, (h, advance g)).
Proof.
  intros Hlen Hsum. unfold Random.choices, Random.accumulate.
  rewrite accumulate_from_length, Hlen, Nat.eqb_refl. cbn [negb].
  destruct weights as [|w ws]; [simpl in Hsum; lia|].
  rewrite accumulate_from_last. cbn [Nat.add].
  destruct (Nat.eqb_spec (sum_list (w :: ws)) 0) as [E|_]; [lia|].
  erewrite bind_Ok by apply randbelow_run.
  set (i := Random.bisect _ _).
  assert (i < length population) as Hi.
  { subst i. eapply Nat.le_lt_trans; [apply bisect_le|].
    rewrite length_take, accumulate_from_length, Hlen.
    rewrite <- Hlen. simpl. lia. }
  destruct (lookup_lt_is_Some_2 _ _ Hi) as [x Hx]. rewrite Hx.
  exists x. split; [by eapply list_elem_of_lookup_2|done].
Qed.

Lemma choice_run {A} (seq : list A) h g :
  seq <> [] ->
  exists x, x ∈ seq /\ Random.choice seq (h, g) = Ok (x, (h, advance g)).
Proof.
  intros Hne. unfold Random.choice. destruct seq as [|a seq]; [done|].
  erewrite bind_Ok by apply randbelow_run.
  assert (g 0 mod length (a :: seq) < length (a :: seq)) as Hi.
  { apply Nat.mod_upper_bound. simpl. lia. }
  destruct (lookup_lt_is_Some_2 _ _ Hi) as [x Hx]. rewrite Hx.
  exists x. split; [by eapply list_elem_of_lookup_2|done].
Qed.

Lemma choice_empty {A} st : Random.choice (@nil A) st = Raise IndexError.
Proof. reflexivity. Qed.

Lemma randrange_run start stop h g :
  start < stop ->
  Random.randrange start stop (h, g)
  = Ok (start + g 0 mod (stop - start), (h, advance g)).
Proof.
  intros H. unfold Random.randrange.
  destruct (Nat.leb_spec stop start); [lia|]. reflexivity.
Qed.

Lemma choices_k_run {A} (population : list A) k h g :
  population <> [] ->
  exists xs g',
    Random.choices_k population k (h, g) = Ok (xs, (h, g')) /\
    length xs = k /\ Forall (fun x => x ∈ population) xs.
Proof.
  intros Hne. revert g. induction k as [|k IH]; intros g.
  - exists [], g. by repeat split.
  - cbn [Random.choices_k].
    erewrite bind_Ok by apply randbelow_run.
    assert (g 0 mod length population < length population) as Hi.
    { apply Nat.mod_upper_bound. by destruct population. }
    destruct (lookup_lt_is_Some_2 _ _ Hi) as [x Hx]. rewrite Hx.
    destruct (IH (advance g)) as (xs & g' & Hrun & Hlen & Hall).
    erewrite bind_Ok by exact Hrun.
    exists (x :: xs), g'. repeat split.
    + simpl. by rewrite Hlen.
    + constructor; [by eapply list_elem_of_lookup_2|done].
Qed.

Lemma choices_elem {A} (population : list A) weights st x st' :
  Random.choices population weights st = Ok (x, st') -> x ∈ population.
Proof.
  unfold Random.choices. destruct (negb _); [done|].
  destruct (last _); [|done]. destruct (_ =? 0); [done|].
  intros H. apply bind_inv in H as (r & st1 & _ & H).
  destruct (population !! _) as [y|] eqn:Hy; [|done].
  injection H as <- _. by eapply list_elem_of_lookup_2.
Qed.

Lemma choice_elem {A} (seq : list A) st x st' :
  Random.choice seq st = Ok (x, st') -> x ∈ seq.
Proof.
  unfold Random.choice. destruct seq as [|a seq]; [done|].
  intros H. apply bind_inv in H as (r & st1 & _ & H).
  destruct (_ !! _) as [y|] eqn:Hy; [|done].
  injection H as <- _. by eapply list_elem_of_lookup_2.
Qed.

(** ** Payload collections *)

Lemma Payloads_weights_length (self : Payloads) :
  length (Payloads_weights self) = length self.
Proof. apply length_map. Qed.

(** C4 (amended): a draw from a collection of positive total weight
    first selects one category; the draw raises [IndexError] exactly when
    the selected category is empty, and otherwise returns one of the
    payloads of the selected category, whatever the other categories
    hold. *)
Theorem payload_fails_iff_drawn_kind_empty (self : Payloads) (h : heap) (g : rng) :
  0 < sum_list (Payloads_weights self) ->
  exists kind, kind ∈ self /\
    Random.choices self (Payloads_weights self) (h, g)
    = Ok (kind, (h, advance g)) /\
    (Kind_payloads kind = [] ->
     Payloads_payload self (h, g) = Raise IndexError) /\
    (Kind_payloads kind <> [] ->
     exists x, x ∈ Kind_payloads kind /\
       Payloads_payload self (h, g) = Ok (x, (h, advance (advance g)))).
Proof.
  intros Hsum.
  destruct (choices_run self (Payloads_weights self) h g
              (Payloads_weights_length self) Hsum) as (kind & Hin & Hrun).
  exists kind. split; [done|]. split; [done|].
  unfold Payloads_payload. rewrite (bind_Ok _ _ _ _ _ Hrun). split.
  - intros ->. apply choice_empty.
  - intros Hne. apply (choice_run _ h (advance g) Hne).
Qed.

Lemma payload_fails_iff_drawn_kind_empty_witness :
  exists kind, kind ∈ [mkKind 30 [lit "a"]; mkKind 50 []] /\
    Random.choices [mkKind 30 [lit "a"]; mkKind 50 []]
      (Payloads_weights [mkKind 30 [lit "a"]; mkKind 50 []])
      ([], fun _ => 40)
    = Ok (kind, ([], advance (fun _ => 40))) /\
    (Kind_payloads kind = [] ->
     Payloads_payload [mkKind 30 [lit "a"]; mkKind 50 []] ([], fun _ => 40)
     = Raise IndexError) /\
    (Kind_payloads kind <> [] ->
     exists x, x ∈ Kind_payloads kind /\
       Payloads_payload [mkKind 30 [lit "a"]; mkKind 50 []] ([], fun _ => 40)
       = Ok (x, ([], advance (advance (fun _ => 40))))).
Proof.
  apply (payload_fails_iff_drawn_kind_empty
           [mkKind 30 [lit "a"]; mkKind 50 []] [] (fun _ => 40)).
  vm_compute. lia.
Defined.

(** C4, as stated, fails: this collection holds an empty category, and
    the draw below returns a payload all the same. *)
Lemma payload_empty_kind_counterexample :
  let self := [mkKind 30 [lit "a"]; mkKind 50 []] in
  (exists kind, kind ∈ self /\ Kind_payloads kind = []) /\
  exists st', Payloads_payload self ([], fun _ => 0) = Ok (lit "a", st').
Proof.
  split.
  - exists (mkKind 50 []). split; [|done]. right. left.
  - eexists. reflexivity.
Qed.


Lemma Payloads_payload_run (self : Payloads) h g :
  Payloads_ok self ->
  exists kind x, kind ∈ self /\ x ∈ Kind_payloads kind /\
    Payloads_payload self (h, g) = Ok (x, (h, advance (advance g))).
Proof.
  intros [Hsum Hall].
  destruct (choices_run self (Payloads_weights self) h g
              (Payloads_weights_length self) Hsum) as (kind & Hin & Hrun).
  rewrite Forall_forall in Hall.
  destruct (choice_run _ h (advance g) (Hall _ Hin)) as (x & Hx & Hrun').
  exists kind, x. split; [done|]. split; [done|].
  unfold Payloads_payload. by rewrite (bind_Ok _ _ _ _ _ Hrun).
Qed.

(** ** The text-adding strategies *)


Lemma place_run payload param val h g :
  exists out,
    place payload param val (h, g) = Ok ((param, out), (h, advance g)) /\
    inserted payload val out /\ length out = length val.
Proof.
  unfold place, Random.randint.
  rewrite (bind_Ok _ _ _ _ _ (randrange_run HEADS (TAILS + 1) h g ltac:(cbv; lia))).
  destruct (_ =? HEADS); eexists; (split; [reflexivity|]);
    (split; [|by rewrite length_map]); [by left | by right].
Qed.

Lemma alphabet_nonempty : alphabet <> [].
Proof. done. Qed.

Lemma add_random_text_run param val h g :
  exists token out g',
    add_random_text param val (h, g) = Ok ((param, out), (h, g')) /\
    inserted token val out /\ length out = length val /\
    length token = 1 + g 0 mod 5 /\
    Forall (fun c => c ∈ alphabet) token.
Proof.
  unfold add_random_text, random_string.
  rewrite (bind_Ok _ _ _ _ _ (randrange_run 1 6 h g ltac:(lia))).
  change (6 - 1) with 5.
  destruct (choices_k_run alphabet (1 + g 0 mod 5) h (advance g)
              alphabet_nonempty) as (token & g' & Hrun & Hlen & Hall).
  rewrite (bind_Ok _ _ _ _ _ Hrun).
  destruct (place_run token param val h g') as (out & Hout & Hins & Hl).
  by exists token, out, (advance g').
Qed.

Lemma add_payload_run (self : Payloads) param val h g :
  Payloads_ok self ->
  exists token out g',
    (let* payload := Payloads_payload self in place payload param val) (h, g)
    = Ok ((param, out), (h, g')) /\
    inserted token val out /\ length out = length val /\
    exists kind, kind ∈ self /\ token ∈ Kind_payloads kind.
Proof.
  intros Hok.
  destruct (Payloads_payload_run self h g Hok) as (kind & x & Hk & Hx & Hrun).
  rewrite (bind_Ok _ _ _ _ _ Hrun).
  destruct (place_run x param val h (advance (advance g)))
    as (out & Hout & Hins & Hl).
  exists x, out, (advance (advance (advance g))). eauto 10.
Qed.

Lemma place_inv payload param val st p out st' :
  place payload param val st = Ok ((p, out), st') ->
  p = param /\ inserted payload val out /\ length out = length val.
Proof.
  unfold place. intros H. apply bind_inv in H as (coin & st1 & _ & H).
  destruct (coin =? HEADS); injection H as <- <- _;
    (split; [done|]); (split; [|by rewrite length_map]); [by left|by right].
Qed.

Lemma add_payload_inv (self : Payloads) param val st p out st' :
  (let* payload := Payloads_payload self in place payload param val) st
  = Ok ((p, out), st') ->
  p = param /\ length out = length val /\
  exists token kind,
    kind ∈ self /\ token ∈ Kind_payloads kind /\ inserted token val out.
Proof.
  intros H. apply bind_inv in H as (token & st1 & Htoken & H).
  apply place_inv in H as (-> & Hins & Hlen).
  split; [done|]. split; [done|].
  unfold Payloads_payload in Htoken.
  apply bind_inv in Htoken as (kind & st2 & Hkind & Htoken).
  exists token, kind. split; [by eapply choices_elem|].
  split; [by eapply choice_elem|done].
Qed.

(** C6: each of the three text-adding strategies returns the name
    unchanged and as many values as it was given; there is one token and
    one placement (in front or behind) such that every output value is
    the input value with the token at that place.  [add_random_text]
    always returns; its token has length [1 + d mod 5] for the raw draw
    [d], hence one of [1..5], and its characters come from the alphabet
    of lowercase letters, punctuation and digits.  For the other two the
    token is a payload of the respective collection, whenever they
    return, and they return for a collection of some weight without an
    empty category. *)
Theorem text_strategies_spec (self : Mutator) (param : str) (val : list str)
    (h : heap) (g : rng) :
  (exists token out g',
      add_random_text param val (h, g) = Ok ((param, out), (h, g')) /\
      inserted token val out /\ length out = length val /\
      length token = 1 + g 0 mod 5 /\ 1 <= length token <= 5 /\
      Forall (fun c => c ∈ ascii_lowercase ++ punctuation ++ digits) token) /\
  (forall p out st',
      add_syntax_token self param val (h, g) = Ok ((p, out), st') \/
      add_xss_payload self param val (h, g) = Ok ((p, out), st') ->
      p = param /\ length out = length val /\
      exists token, inserted token val out) /\
  (Payloads_ok (syntax_tokens self) ->
   exists token out g',
     add_syntax_token self param val (h, g) = Ok ((param, out), (h, g')) /\
     inserted token val out /\ length out = length val /\
     exists kind, kind ∈ syntax_tokens self /\ token ∈ Kind_payloads kind) /\
  (Payloads_ok (xss_payloads self) ->
   exists token out g',
     add_xss_payload self param val (h, g) = Ok ((param, out), (h, g')) /\
     inserted token val out /\ length out = length val /\
     exists kind, kind ∈ xss_payloads self /\ token ∈ Kind_payloads kind).
Proof.
  split; [|split; [|split]].
  - destruct (add_random_text_run param val h g)
      as (token & out & g' & Hrun & Hins & Hl & Hlen & Hall).
    exists token, out, g'. repeat split; try done.
    + lia.
    + rewrite Hlen. pose proof (Nat.mod_upper_bound (g 0) 5). lia.
  - intros p out st' [H|H]; apply add_payload_inv in H
      as (-> & Hlen & token & kind & _ & _ & Hins); eauto.
  - intros Hsyn. by apply add_payload_run.
  - intros Hxss. by apply add_payload_run.
Qed.

Lemma text_strategies_spec_witness :
  Payloads_ok [mkKind 40 [lit "'"]] /\
  Payloads_ok [mkKind 30 [lit "<x>"]] /\
  exists token out g',
    add_xss_payload (mkMutator [mkKind 30 [lit "<x>"]] [mkKind 40 [lit "'"]])
      (lit "q") [lit "1"] ([], fun _ => 0)
    = Ok ((lit "q", out), ([], g')) /\
    inserted token [lit "1"] out.
Proof.
  assert (Payloads_ok [mkKind 40 [lit "'"]]) as Hsyn.
  { split; [vm_compute; lia|]. by repeat constructor. }
  assert (Payloads_ok [mkKind 30 [lit "<x>"]]) as Hxss.
  { split; [vm_compute; lia|]. by repeat constructor. }
  split; [exact Hsyn|]. split; [exact Hxss|].
  destruct (proj2 (proj2 (proj2 (text_strategies_spec
              (mkMutator [mkKind 30 [lit "<x>"]] [mkKind 40 [lit "'"]])
              (lit "q") [lit "1"] [] (fun _ => 0)))) Hxss)
    as (token & out & g' & Hrun & Hins & _).
  exists token, out, g'. by split.
Defined.

(** ** Views of the heap under allocation and update *)

Section views.

Implicit Types (h : heap) (l x : loc) (g : rng).

Lemma node_at_lookup h l n : node_at h l = Some n <-> h !! l = Some (ONode n).
Proof.
  unfold node_at. destruct (h !! l) as [[]|]; split; congruence.
Qed.

Lemma outer_at_lookup h l a b :
  outer_at h l = Some (a, b) <-> h !! l = Some (OParams a b).
Proof.
  unfold outer_at. destruct (h !! l) as [[]|]; split; congruence.
Qed.

Lemma dict_at_lookup h l d : dict_at h l = Some d <-> h !! l = Some (ODict d).
Proof.
  unfold dict_at. destruct (h !! l) as [[]|]; split; congruence.
Qed.

Lemma node_at_lt h l n : node_at h l = Some n -> l < length h.
Proof. rewrite node_at_lookup. apply lookup_lt_Some. Qed.

Lemma outer_at_lt h l gp : outer_at h l = Some gp -> l < length h.
Proof. destruct gp. rewrite outer_at_lookup. apply lookup_lt_Some. Qed.

Lemma dict_at_lt h l d : dict_at h l = Some d -> l < length h.
Proof. rewrite dict_at_lookup. apply lookup_lt_Some. Qed.

(** Objects of different kinds live at different references. *)
Lemma node_outer_ne h l x n gp :
  node_at h l = Some n -> outer_at h x = Some gp -> l <> x.
Proof.
  destruct gp. rewrite node_at_lookup, outer_at_lookup. congruence.
Qed.

Lemma node_dict_ne h l x n d :
  node_at h l = Some n -> dict_at h x = Some d -> l <> x.
Proof. rewrite node_at_lookup, dict_at_lookup. congruence. Qed.

Lemma outer_dict_ne h l x gp d :
  outer_at h l = Some gp -> dict_at h x = Some d -> l <> x.
Proof.
  destruct gp. rewrite outer_at_lookup, dict_at_lookup. congruence.
Qed.

(** *** Extension of the heap *)

Lemma node_at_app h k l n :
  node_at h l = Some n -> node_at (h ++ k) l = Some n.
Proof. rewrite !node_at_lookup. apply lookup_app_l_Some. Qed.

Lemma outer_at_app h k l gp :
  outer_at h l = Some gp -> outer_at (h ++ k) l = Some gp.
Proof. destruct gp. rewrite !outer_at_lookup. apply lookup_app_l_Some. Qed.

Lemma dict_at_app h k l d :
  dict_at h l = Some d -> dict_at (h ++ k) l = Some d.
Proof. rewrite !dict_at_lookup. apply lookup_app_l_Some. Qed.

Lemma group_loc_app h k node ty l :
  group_loc h node ty = Some l -> group_loc (h ++ k) node ty = Some l.
Proof.
  unfold group_loc.
  destruct (node_at h node) as [n|] eqn:Hn; [|done].
  destruct (outer_at h (params n)) as [gp|] eqn:Hgp; [|done].
  by rewrite (node_at_app _ k _ _ Hn), (outer_at_app _ k _ _ Hgp).
Qed.

Lemma read_group_app h k node ty d :
  read_group h node ty = Some d -> read_group (h ++ k) node ty = Some d.
Proof.
  unfold read_group.
  destruct (group_loc h node ty) as [l|] eqn:Hl; [|done].
  rewrite (group_loc_app _ k _ _ _ Hl). apply dict_at_app.
Qed.

Lemma dict_at_alloc h d : dict_at (h ++ [ODict d]) (length h) = Some d.
Proof.
  apply dict_at_lookup. by rewrite lookup_app_r, Nat.sub_diag by lia.
Qed.

Lemma outer_at_alloc h a b :
  outer_at (h ++ [OParams a b]) (length h) = Some (a, b).
Proof.
  apply outer_at_lookup. by rewrite lookup_app_r, Nat.sub_diag by lia.
Qed.

Lemma node_at_alloc h n : node_at (h ++ [ONode n]) (length h) = Some n.
Proof.
  apply node_at_lookup. by rewrite lookup_app_r, Nat.sub_diag by lia.
Qed.

Lemma lookup_alloc h o x :
  (h ++ [o]) !! x = if decide (x = length h) then Some o else h !! x.
Proof.
  case_decide as Hx.
  - subst. by rewrite lookup_app_r, Nat.sub_diag by lia.
  - destruct (decide (x < length h)).
    + by rewrite lookup_app_l.
    + rewrite !lookup_ge_None_2; [done|lia|]. rewrite length_app. simpl. lia.
Qed.

Lemma node_at_alloc_eq h o x :
  node_at (h ++ [o]) x
  = if decide (x = length h)
    then match o with ONode n => Some n | _ => None end
    else node_at h x.
Proof. unfold node_at. rewrite lookup_alloc. by case_decide. Qed.

Lemma outer_at_alloc_eq h o x :
  outer_at (h ++ [o]) x
  = if decide (x = length h)
    then match o with OParams a b => Some (a, b) | _ => None end
    else outer_at h x.
Proof. unfold outer_at. rewrite lookup_alloc. by case_decide. Qed.

Lemma dict_at_alloc_eq h o x :
  dict_at (h ++ [o]) x
  = if decide (x = length h)
    then match o with ODict d => Some d | _ => None end
    else dict_at h x.
Proof. unfold dict_at. rewrite lookup_alloc. by case_decide. Qed.

(** *** Update in place *)

Lemma lookup_store h l o x :
  l < length h ->
  <[l := o]> h !! x = if decide (x = l) then Some o else h !! x.
Proof.
  intros Hl. case_decide as Hx.
  - subst. by apply list_lookup_insert_eq.
  - by apply list_lookup_insert_ne.
Qed.

Lemma node_at_store_dict h l d d' x :
  dict_at h l = Some d -> node_at (<[l := ODict d']> h) x = node_at h x.
Proof.
  intros Hd. unfold node_at. rewrite lookup_store by by eapply dict_at_lt.
  case_decide; [subst|done]. apply dict_at_lookup in Hd. by rewrite Hd.
Qed.

Lemma outer_at_store_dict h l d d' x :
  dict_at h l = Some d -> outer_at (<[l := ODict d']> h) x = outer_at h x.
Proof.
  intros Hd. unfold outer_at. rewrite lookup_store by by eapply dict_at_lt.
  case_decide; [subst|done]. apply dict_at_lookup in Hd. by rewrite Hd.
Qed.

Lemma dict_at_store_dict h l d d' x :
  dict_at h l = Some d ->
  dict_at (<[l := ODict d']> h) x
  = if decide (x = l) then Some d' else dict_at h x.
Proof.
  intros Hd. unfold dict_at. rewrite lookup_store by by eapply dict_at_lt.
  by case_decide.
Qed.

Lemma group_loc_store_dict h l d d' node ty :
  dict_at h l = Some d ->
  group_loc (<[l := ODict d']> h) node ty = group_loc h node ty.
Proof.
  intros Hd. unfold group_loc.
  rewrite (node_at_store_dict _ _ _ _ _ Hd).
  destruct (node_at h node); [|done].
  by rewrite (outer_at_store_dict _ _ _ _ _ Hd).
Qed.

Lemma read_group_store_dict h l d d' node ty :
  dict_at h l = Some d ->
  read_group (<[l := ODict d']> h) node ty
  = if decide (group_loc h node ty = Some l) then Some d'
    else read_group h node ty.
Proof.
  intros Hd. unfold read_group.
  rewrite (group_loc_store_dict _ _ _ _ _ _ Hd).
  destruct (group_loc h node ty) as [x|] eqn:Hx.
  - rewrite (dict_at_store_dict _ _ _ _ _ Hd).
    repeat case_decide; congruence.
  - by case_decide.
Qed.

Lemma node_at_store_outer h l gp a b x :
  outer_at h l = Some gp -> node_at (<[l := OParams a b]> h) x = node_at h x.
Proof.
  intros Hd. unfold node_at. rewrite lookup_store by by eapply outer_at_lt.
  case_decide; [subst|done]. destruct gp.
  apply outer_at_lookup in Hd. by rewrite Hd.
Qed.

Lemma dict_at_store_outer h l gp a b x :
  outer_at h l = Some gp -> dict_at (<[l := OParams a b]> h) x = dict_at h x.
Proof.
  intros Hd. unfold dict_at. rewrite lookup_store by by eapply outer_at_lt.
  case_decide; [subst|done]. destruct gp.
  apply outer_at_lookup in Hd. by rewrite Hd.
Qed.

Lemma outer_at_store_outer h l gp a b x :
  outer_at h l = Some gp ->
  outer_at (<[l := OParams a b]> h) x
  = if decide (x = l) then Some (a, b) else outer_at h x.
Proof.
  intros Hd. unfold outer_at. rewrite lookup_store by by eapply outer_at_lt.
  by case_decide.
Qed.

Lemma outer_at_store_node h l n n' x :
  node_at h l = Some n -> outer_at (<[l := ONode n']> h) x = outer_at h x.
Proof.
  intros Hd. unfold outer_at. rewrite lookup_store by by eapply node_at_lt.
  case_decide; [subst|done]. apply node_at_lookup in Hd. by rewrite Hd.
Qed.

Lemma dict_at_store_node h l n n' x :
  node_at h l = Some n -> dict_at (<[l := ONode n']> h) x = dict_at h x.
Proof.
  intros Hd. unfold dict_at. rewrite lookup_store by by eapply node_at_lt.
  case_decide; [subst|done]. apply node_at_lookup in Hd. by rewrite Hd.
Qed.

Lemma node_at_store_node h l n n' x :
  node_at h l = Some n ->
  node_at (<[l := ONode n']> h) x
  = if decide (x = l) then Some n' else node_at h x.
Proof.
  intros Hd. unfold node_at. rewrite lookup_store by by eapply node_at_lt.
  by case_decide.
Qed.

(** *** Running the accesses *)

Lemma alloc_run o h g : alloc o (h, g) = Ok (length h, (h ++ [o], g)).
Proof. reflexivity. Qed.

Lemma store_run l o h g :
  l < length h -> store l o (h, g) = Ok (tt, (<[l := o]> h, g)).
Proof.
  intros Hl. unfold store. destruct (Nat.ltb_spec l (length h)); [done|lia].
Qed.

Lemma get_node_run h g l n :
  node_at h l = Some n -> get_node l (h, g) = Ok (n, (h, g)).
Proof.
  rewrite node_at_lookup. intros H. unfold get_node, load, bind. by rewrite H.
Qed.

Lemma get_outer_run h g l gp :
  outer_at h l = Some gp -> get_outer l (h, g) = Ok (gp, (h, g)).
Proof.
  destruct gp. rewrite outer_at_lookup. intros H.
  unfold get_outer, load, bind. by rewrite H.
Qed.

Lemma get_dict_run h g l d :
  dict_at h l = Some d -> get_dict l (h, g) = Ok (d, (h, g)).
Proof.
  rewrite dict_at_lookup. intros H. unfold get_dict, load, bind. by rewrite H.
Qed.

Lemma params_item_run h g node ty l :
  group_loc h node ty = Some l -> params_item node ty (h, g) = Ok (l, (h, g)).
Proof.
  unfold group_loc, params_item.
  destruct (node_at h node) as [n|] eqn:Hn; [|done].
  destruct (outer_at h (params n)) as [gp|] eqn:Hgp; [|done].
  intros [= <-].
  rewrite (bind_Ok _ _ _ _ _ (get_node_run _ g _ _ Hn)).
  by rewrite (bind_Ok _ _ _ _ _ (get_outer_run _ g _ _ Hgp)).
Qed.

Lemma len_params_run h g node ty d :
  read_group h node ty = Some d ->
  len_params node ty (h, g) = Ok (length d, (h, g)).
Proof.
  unfold read_group, len_params.
  destruct (group_loc h node ty) as [l|] eqn:Hl; [|done]. intros Hd.
  rewrite (bind_Ok _ _ _ _ _ (params_item_run _ g _ _ _ Hl)).
  by rewrite (bind_Ok _ _ _ _ _ (get_dict_run _ g _ _ Hd)).
Qed.

Lemma node_url_run h g l n :
  node_at h l = Some n -> node_url l (h, g) = Ok (url n, (h, g)).
Proof.
  intros Hn. unfold node_url.
  by rewrite (bind_Ok _ _ _ _ _ (get_node_run _ g _ _ Hn)).
Qed.

Lemma read_group_node h node ty d :
  read_group h node ty = Some d -> exists n, node_at h node = Some n.
Proof.
  unfold read_group, group_loc. destruct (node_at h node); [eauto|done].
Qed.

Lemma wf_node_read_group h node ty :
  wf_node h node ->
  exists l d, group_loc h node ty = Some l /\ dict_at h l = Some d /\
    read_group h node ty = Some d /\ Dict.wf d.
Proof.
  intros (n & a & b & dg & dp & Hn & Hgp & Hdg & Hdp & Hwg & Hwp & _).
  unfold read_group, group_loc. rewrite Hn, Hgp.
  destruct ty; simpl; eauto 10.
Qed.

End views.

(** ** Donor selection *)

Section select.

Variables (h : heap) (g : rng) (ty : HTTPMethod) (start : loc).

Hypothesis start_readable : readable h ty start.

#[local] Abbreviation scan := (select_scan start ty (nparams h ty start)).

Lemma readable_len_params node :
  readable h ty node ->
  len_params node ty (h, g) = Ok (nparams h ty node, (h, g)).
Proof.
  intros [d Hd]. unfold nparams. rewrite Hd. by apply len_params_run.
Qed.

Lemma readable_node_url node :
  readable h ty node -> node_url node (h, g) = Ok (url_of h node, (h, g)).
Proof.
  intros [d Hd]. destruct (read_group_node _ _ _ _ Hd) as [n Hn].
  unfold url_of. rewrite Hn. by apply node_url_run.
Qed.

Lemma fires_dec donor cand :
  (nparams h ty donor <? nparams h ty cand)
  && negb (bool_decide (url_of h cand = url_of h start)) = true
  <-> fires h ty start donor cand.
Proof.
  unfold fires. rewrite andb_true_iff, Nat.ltb_lt, negb_true_iff.
  rewrite bool_decide_eq_false. tauto.
Qed.

(** One iteration of the loop. *)
Lemma select_scan_step donor cand rest :
  readable h ty donor -> readable h ty cand ->
  scan donor (cand :: rest) (h, g)
  = if (nparams h ty donor <? nparams h ty cand)
       && negb (bool_decide (url_of h cand = url_of h start))
    then Ok (cand, (h, g))
    else scan (if weak h ty start cand then cand else donor) rest (h, g).
Proof.
  intros Hd Hc. cbn [select_scan].
  rewrite (bind_Ok _ _ _ _ _ (readable_len_params _ Hc)).
  rewrite (bind_Ok _ _ _ _ _ (readable_len_params _ Hd)).
  destruct (nparams h ty donor <? nparams h ty cand); cbn [andb]; cbv iota.
  - erewrite bind_Ok; cycle 1.
    { rewrite (bind_Ok _ _ _ _ _ (readable_node_url _ Hc)).
      rewrite (bind_Ok _ _ _ _ _ (readable_node_url _ start_readable)).
      reflexivity. }
    destruct (negb _); [done|]. unfold weak. by destruct (_ <=? _).
  - erewrite bind_Ok by reflexivity.
    unfold weak. by destruct (_ <=? _).
Qed.

Lemma running_donor_cons donor cand pre :
  running_donor h ty start donor (cand :: pre)
  = running_donor h ty start
      (if weak h ty start cand then cand else donor) pre.
Proof.
  unfold running_donor. cbn [List.filter].
  destruct (weak h ty start cand); [|done].
  rewrite last_cons. by destruct (last _).
Qed.

Lemma never_fires_cons donor cand l :
  never_fires h ty start donor (cand :: l) ->
  ~ fires h ty start donor cand /\
  never_fires h ty start (if weak h ty start cand then cand else donor) l.
Proof.
  intros H. split.
  - apply (H [] cand l eq_refl).
  - intros pre c post ->. rewrite <- running_donor_cons.
    by apply (H (cand :: pre) c post).
Qed.

Lemma select_scan_never_fires l donor :
  readable h ty donor -> Forall (readable h ty) l ->
  never_fires h ty start donor l ->
  scan donor l (h, g) = Ok (running_donor h ty start donor l, (h, g)).
Proof.
  intros Hd Hl. revert donor Hd.
  induction Hl as [|cand l Hc Hl IH]; intros donor Hd Hnf; [done|].
  apply never_fires_cons in Hnf as [Hnot Hnf].
  rewrite select_scan_step by done.
  destruct (_ && _) eqn:E; [by apply fires_dec in E|].
  rewrite running_donor_cons. apply IH; [|done].
  by destruct (weak h ty start cand).
Qed.

Lemma select_scan_fires pre cand post donor :
  readable h ty donor -> Forall (readable h ty) (pre ++ cand :: post) ->
  never_fires h ty start donor pre ->
  fires h ty start (running_donor h ty start donor pre) cand ->
  scan donor (pre ++ cand :: post) (h, g) = Ok (cand, (h, g)).
Proof.
  revert donor. induction pre as [|c pre IH]; intros donor Hd Hl Hnf Hf.
  - cbn [app] in *. apply Forall_cons in Hl as [Hc _].
    rewrite select_scan_step by done.
    change (running_donor h ty start donor []) with donor in Hf.
    apply fires_dec in Hf. by rewrite Hf.
  - cbn [app] in *. apply Forall_cons in Hl as [Hc Hl].
    apply never_fires_cons in Hnf as [Hnot Hnf].
    rewrite select_scan_step by done.
    destruct (_ && _) eqn:E; [by apply fires_dec in E|].
    rewrite running_donor_cons in Hf. apply IH; [|done..].
    by destruct (weak h ty start c).
Qed.

Lemma select_scan_total l donor :
  readable h ty donor -> Forall (readable h ty) l ->
  exists x, (x = donor \/ x ∈ l) /\ readable h ty x /\
    scan donor l (h, g) = Ok (x, (h, g)).
Proof.
  intros Hd Hl. revert donor Hd.
  induction Hl as [|cand l Hc Hl IH]; intros donor Hd.
  - exists donor. by repeat split; [left|..].
  - rewrite select_scan_step by done. destruct (_ && _).
    + exists cand. repeat split; [right; left|done..].
    + destruct (IH (if weak h ty start cand then cand else donor))
        as (x & Hx & Hr & Hrun); [by destruct (weak h ty start cand)|].
      exists x. repeat split; [|done..].
      destruct Hx as [->|Hx]; [|by right; right].
      destruct (weak h ty start cand); [right; left|by left].
Qed.

Lemma select_favourable_node_run node_list :
  Forall (readable h ty) node_list ->
  exists r,
    select_favourable_node node_list start ty (h, g) = Ok (r, (h, g)) /\
    (node_list = [] -> r = None) /\
    (forall c, r = Some c -> c ∈ node_list /\ readable h ty c).
Proof.
  intros Hl. destruct node_list as [|first rest].
  - exists None. by repeat split.
  - assert (readable h ty first) as Hf by by apply Forall_cons in Hl as [? _].
    destruct (select_scan_total _ first Hf Hl) as (x & Hx & Hr & Hrun).
    exists (Some x). unfold select_favourable_node.
    rewrite (bind_Ok _ _ _ _ _ (readable_len_params start start_readable)).
    rewrite (bind_Ok _ _ _ _ _ Hrun).
    split; [done|]. split; [done|]. intros c [= <-]. split; [|done].
    destruct Hx as [->|Hx]; [left|done].
Qed.

End select.

(** C1: [select_favourable_node] returns [None] for an empty corpus.
    Otherwise the donor starts as the first element and the corpus is
    scanned in order: the first candidate with more parameters in the
    group than the current donor and with another url than the target
    is returned at once; until then every candidate with at least
    [ceil(selfCount / 2)] parameters replaces the donor, so that, when
    the stronger condition never fires, the result is the last candidate
    that satisfies the weaker one, or the first element when none does.
    The heap and the generator are left as they were. *)
Theorem select_favourable_node_spec (h : heap) (g : rng)
    (node_list : list loc) (start : loc) (ty : HTTPMethod) :
  select_favourable_node [] start ty (h, g) = Ok (None, (h, g)) /\
  (readable h ty start -> Forall (readable h ty) node_list ->
   forall first rest, node_list = first :: rest ->
     (forall pre cand post,
         node_list = pre ++ cand :: post ->
         never_fires h ty start first pre ->
         fires h ty start (running_donor h ty start first pre) cand ->
         select_favourable_node node_list start ty (h, g)
         = Ok (Some cand, (h, g))) /\
     (never_fires h ty start first node_list ->
      select_favourable_node node_list start ty (h, g)
      = Ok (Some (default first (last (List.filter (weak h ty start) node_list))),
            (h, g)))).
Proof.
  split; [done|]. intros Hs Hl first rest Heq.
  assert (readable h ty first) as Hf.
  { subst. by apply Forall_cons in Hl as [? _]. }
  assert (forall donor,
    select_scan start ty (nparams h ty start) first node_list (h, g)
    = Ok (donor, (h, g)) ->
    select_favourable_node node_list start ty (h, g)
    = Ok (Some donor, (h, g))) as Hwrap.
  { intros donor Hrun. rewrite Heq. unfold select_favourable_node.
    rewrite (bind_Ok _ _ _ _ _ (readable_len_params h g ty start Hs)).
    rewrite <- Heq. by rewrite (bind_Ok _ _ _ _ _ Hrun). }
  split.
  - intros pre cand post Hsplit Hnf Hfire. apply Hwrap. rewrite Hsplit.
    apply select_scan_fires; try done. by rewrite <- Hsplit.
  - intros Hnf. apply Hwrap. by apply select_scan_never_fires.
Qed.

Lemma select_favourable_node_spec_witness :
  readable sample_heap GET 11 /\
  Forall (readable sample_heap GET) [3; 7] /\
  select_favourable_node [3; 7] 11 GET (sample_heap, constant_rng 0)
  = Ok (Some 7, (sample_heap, constant_rng 0)).
Proof.
  assert (readable sample_heap GET 11) as Hs by (eexists; reflexivity).
  assert (Forall (readable sample_heap GET) [3; 7]) as Hl
    by (repeat constructor; eexists; reflexivity).
  split; [exact Hs|]. split; [exact Hl|].
  refine (proj1 (proj2 (select_favourable_node_spec
            sample_heap (constant_rng 0) [3; 7] 11 GET) Hs Hl 3 [7] eq_refl)
          [3] 7 [] eq_refl _ _).
  - intros pre cand post Heq [Hlt _].
    destruct pre as [|x [|y pre]]; [|discriminate Heq..].
    injection Heq as <- _. vm_compute in Hlt. lia.
  - split; [vm_compute; lia|]. vm_compute. discriminate.
Defined.

(** ** Frames *)

Lemma modifies_refl X h : modifies X h h.
Proof. by split. Qed.

Lemma modifies_trans X h1 h2 h3 :
  modifies X h1 h2 -> modifies X h2 h3 -> modifies X h1 h3.
Proof.
  intros [Hl1 H1] [Hl2 H2]. split; [lia|].
  intros x Hx Hn. rewrite H2, H1; [done..|lia|done].
Qed.

Lemma modifies_weaken X Y h h' :
  (forall x, x ∈ X -> x ∈ Y) -> modifies X h h' -> modifies Y h h'.
Proof. intros HXY [Hl H]. split; [done|]. intros x Hx Hn. apply H; auto. Qed.

Lemma modifies_alloc X h k : modifies X h (h ++ k).
Proof.
  split; [rewrite length_app; lia|]. intros x Hx _. by apply lookup_app_l.
Qed.

Lemma modifies_store X h l o :
  (l < length h -> l ∈ X) -> modifies X h (<[l := o]> h).
Proof.
  intros Hl. split; [by rewrite length_insert|].
  intros x Hx Hn. apply list_lookup_insert_ne. intros ->. auto.
Qed.

(** A store at a reference allocated after [h0] keeps [h0]. *)
Lemma modifies_store_fresh X h0 h l o :
  modifies X h0 h -> length h0 <= l -> modifies X h0 (<[l := o]> h).
Proof.
  intros [Hl H] Hfresh. split; [by rewrite length_insert|].
  intros x Hx Hn. rewrite list_lookup_insert_ne by lia. by apply H.
Qed.

Lemma modifies_nil_lookup h h' l o :
  modifies [] h h' -> h !! l = Some o -> h' !! l = Some o.
Proof.
  intros [_ H] Hl. rewrite H; [done| |apply not_elem_of_nil].
  by eapply lookup_lt_Some.
Qed.

Lemma modifies_nil_read_group h h' node ty d :
  modifies [] h h' -> read_group h node ty = Some d ->
  read_group h' node ty = Some d.
Proof.
  intros Hm. unfold read_group, group_loc, node_at, outer_at, dict_at.
  destruct (h !! node) as [[| |n]|] eqn:Hn; try done.
  rewrite (modifies_nil_lookup _ _ _ _ Hm Hn).
  destruct (h !! params n) as [[|a b|]|] eqn:Hp; try done.
  rewrite (modifies_nil_lookup _ _ _ _ Hm Hp).
  destruct (h !! group ty (a, b)) as [[dd| |]|] eqn:Hd; try done.
  by rewrite (modifies_nil_lookup _ _ _ _ Hm Hd).
Qed.

(** ** [cross_over] *)

Lemma readable_read_group h ty node :
  readable h ty node ->
  exists n a b l d,
    node_at h node = Some n /\ outer_at h (params n) = Some (a, b) /\
    l = group ty (a, b) /\ group_loc h node ty = Some l /\
    dict_at h l = Some d /\ read_group h node ty = Some d.
Proof.
  intros [d Hd]. revert Hd. unfold read_group, group_loc.
  destruct (node_at h node) as [n|] eqn:Hn; [|done].
  destruct (outer_at h (params n)) as [[a b]|] eqn:Hgp; [|done].
  intros Hd. exists n, a, b, (group ty (a, b)), d. by repeat split.
Qed.

Lemma deepcopy_dict_run h g l d :
  dict_at h l = Some d ->
  deepcopy_dict l (h, g) = Ok (length h, (h ++ [ODict d], g)).
Proof.
  intros Hd. unfold deepcopy_dict.
  by rewrite (bind_Ok _ _ _ _ _ (get_dict_run _ g _ _ Hd)).
Qed.

(** The copy of a node's [params]: new objects behind [h], holding the
    entries of the two groups. *)
Lemma deepcopy_params_run h g p a b da db :
  outer_at h p = Some (a, b) ->
  dict_at h a = Some da -> dict_at h b = Some db ->
  exists k p' a' b',
    deepcopy_params p (h, g) = Ok (p', (h ++ k, g)) /\
    outer_at (h ++ k) p' = Some (a', b') /\
    dict_at (h ++ k) a' = Some da /\ dict_at (h ++ k) b' = Some db /\
    length h <= p' /\ length h <= a' /\ length h <= b' /\
    (a <> b -> a' <> b').
Proof.
  intros Hp Ha Hb. unfold deepcopy_params.
  rewrite (bind_Ok _ _ _ _ _ (get_outer_run _ g _ _ Hp)). cbn [fst snd].
  rewrite (bind_Ok _ _ _ _ _ (deepcopy_dict_run _ g _ _ Ha)).
  destruct (decide (b = a)) as [->|Hne].
  - rewrite (bind_Ok _ _ _ _ _ eq_refl), alloc_run.
    exists [ODict da; OParams (length h) (length h)],
      (length (h ++ [ODict da])), (length h), (length h).
    replace (h ++ [ODict da; OParams (length h) (length h)])
      with ((h ++ [ODict da]) ++ [OParams (length h) (length h)])
      by (by rewrite <- app_assoc).
    rewrite outer_at_alloc_eq, !dict_at_alloc_eq, !length_app. cbn [length].
    assert (db = da) as -> by congruence.
    repeat case_decide; try lia.
    repeat split; try done; lia.
  - rewrite (bind_Ok _ _ _ _ _
               (deepcopy_dict_run _ g _ _ (dict_at_app _ [ODict da] _ _ Hb))).
    rewrite alloc_run.
    exists [ODict da; ODict db; OParams (length h) (length (h ++ [ODict da]))],
      (length ((h ++ [ODict da]) ++ [ODict db])), (length h),
      (length (h ++ [ODict da])).
    replace (h ++ [ODict da; ODict db;
                   OParams (length h) (length (h ++ [ODict da]))])
      with (((h ++ [ODict da]) ++ [ODict db])
              ++ [OParams (length h) (length (h ++ [ODict da]))])
      by (by rewrite <- !app_assoc).
    rewrite outer_at_alloc_eq, !dict_at_alloc_eq, !length_app. cbn [length].
    repeat case_decide; try lia.
    repeat split; try done; lia.
Qed.

Lemma set_params_run h g t tn p :
  node_at h t = Some tn ->
  set_params t p (h, g) = Ok (tt, (<[t := ONode (with_params tn p)]> h, g)).
Proof.
  intros Hn. unfold set_params.
  rewrite (bind_Ok _ _ _ _ _ (get_node_run _ g _ _ Hn)).
  apply store_run. by eapply node_at_lt.
Qed.

Lemma readable_store_dict h l d d' ty node :
  dict_at h l = Some d -> readable h ty node ->
  readable (<[l := ODict d']> h) ty node.
Proof.
  intros Hd [x Hx]. unfold readable.
  rewrite (read_group_store_dict _ _ _ _ _ _ Hd). case_decide; eauto.
Qed.

Lemma merge_nodes_run h g t c ty lt d :
  group_loc h t ty = Some lt -> dict_at h lt = Some d -> readable h ty c ->
  exists other, read_group h c ty = Some other /\
    merge_nodes t c ty (h, g)
    = Ok (tt, (<[lt := ODict (Dict.update d other)]> h, g)).
Proof.
  intros Hlt Hd Hc.
  destruct (readable_read_group _ _ _ Hc)
    as (n & a & b & l & other & Hn & Hgp & -> & Hl & Hdo & Hr).
  exists other. split; [done|]. unfold merge_nodes.
  rewrite (bind_Ok _ _ _ _ _ (params_item_run _ g _ _ _ Hlt)).
  rewrite (bind_Ok _ _ _ _ _ (params_item_run _ g _ _ _ Hl)).
  rewrite (bind_Ok _ _ _ _ _ (get_dict_run _ g _ _ Hd)).
  rewrite (bind_Ok _ _ _ _ _ (get_dict_run _ g _ _ Hdo)).
  apply store_run. by eapply dict_at_lt.
Qed.

(** One round of the loop: the dict of the group of the target is the
    only object that may change, and it does not for an empty corpus nor
    for the POST group of a GET target. *)
Lemma cross_over_group_run h g corpus t tn ty lt d :
  node_at h t = Some tn -> group_loc h t ty = Some lt ->
  dict_at h lt = Some d -> Forall (readable h ty) corpus ->
  exists d',
    cross_over_group corpus t ty (h, g)
    = Ok (tt, (<[lt := ODict d']> h, g)) /\
    (corpus = [] -> d' = d) /\
    (method tn = GET -> ty = POST -> d' = d).
Proof.
  intros Hn Hlt Hd Hl. unfold cross_over_group.
  rewrite (bind_Ok _ _ _ _ _ (get_node_run _ g _ _ Hn)).
  assert (<[lt := ODict d]> h = h) as Hid.
  { apply list_insert_id. by apply dict_at_lookup. }
  destruct (HTTPMethod_eqb (method tn) GET && HTTPMethod_eqb ty POST) eqn:E.
  - exists d. by rewrite Hid.
  - assert (readable h ty t) as Hs.
    { exists d. unfold read_group. by rewrite Hlt. }
    destruct (select_favourable_node_run h g ty t Hs corpus Hl)
      as (r & Hrun & Hnil & Hsome).
    rewrite (bind_Ok _ _ _ _ _ Hrun).
    destruct r as [c|].
    + destruct (Hsome c eq_refl) as [Hin Hc].
      destruct (merge_nodes_run _ g t c ty lt d Hlt Hd Hc)
        as (other & Hr & Hm).
      exists (Dict.update d other). split; [done|]. split.
      * intros ->. by apply elem_of_nil in Hin.
      * intros Hg ->. by rewrite Hg in E.
    + exists d. by rewrite Hid.
Qed.

(** After the baseline copy is installed in the target, every node that
    could be read can still be read. *)
Lemma readable_baseline h k t tn p' a' b' dA dB ty c :
  node_at (h ++ k) t = Some tn ->
  outer_at (h ++ k) p' = Some (a', b') ->
  dict_at (h ++ k) a' = Some dA -> dict_at (h ++ k) b' = Some dB ->
  readable h ty c ->
  readable (<[t := ONode (with_params tn p')]> (h ++ k)) ty c.
Proof.
  intros Ht Hp Ha Hb Hc. unfold readable, read_group, group_loc.
  rewrite (node_at_store_node _ _ _ _ _ Ht).
  case_decide as Hct.
  - cbn [params with_params].
    rewrite (outer_at_store_node _ _ _ _ _ Ht), Hp.
    rewrite (dict_at_store_node _ _ _ _ _ Ht). destruct ty; eauto.
  - destruct (readable_read_group _ _ _ Hc)
      as (n & a & b & l & d & Hn & Hgp & -> & Hl & Hd & Hr).
    rewrite (node_at_app _ k _ _ Hn).
    rewrite (outer_at_store_node _ _ _ _ _ Ht), (outer_at_app _ k _ _ Hgp).
    rewrite (dict_at_store_node _ _ _ _ _ Ht), (dict_at_app _ k _ _ Hd).
    eauto.
Qed.

(** [cross_over] on readable nodes: it returns; of the objects of [h]
    only the target node changes, its [params] now being new objects. *)
Lemma cross_over_run h g s corpus t tn :
  readable2 h s -> node_at h t = Some tn -> Forall (readable2 h) corpus ->
  exists H p' a' b' fA fB,
    cross_over s corpus t (h, g) = Ok (tt, (H, g)) /\
    modifies [t] h H /\
    node_at H t = Some (with_params tn p') /\
    outer_at H p' = Some (a', b') /\
    dict_at H a' = Some fA /\ dict_at H b' = Some fB /\
    length h <= p' /\ length h <= a' /\ length h <= b' /\
    (corpus = [] ->
     read_group h s GET = Some fA /\ read_group h s POST = Some fB) /\
    (method tn = GET -> group_loc h s GET <> group_loc h s POST ->
     read_group h s POST = Some fB).
Proof.
  intros [HsG HsP] Ht Hcorpus.
  destruct (readable_read_group _ _ _ HsG)
    as (n & a & b & ? & dA & Hn & Hgp & -> & HlG & HdA & HrG).
  destruct (readable_read_group _ _ _ HsP)
    as (n' & a0 & b0 & ? & dB & Hn' & Hgp' & -> & HlP & HdB & HrP).
  assert (n' = n) as -> by congruence.
  assert (a0 = a /\ b0 = b) as [-> ->] by (split; congruence).
  cbn [group fst snd] in *.
  destruct (deepcopy_params_run h g (params n) a b dA dB Hgp HdA HdB)
    as (k & p' & a' & b' & Hcopy & Hp' & Ha' & Hb' & Hfp & Hfa & Hfb & Hne).
  pose proof (node_at_app _ k _ _ Ht) as Ht0.
  set (H1 := <[t := ONode (with_params tn p')]> (h ++ k)).
  assert (node_at H1 t = Some (with_params tn p')) as Ht1.
  { unfold H1. rewrite (node_at_store_node _ _ _ _ _ Ht0). by case_decide. }
  assert (outer_at H1 p' = Some (a', b')) as Hp1.
  { unfold H1. by rewrite (outer_at_store_node _ _ _ _ _ Ht0). }
  assert (forall x, dict_at H1 x = dict_at (h ++ k) x) as Hd1.
  { intros x. unfold H1. by rewrite (dict_at_store_node _ _ _ _ _ Ht0). }
  assert (forall ty, group_loc H1 t ty = Some (group ty (a', b'))) as Hg1.
  { intros ty. unfold group_loc. rewrite Ht1. cbn [params with_params].
    by rewrite Hp1. }
  assert (forall ty, Forall (readable H1 ty) corpus) as Hc1.
  { intros ty. eapply Forall_impl; [exact Hcorpus|]. intros c [HcG HcP].
    eapply readable_baseline; try done. by destruct ty. }
  (* the GET group *)
  destruct (cross_over_group_run H1 g corpus t _ GET a' dA Ht1 (Hg1 GET)
              ltac:(by rewrite Hd1) (Hc1 GET)) as (d1 & Hrun1 & Hnil1 & _).
  set (H2 := <[a' := ODict d1]> H1) in *.
  assert (dict_at H1 a' = Some dA) as Ha1 by by rewrite Hd1.
  assert (node_at H2 t = Some (with_params tn p')) as Ht2.
  { unfold H2. by rewrite (node_at_store_dict _ _ _ _ _ Ha1). }
  assert (group_loc H2 t POST = Some b') as Hg2.
  { unfold H2. rewrite (group_loc_store_dict _ _ _ _ _ _ Ha1). apply Hg1. }
  assert (dict_at H2 b' = Some (if decide (b' = a') then d1 else dB)) as Hb2.
  { unfold H2. rewrite (dict_at_store_dict _ _ _ _ _ Ha1).
    case_decide; [done|]. by rewrite Hd1. }
  (* the POST group *)
  destruct (cross_over_group_run H2 g corpus t _ POST b' _ Ht2 Hg2 Hb2
    ltac:(eapply Forall_impl; [exact (Hc1 POST)|];
          intros c Hc; by eapply readable_store_dict))
    as (d2 & Hrun2 & Hnil2 & Hget2).
  set (H3 := <[b' := ODict d2]> H2) in *.
  exists H3, p', a', b', (if decide (a' = b') then d2 else d1), d2.
  split.
  { unfold cross_over.
    rewrite (bind_Ok _ _ _ _ _ (get_node_run _ g _ _ Hn)).
    rewrite (bind_Ok _ _ _ _ _ Hcopy).
    rewrite (bind_Ok _ _ _ _ _ (set_params_run _ g _ _ p' Ht0)).
    fold H1. cbn [for_].
    rewrite (bind_Ok _ _ _ _ _ Hrun1).
    by rewrite (bind_Ok _ _ _ _ _ Hrun2). }
  split.
  { unfold H3, H2, H1.
    do 2 (apply modifies_store_fresh; [|done]).
    eapply modifies_trans; [apply (modifies_alloc _ h k)|].
    apply modifies_store. intros _. left. }
  split. { unfold H3. by rewrite (node_at_store_dict _ _ _ _ _ Hb2). }
  split. { unfold H3. rewrite (outer_at_store_dict _ _ _ _ _ Hb2).
           unfold H2. by rewrite (outer_at_store_dict _ _ _ _ _ Ha1). }
  split. { unfold H3. rewrite (dict_at_store_dict _ _ _ _ _ Hb2).
           unfold H2. rewrite (dict_at_store_dict _ _ _ _ _ Ha1).
           repeat case_decide; congruence. }
  split. { unfold H3. rewrite (dict_at_store_dict _ _ _ _ _ Hb2).
           by rewrite decide_True. }
  do 3 (split; [done|]). split.
  - intros Hnil. rewrite (Hnil2 Hnil), (Hnil1 Hnil).
    rewrite HrG, HrP. repeat case_decide; subst; try done;
      split; congruence.
  - intros Hm Hdiff. rewrite HrP. rewrite (Hget2 Hm eq_refl).
    rewrite decide_False; [done|].
    intros Heq. apply Hne; [|done]. intros ->. apply Hdiff. congruence.
Qed.

Lemma read_group_of_parts h node n p a b ty d :
  node_at h node = Some n -> params n = p -> outer_at h p = Some (a, b) ->
  dict_at h (group ty (a, b)) = Some d ->
  read_group h node ty = Some d /\ group_loc h node ty = Some (group ty (a, b)).
Proof.
  intros Hn <- Hp Hd. unfold read_group, group_loc. by rewrite Hn, Hp.
Qed.

(** C8: with an empty corpus [cross_over] returns and leaves, for each
    group, the parameters of the target equal to those of the source;
    they are held by objects allocated by the call (the baseline copy),
    and no other object of the heap than the target node has changed. *)
Theorem cross_over_empty_corpus (h : heap) (g : rng) (s t : loc) :
  readable2 h s -> is_Some (node_at h t) ->
  exists h',
    cross_over s [] t (h, g) = Ok (tt, (h', g)) /\
    (forall ty, read_group h' t ty = read_group h s ty) /\
    (forall ty l, group_loc h' t ty = Some l -> length h <= l) /\
    modifies [t] h h'.
Proof.
  intros Hs [tn Ht].
  destruct (cross_over_run h g s [] t tn Hs Ht (Forall_nil_2 _))
    as (h' & p' & a' & b' & fA & fB & Hrun & Hmod & Hn & Hp & Ha & Hb
        & _ & Hfa & Hfb & Hnil & _).
  destruct (Hnil eq_refl) as [HG HP].
  exists h'. split; [done|]. split; [|split; [|done]].
  - intros [].
    + rewrite HG. by eapply (read_group_of_parts _ _ _ _ _ _ GET).
    + rewrite HP. by eapply (read_group_of_parts _ _ _ _ _ _ POST).
  - intros ty l Hl.
    assert (group_loc h' t ty = Some (group ty (a', b'))) as Hl'.
    { destruct ty.
      - by eapply (read_group_of_parts _ _ _ _ _ _ GET).
      - by eapply (read_group_of_parts _ _ _ _ _ _ POST). }
    rewrite Hl' in Hl. injection Hl as <-. by destruct ty.
Qed.

Lemma cross_over_empty_corpus_witness :
  readable2 post_heap 3 /\ is_Some (node_at post_heap 7) /\
  exists h',
    cross_over 3 [] 7 (post_heap, constant_rng 0)
    = Ok (tt, (h', constant_rng 0)) /\
    (forall ty, read_group h' 7 ty = read_group post_heap 3 ty).
Proof.
  assert (readable2 post_heap 3) as Hs by (split; eexists; reflexivity).
  assert (is_Some (node_at post_heap 7)) as Ht by (eexists; reflexivity).
  split; [exact Hs|]. split; [exact Ht|].
  destruct (cross_over_empty_corpus post_heap (constant_rng 0) 3 7 Hs Ht)
    as (h' & Hrun & Hread & _).
  exists h'. by split.
Defined.

(** The guard of the loop: for a target whose method is GET no donor is
    merged into the POST group, which stays the baseline copy of the
    POST group of the source. *)
Lemma cross_over_get_post_baseline (h : heap) (g : rng)
    (s : loc) (corpus : list loc) (t : loc) (tn : Node) :
  readable2 h s ->
  group_loc h s GET <> group_loc h s POST ->
  node_at h t = Some tn -> method tn = GET ->
  Forall (readable2 h) corpus ->
  exists h',
    cross_over s corpus t (h, g) = Ok (tt, (h', g)) /\
    read_group h' t POST = read_group h s POST.
Proof.
  intros Hs Hdiff Ht Hm Hcorpus.
  destruct (cross_over_run h g s corpus t tn Hs Ht Hcorpus)
    as (h' & p' & a' & b' & fA & fB & Hrun & Hmod & Hn & Hp & Ha & Hb
        & _ & _ & _ & _ & Hget).
  exists h'. split; [done|].
  rewrite (Hget Hm Hdiff).
  by eapply (read_group_of_parts _ _ _ _ _ _ POST).
Qed.

(** C2: for a target whose method is GET, [cross_over] introduces no
    entry into the POST group of the target, for any corpus of readable
    nodes, whatever body parameters the nodes of the corpus hold: when
    it returns, the POST group of the target is empty.  The source is a
    node without body parameters, as a GET request is by design and as
    the source is when [mutate] forms the call, the target having the
    method of the source; its two groups are two dicts, as the
    constructor of [Node] makes them. *)
Theorem cross_over_get_no_post (h : heap) (g : rng)
    (s : loc) (corpus : list loc) (t : loc) (tn : Node) :
  readable h GET s -> read_group h s POST = Some [] ->
  group_loc h s GET <> group_loc h s POST ->
  node_at h t = Some tn -> method tn = GET ->
  Forall (readable2 h) corpus ->
  exists h',
    cross_over s corpus t (h, g) = Ok (tt, (h', g)) /\
    read_group h' t POST = Some [].
Proof.
  intros HsG HsP Hdiff Ht Hm Hcorpus.
  assert (readable2 h s) as Hs by (split; [done|by eexists]).
  destruct (cross_over_get_post_baseline h g s corpus t tn Hs Hdiff Ht Hm
              Hcorpus) as (h' & Hrun & Heq).
  exists h'. split; [done|]. by rewrite Heq.
Qed.

(** The call as [mutate] forms it for the GET source at reference 7 of
    [post_heap]; the node of the corpus holds a body parameter. *)
Lemma cross_over_get_no_post_witness :
  read_group (constructed post_heap (lit "/t") GET (Some 7)) 3 POST
  = Some [(lit "a", [lit "1"])] /\
  exists h',
    cross_over 7 [3] 11
      (constructed post_heap (lit "/t") GET (Some 7), constant_rng 0)
    = Ok (tt, (h', constant_rng 0)) /\
    read_group h' 11 POST = Some [].
Proof.
  split; [reflexivity|].
  apply (cross_over_get_no_post
           (constructed post_heap (lit "/t") GET (Some 7)) (constant_rng 0)
           7 [3] 11 (mkNode (lit "/t") GET 10 0 (Some 7))).
  - eexists. reflexivity.
  - reflexivity.
  - vm_compute. discriminate.
  - reflexivity.
  - reflexivity.
  - repeat constructor; eexists; reflexivity.
Defined.

(** The hypothesis on the source is needed: the baseline copy carries a
    body parameter of the source into the target, here from a POST
    source into a GET target. *)
Example cross_over_baseline_carries_post :
  method <$> node_at post_heap 7 = Some GET /\
  exists h',
    cross_over 3 [] 7 (post_heap, constant_rng 0)
    = Ok (tt, (h', constant_rng 0)) /\
    read_group h' 7 POST = Some [(lit "a", [lit "1"])].
Proof. split; [reflexivity|]. eexists. split; reflexivity. Qed.

(** ** Dictionaries *)

Lemma delitem_Some k (d : dict) :
  k ∈ d.*1 ->
  exists d', Dict.delitem k d = Some d' /\ length d = S (length d') /\
    forall k', k' <> k -> k' ∈ d.*1 -> k' ∈ d'.*1.
Proof.
  induction d as [|[k0 v0] d IH]; intros Hin; [by apply elem_of_nil in Hin|].
  cbn [Dict.delitem]. destruct (decide (k0 = k)) as [->|Hne].
  - exists d. repeat split. intros k' Hk' Hin'.
    cbn in Hin'. apply elem_of_cons in Hin' as [?|?]; [done|done].
  - cbn in Hin. apply elem_of_cons in Hin as [?|Hin]; [done|].
    destruct (IH Hin) as (d' & -> & Hlen & Hkeys).
    exists ((k0, v0) :: d'). cbn. repeat split; [by rewrite Hlen|].
    intros k' Hk' Hin'. apply elem_of_cons in Hin' as [->|Hin'].
    + left.
    + right. by apply Hkeys.
Qed.

Lemma setitem_length_le k v (d : dict) :
  length (Dict.setitem k v d) <= S (length d).
Proof.
  induction d as [|[k0 v0] d IH]; cbn [Dict.setitem]; [done|].
  destruct (decide (k0 = k)); cbn [length]; lia.
Qed.

Lemma setitem_length_mem k v (d : dict) :
  k ∈ d.*1 -> length (Dict.setitem k v d) = length d.
Proof.
  induction d as [|[k0 v0] d IH]; intros Hin; [by apply elem_of_nil in Hin|].
  cbn [Dict.setitem]. destruct (decide (k0 = k)) as [->|Hne]; [done|].
  cbn in Hin. apply elem_of_cons in Hin as [?|Hin]; [done|].
  cbn [length]. by rewrite IH.
Qed.

Lemma setitem_keys k v (d : dict) k' :
  k' ∈ d.*1 -> k' ∈ (Dict.setitem k v d).*1.
Proof.
  induction d as [|[k0 v0] d IH]; intros Hin; [by apply elem_of_nil in Hin|].
  cbn [Dict.setitem]. cbn in Hin.
  destruct (decide (k0 = k)) as [->|Hne]; cbn.
  - apply elem_of_cons in Hin as [->|Hin]; [left|by right].
  - apply elem_of_cons in Hin as [->|Hin]; [left|right; by apply IH].
Qed.

(** ** The per-parameter path *)

Section per_param.

Variable self : Mutator.
Hypothesis xss_ok : Payloads_ok (xss_payloads self).
Hypothesis syntax_ok : Payloads_ok (syntax_tokens self).

(** Drawing a strategy and applying it returns, and only takes draws
    from the generator. *)
Lemma mutator_run key value h g :
  exists f param val g',
    MutateFunctions_mutator (per_param_mutators self) (h, g)
    = Ok (f, (h, advance g)) /\
    f key value (h, advance g) = Ok ((param, val), (h, g')).
Proof.
  destruct (choices_run
              (MutateFunctions_functions (per_param_mutators self))
              (MutateFunctions_weights (per_param_mutators self)) h g
              eq_refl ltac:(cbv; lia)) as (f & Hin & Hrun).
  exists f. cbn in Hin.
  repeat (apply elem_of_cons in Hin as [->|Hin]);
    [| | | | |by apply elem_of_nil in Hin].
  - destruct (add_payload_run (xss_payloads self) key value h (advance g)
                xss_ok) as (token & out & g' & Hf & _).
    by exists key, out, g'.
  - exists (alter_type key value).1, (alter_type key value).2, (advance g).
    split; [done|]. cbv beta. unfold ret.
    by destruct (alter_type key value).
  - destruct (add_random_text_run key value h (advance g))
      as (token & out & g' & Hf & _).
    by exists key, out, g'.
  - destruct (add_payload_run (syntax_tokens self) key value h (advance g)
                syntax_ok) as (token & out & g' & Hf & _).
    by exists key, out, g'.
  - by exists key, value, (advance g).
Qed.

(** One parameter: the dict [d] of the copy is replaced by a dict that
    is not longer and that still holds the other keys of [d]. *)
Lemma mutate_param_run new ty c (d : dict) key value h g :
  group_loc h new ty = Some c -> dict_at h c = Some d -> key ∈ d.*1 ->
  exists d' g',
    mutate_param self new ty (key, value) (h, g)
    = Ok (tt, (<[c := ODict d']> h, g')) /\
    length d' <= length d /\
    forall k', k' <> key -> k' ∈ d.*1 -> k' ∈ d'.*1.
Proof.
  intros Hc Hd Hkey.
  destruct (mutator_run key value h g) as (f & param & val & g' & Hf & Hpv).
  unfold mutate_param.
  rewrite (bind_Ok _ _ _ _ _ Hf), (bind_Ok _ _ _ _ _ Hpv).
  destruct (bool_decide_reflect (param = key)) as [->|Hne].
  - rewrite (bind_Ok _ _ _ _ _ eq_refl).
    rewrite (bind_Ok _ _ _ _ _ (params_item_run _ g' _ _ _ Hc)).
    rewrite (bind_Ok _ _ _ _ _ (get_dict_run _ g' _ _ Hd)).
    rewrite store_run by by eapply dict_at_lt.
    exists (Dict.setitem key val d), g'. split; [done|]. split.
    + by rewrite setitem_length_mem.
    + intros k' _. apply setitem_keys.
  - destruct (delitem_Some key d Hkey) as (d1 & Hdel & Hlen & Hkeys).
    erewrite bind_Ok; cycle 1.
    { rewrite (bind_Ok _ _ _ _ _ (params_item_run _ g' _ _ _ Hc)).
      rewrite (bind_Ok _ _ _ _ _ (get_dict_run _ g' _ _ Hd)).
      rewrite Hdel. apply store_run. by eapply dict_at_lt. }
    rewrite (bind_Ok _ _ _ _ _
               (params_item_run _ g' _ _ _
                  (eq_trans (group_loc_store_dict _ _ _ d1 _ _ Hd) Hc))).
    erewrite bind_Ok; cycle 1.
    { apply get_dict_run. rewrite (dict_at_store_dict _ _ _ _ _ Hd).
      by rewrite decide_True. }
    rewrite store_run
      by (rewrite length_insert; by eapply dict_at_lt).
    rewrite list_insert_insert_eq.
    exists (Dict.setitem param val d1), g'. split; [done|]. split.
    + pose proof (setitem_length_le param val d1). lia.
    + intros k' Hk' Hin. apply setitem_keys. by apply Hkeys.
Qed.

(** The inner loop over the items of the source dict. *)
Lemma mutate_params_loop new ty c (items : dict) :
  forall (d : dict) h g,
    group_loc h new ty = Some c -> dict_at h c = Some d ->
    NoDup items.*1 -> (forall k, k ∈ items.*1 -> k ∈ d.*1) ->
    exists d' g',
      for_ items (mutate_param self new ty) (h, g)
      = Ok (tt, (<[c := ODict d']> h, g')) /\
      length d' <= length d.
Proof.
  induction items as [|[key value] items IH]; intros d h g Hc Hd Hnd Hsub.
  - exists d, g. split; [|done]. cbn [for_]. unfold ret.
    rewrite list_insert_id; [done|]. by apply dict_at_lookup.
  - cbn in Hnd. apply NoDup_cons in Hnd as [Hnotin Hnd].
    destruct (mutate_param_run new ty c d key value h g Hc Hd)
      as (d1 & g1 & Hrun1 & Hlen1 & Hkeys1).
    { apply Hsub. left. }
    destruct (IH d1 (<[c := ODict d1]> h) g1) as (d2 & g2 & Hrun2 & Hlen2).
    + by rewrite (group_loc_store_dict _ _ _ _ _ _ Hd).
    + rewrite (dict_at_store_dict _ _ _ _ _ Hd). by rewrite decide_True.
    + done.
    + intros k Hk. apply Hkeys1.
      * intros ->. done.
      * apply Hsub. by right.
    + exists d2, g2. split; [|lia]. cbn [for_].
      rewrite (bind_Ok _ _ _ _ _ Hrun1), Hrun2.
      by rewrite list_insert_insert_eq.
Qed.
Lemma params_setitem_run h g node n a b ty c :
  node_at h node = Some n -> outer_at h (params n) = Some (a, b) ->
  params_setitem node ty c (h, g)
  = Ok (tt, (<[params n := match ty with
                           | GET => OParams c b
                           | POST => OParams a c
                           end]> h, g)).
Proof.
  intros Hn Hp. unfold params_setitem.
  rewrite (bind_Ok _ _ _ _ _ (get_node_run _ g _ _ Hn)).
  rewrite (bind_Ok _ _ _ _ _ (get_outer_run _ g _ _ Hp)).
  apply store_run. by eapply outer_at_lt.
Qed.

(** One group: a copy of the source dict is allocated and installed in
    the [params] mapping of the new node, then updated by the inner
    loop; the mapping of the new node is the only object of [h] that
    changes. *)
Lemma mutate_group_run from new ty h g fn nn a b (d : dict) :
  node_at h from = Some fn -> node_at h new = Some nn ->
  params fn <> params nn -> outer_at h (params nn) = Some (a, b) ->
  read_group h from ty = Some d -> Dict.wf d ->
  exists H' d' g',
    mutate_group self from new ty (h, g) = Ok (tt, (H', g')) /\
    length d' <= length d /\ length H' = S (length h) /\
    modifies [params nn] h H' /\
    (forall x, node_at H' x = node_at h x) /\
    outer_at H' (params nn)
    = Some (match ty with GET => (length h, b) | POST => (a, length h) end) /\
    (forall x, x <> params nn -> outer_at H' x = outer_at h x) /\
    dict_at H' (length h) = Some d' /\
    (forall x, x <> length h -> dict_at H' x = dict_at h x).
Proof.
  intros Hfrom Hnew Hshare Hp Hread Hwf.
  destruct (readable_read_group h ty from (ex_intro _ d Hread))
    as (fn' & fa & fb & l & d0 & Hfn' & Hfp & -> & Hl & Hd & Hr).
  assert (fn' = fn) as -> by congruence.
  assert (d0 = d) as -> by congruence.
  set (H0 := h ++ [ODict d]).
  set (o := match ty with
            | GET => OParams (length h) b
            | POST => OParams a (length h)
            end).
  set (H1 := <[params nn := o]> H0).
  pose proof (outer_at_app _ [ODict d] _ _ Hp : outer_at H0 _ = _) as Hp0.
  assert (forall x, node_at H1 x = node_at h x) as Hn1.
  { intros x. unfold H1, o.
    destruct ty; rewrite (node_at_store_outer _ _ _ _ _ _ Hp0);
      unfold H0; rewrite node_at_alloc_eq; case_decide; try done;
      subst; unfold node_at; by rewrite lookup_ge_None_2. }
  assert (forall x, outer_at H1 x
            = if decide (x = params nn)
              then Some (match ty with
                         | GET => (length h, b)
                         | POST => (a, length h)
                         end)
              else outer_at h x) as Ho1.
  { intros x. unfold H1, o.
    destruct ty; rewrite (outer_at_store_outer _ _ _ _ _ _ Hp0);
      case_decide; try done;
      unfold H0; rewrite outer_at_alloc_eq; case_decide; try done;
      subst; unfold outer_at; by rewrite lookup_ge_None_2. }
  assert (forall x, dict_at H1 x
            = if decide (x = length h) then Some d else dict_at h x) as Hd1.
  { intros x. unfold H1, o.
    destruct ty; rewrite (dict_at_store_outer _ _ _ _ _ _ Hp0);
      unfold H0; by rewrite dict_at_alloc_eq. }
  assert (group_loc H1 from ty = Some (group ty (fa, fb))) as Hl1.
  { unfold group_loc. rewrite Hn1, Hfrom, Ho1.
    rewrite decide_False by done. by rewrite Hfp. }
  assert (dict_at H1 (group ty (fa, fb)) = Some d) as Hsrc1.
  { rewrite Hd1. case_decide as E; [|done].
    apply dict_at_lt in Hd. lia. }
  assert (group_loc H1 new ty = Some (length h)) as Hc1.
  { unfold group_loc. rewrite Hn1, Hnew, Ho1.
    rewrite decide_True by done. by destruct ty. }
  assert (dict_at H1 (length h) = Some d) as Hcopy1.
  { rewrite Hd1. by rewrite decide_True. }
  destruct (mutate_params_loop new ty (length h) d d H1 g Hc1 Hcopy1 Hwf
              ltac:(done)) as (d' & g' & Hloop & Hlen).
  exists (<[length h := ODict d']> H1), d', g'.
  split.
  { unfold mutate_group.
    rewrite (bind_Ok _ _ _ _ _ (params_item_run _ g _ _ _ Hl)).
    rewrite (bind_Ok _ _ _ _ _ (deepcopy_dict_run _ g _ _ Hd)).
    fold H0.
    rewrite (bind_Ok _ _ _ _ _
               (params_setitem_run H0 g new nn a b ty (length h)
                  (node_at_app _ _ _ _ Hnew) Hp0)).
    fold o. fold H1.
    rewrite (bind_Ok _ _ _ _ _ (params_item_run _ g _ _ _ Hl1)).
    by rewrite (bind_Ok _ _ _ _ _ (get_dict_run _ g _ _ Hsrc1)). }
  split; [done|].
  split. { unfold H1, H0. rewrite !length_insert, length_app. cbn. lia. }
  split.
  { apply modifies_store_fresh; [|done].
    eapply modifies_trans; [apply (modifies_alloc _ h [ODict d])|].
    apply modifies_store. intros _. left. }
  split. { intros x. by rewrite (node_at_store_dict _ _ _ _ _ Hcopy1). }
  split. { rewrite (outer_at_store_dict _ _ _ _ _ Hcopy1), Ho1.
           by rewrite decide_True. }
  split. { intros x Hx. rewrite (outer_at_store_dict _ _ _ _ _ Hcopy1), Ho1.
           by rewrite decide_False. }
  split. { rewrite (dict_at_store_dict _ _ _ _ _ Hcopy1).
           by rewrite decide_True. }
  intros x Hx. rewrite (dict_at_store_dict _ _ _ _ _ Hcopy1).
  rewrite decide_False by done. rewrite Hd1. by rewrite decide_False.
Qed.
(** Both groups. *)
Lemma per_param_mutate_run from new corpus h g fn nn :
  wf_node h from -> node_at h from = Some fn -> node_at h new = Some nn ->
  params fn <> params nn -> is_Some (outer_at h (params nn)) ->
  exists H' g' (dG dP dG' dP' : dict),
    per_param_mutate self from new corpus (h, g) = Ok (tt, (H', g')) /\
    read_group h from GET = Some dG /\ read_group h from POST = Some dP /\
    read_group H' new GET = Some dG' /\ read_group H' new POST = Some dP' /\
    length dG' <= length dG /\ length dP' <= length dP /\
    modifies [params nn] h H' /\
    (forall x, node_at H' x = node_at h x).
Proof.
  intros (fn' & fa & fb & dG & dP & Hfn' & Hfp & HdG & HdP & HwG & HwP & Hab)
         Hfrom Hnew Hshare [[a b] Hp].
  assert (fn' = fn) as -> by congruence.
  assert (read_group h from GET = Some dG) as HrG
    by by eapply (read_group_of_parts _ _ _ _ _ _ GET).
  assert (read_group h from POST = Some dP) as HrP
    by by eapply (read_group_of_parts _ _ _ _ _ _ POST).
  destruct (mutate_group_run from new GET h g fn nn a b dG
              Hfrom Hnew Hshare Hp HrG HwG)
    as (H1 & dG' & g1 & Hrun1 & Hlen1 & Hsz1 & Hmod1 & Hn1 & Ho1 & Hoo1
        & Hd1 & Hdo1).
  assert (read_group H1 from POST = Some dP) as HrP1.
  { eapply (read_group_of_parts _ _ _ _ fa fb POST); [by rewrite Hn1|done| |].
    - by rewrite Hoo1.
    - rewrite Hdo1; [done|]. apply dict_at_lt in HdP. cbn. lia. }
  destruct (mutate_group_run from new POST H1 g1 fn nn (length h) b dP
              ltac:(by rewrite Hn1) ltac:(by rewrite Hn1) Hshare Ho1 HrP1 HwP)
    as (H2 & dP' & g2 & Hrun2 & Hlen2 & Hsz2 & Hmod2 & Hn2 & Ho2 & Hoo2
        & Hd2 & Hdo2).
  exists H2, g2, dG, dP, dG', dP'.
  split.
  { unfold per_param_mutate. cbn [for_].
    by rewrite (bind_Ok _ _ _ _ _ Hrun1), (bind_Ok _ _ _ _ _ Hrun2). }
  do 2 (split; [done|]).
  split.
  { eapply (read_group_of_parts _ _ _ _ _ _ GET);
      [by rewrite Hn2, Hn1|done|exact Ho2|].
    cbn. rewrite Hdo2 by lia. done. }
  split.
  { eapply (read_group_of_parts _ _ _ _ _ _ POST);
      [by rewrite Hn2, Hn1|done|exact Ho2|]. done. }
  do 2 (split; [done|]).
  split; [by eapply modifies_trans|].
  intros x. by rewrite Hn2, Hn1.
Qed.
End per_param.

(** C10: in the per-parameter path, for each group the new node has at
    most as many parameters as the source node: a parameter whose name
    is kept overwrites its own entry, and a renamed parameter loses its
    old key before the new key is set, so the count may fall (two names
    that meet in one key) but cannot grow.  The deletion never raises
    [KeyError]: the call returns for every draw of the generator. *)
Theorem per_param_mutate_count (self : Mutator) (from new : loc)
    (corpus : list loc) (h : heap) (g : rng) (fn nn : Node) :
  Payloads_ok (xss_payloads self) -> Payloads_ok (syntax_tokens self) ->
  wf_node h from -> node_at h from = Some fn ->
  node_at h new = Some nn -> is_Some (outer_at h (params nn)) ->
  params fn <> params nn ->
  exists h' g',
    per_param_mutate self from new corpus (h, g) = Ok (tt, (h', g')) /\
    forall ty, readable h' ty new /\ nparams h' ty new <= nparams h ty from.
Proof.
  intros Hxss Hsyn Hwf Hfrom Hnew Houter Hshare.
  destruct (per_param_mutate_run self Hxss Hsyn from new corpus h g fn nn
              Hwf Hfrom Hnew Hshare Houter)
    as (h' & g' & dG & dP & dG' & dP' & Hrun & HrG & HrP & HrG' & HrP'
        & HlG & HlP & _).
  exists h', g'. split; [done|].
  intros []; unfold readable, nparams.
  - rewrite HrG', HrG. split; [eauto|done].
  - rewrite HrP', HrP. split; [eauto|done].
Qed.

(** ** Computations that leave the heap as it is *)

Lemma pure_ret {A} (a : A) : pure_heap (ret a).
Proof. intros h g a' st' [= <- <-]. eauto. Qed.

Lemma pure_raise {A} e : pure_heap (@raise A e).
Proof. by intros h g a st'. Qed.

Lemma pure_bind {A B} (m : M A) (k : A -> M B) :
  pure_heap m -> (forall a, pure_heap (k a)) -> pure_heap (bind m k).
Proof.
  intros Hm Hk h g b st' H.
  apply bind_inv in H as (a & [h1 g1] & H1 & H2).
  destruct (Hm _ _ _ _ H1) as (g' & [= -> ->]). by eapply Hk.
Qed.

Lemma pure_load l : pure_heap (load l).
Proof.
  intros h g a st'. unfold load. destruct (h !! l); [|done].
  intros [= <- <-]. eauto.
Qed.

Lemma pure_get_node l : pure_heap (get_node l).
Proof.
  apply pure_bind; [apply pure_load|].
  intros []; first [apply pure_ret | apply pure_raise].
Qed.

Lemma pure_get_outer l : pure_heap (get_outer l).
Proof.
  apply pure_bind; [apply pure_load|].
  intros []; first [apply pure_ret | apply pure_raise].
Qed.

Lemma pure_get_dict l : pure_heap (get_dict l).
Proof.
  apply pure_bind; [apply pure_load|].
  intros []; first [apply pure_ret | apply pure_raise].
Qed.

Lemma pure_params_item node ty : pure_heap (params_item node ty).
Proof.
  apply pure_bind; [apply pure_get_node|]. intros n.
  apply pure_bind; [apply pure_get_outer|]. intros gp. apply pure_ret.
Qed.

Lemma pure_len_params node ty : pure_heap (len_params node ty).
Proof.
  apply pure_bind; [apply pure_params_item|]. intros n.
  apply pure_bind; [apply pure_get_dict|]. intros gp. apply pure_ret.
Qed.

Lemma pure_node_url node : pure_heap (node_url node).
Proof. apply pure_bind; [apply pure_get_node|]. intros n. apply pure_ret. Qed.

Lemma pure_randbelow n : pure_heap (Random.randbelow n).
Proof. intros h g a st' [= <- <-]. eauto. Qed.

Lemma pure_choices {A} (population : list A) weights :
  pure_heap (Random.choices population weights).
Proof.
  unfold Random.choices. destruct (negb _); [apply pure_raise|].
  destruct (last _); [|apply pure_raise].
  destruct (_ =? 0); [apply pure_raise|].
  apply pure_bind; [apply pure_randbelow|]. intros r.
  destruct (_ !! _); [apply pure_ret|apply pure_raise].
Qed.

Lemma pure_choice {A} (seq : list A) : pure_heap (Random.choice seq).
Proof.
  unfold Random.choice. destruct seq; [apply pure_raise|].
  apply pure_bind; [apply pure_randbelow|]. intros r.
  destruct (_ !! _); [apply pure_ret|apply pure_raise].
Qed.

Lemma pure_randrange a b : pure_heap (Random.randrange a b).
Proof.
  unfold Random.randrange. destruct (_ <=? _); [apply pure_raise|].
  apply pure_bind; [apply pure_randbelow|]. intros r. apply pure_ret.
Qed.

Lemma pure_choices_k {A} (population : list A) k :
  pure_heap (Random.choices_k population k).
Proof.
  induction k as [|k IH]; cbn [Random.choices_k]; [apply pure_ret|].
  apply pure_bind; [apply pure_randbelow|]. intros r.
  destruct (_ !! _); [|apply pure_raise].
  apply pure_bind; [apply IH|]. intros xs. apply pure_ret.
Qed.

Lemma pure_place payload param val : pure_heap (place payload param val).
Proof.
  apply pure_bind; [apply pure_randrange|]. intros coin.
  destruct (_ =? _); apply pure_ret.
Qed.

Lemma pure_Payloads_payload (self : Payloads) :
  pure_heap (Payloads_payload self).
Proof.
  apply pure_bind; [apply pure_choices|]. intros p. apply pure_choice.
Qed.

(** Every registered strategy leaves the heap as it is. *)
Lemma pure_per_param_mutators (self : Mutator) f key value :
  f ∈ MutateFunctions_functions (per_param_mutators self) ->
  pure_heap (f key value).
Proof.
  intros Hin. cbn in Hin.
  repeat (apply elem_of_cons in Hin as [->|Hin]);
    [| | | | |by apply elem_of_nil in Hin].
  - apply pure_bind; [apply pure_Payloads_payload|]. intros p.
    apply pure_place.
  - apply pure_ret.
  - apply pure_bind; [apply pure_randrange|]. intros n.
    apply pure_bind; [apply pure_choices_k|]. intros p. apply pure_place.
  - apply pure_bind; [apply pure_Payloads_payload|]. intros p.
    apply pure_place.
  - apply pure_ret.
Qed.

Lemma pure_select_scan start ty k nodes :
  forall donor, pure_heap (select_scan start ty k donor nodes).
Proof.
  induction nodes as [|node rest IH]; intros donor; cbn [select_scan];
    [apply pure_ret|].
  apply pure_bind; [apply pure_len_params|]. intros n1.
  apply pure_bind; [apply pure_len_params|]. intros n2.
  apply pure_bind.
  - destruct (_ <? _); [|apply pure_ret].
    apply pure_bind; [apply pure_node_url|]. intros u.
    apply pure_bind; [apply pure_node_url|]. intros su. apply pure_ret.
  - intros []; [apply pure_ret|]. destruct (_ <=? _); apply IH.
Qed.

Lemma pure_select_favourable_node node_list start ty :
  pure_heap (select_favourable_node node_list start ty).
Proof.
  unfold select_favourable_node.
  destruct node_list as [|first rest]; [apply pure_ret|].
  apply pure_bind; [apply pure_len_params|]. intros n.
  apply pure_bind; [apply pure_select_scan|]. intros d. apply pure_ret.
Qed.

(** ** What a successful access tells *)

Lemma load_inv l h g o st' :
  load l (h, g) = Ok (o, st') -> st' = (h, g) /\ h !! l = Some o.
Proof. unfold load. destruct (h !! l); [|done]. by intros [= <- <-]. Qed.

Lemma get_node_inv l h g n st' :
  get_node l (h, g) = Ok (n, st') -> st' = (h, g) /\ node_at h l = Some n.
Proof.
  intros H. apply bind_inv in H as (o & st1 & H1 & H2).
  apply load_inv in H1 as [-> Ho]. destruct o as [d0|a0 b0|n0]; try done.
  injection H2 as <- <-. split; [done|]. by apply node_at_lookup.
Qed.

Lemma get_outer_inv l h g gp st' :
  get_outer l (h, g) = Ok (gp, st') -> st' = (h, g) /\ outer_at h l = Some gp.
Proof.
  intros H. apply bind_inv in H as (o & st1 & H1 & H2).
  apply load_inv in H1 as [-> Ho]. destruct o as [d0|a0 b0|n0]; try done.
  injection H2 as <- <-. split; [done|]. by apply outer_at_lookup.
Qed.

Lemma get_dict_inv l h g d st' :
  get_dict l (h, g) = Ok (d, st') -> st' = (h, g) /\ dict_at h l = Some d.
Proof.
  intros H. apply bind_inv in H as (o & st1 & H1 & H2).
  apply load_inv in H1 as [-> Ho]. destruct o as [d0|a0 b0|n0]; try done.
  injection H2 as <- <-. split; [done|]. by apply dict_at_lookup.
Qed.

Lemma params_item_inv node ty h g l st' :
  params_item node ty (h, g) = Ok (l, st') ->
  st' = (h, g) /\ group_loc h node ty = Some l.
Proof.
  intros H. apply bind_inv in H as (n & st1 & H1 & H).
  apply get_node_inv in H1 as [-> Hn].
  apply bind_inv in H as (gp & st1 & H1 & H).
  apply get_outer_inv in H1 as [-> Hgp].
  injection H as <- <-. split; [done|]. unfold group_loc. by rewrite Hn, Hgp.
Qed.

Lemma store_inv l o h g u st' :
  store l o (h, g) = Ok (u, st') -> l < length h /\ st' = (<[l := o]> h, g).
Proof.
  unfold store. destruct (Nat.ltb_spec l (length h)); [|done].
  by intros [= <-].
Qed.


(** ** The invariant of a mutation *)

Section frame.

Variables (h0 : heap) (new : loc).

#[local] Abbreviation Inv := (mutation_inv h0 new).

Lemma inv_group_loc H ty t :
  Inv H -> group_loc H new ty = Some t -> length h0 <= t.
Proof.
  intros [_ (_ & n & a & b & Hn & _ & Hp & Ha & Hb)].
  unfold group_loc. rewrite Hn, Hp. intros [= <-]. by destruct ty.
Qed.

Lemma inv_app H k : Inv H -> Inv (H ++ k).
Proof.
  intros [Hm (Hnew & n & a & b & Hn & Hpn & Hp & Ha & Hb)]. split.
  - eapply modifies_trans; [done|apply modifies_alloc].
  - split; [done|]. exists n, a, b.
    by rewrite (node_at_app _ _ _ _ Hn), (outer_at_app _ _ _ _ Hp).
Qed.

Lemma inv_store_dict H t d d' :
  Inv H -> length h0 <= t -> dict_at H t = Some d ->
  Inv (<[t := ODict d']> H).
Proof.
  intros [Hm (Hnew & n & a & b & Hn & Hpn & Hp & Ha & Hb)] Ht Hd. split.
  - by apply modifies_store_fresh.
  - split; [done|]. exists n, a, b.
    by rewrite (node_at_store_dict _ _ _ _ _ Hd),
               (outer_at_store_dict _ _ _ _ _ Hd).
Qed.

Lemma inv_store_outer H nn gp c1 c2 :
  Inv H -> node_at H new = Some nn -> outer_at H (params nn) = Some gp ->
  length h0 <= c1 -> length h0 <= c2 ->
  Inv (<[params nn := OParams c1 c2]> H).
Proof.
  intros [Hm (Hnew & n & a & b & Hn & Hpn & Hp & Ha & Hb)] Hnn Hgp H1 H2.
  assert (n = nn) as -> by congruence. split.
  - by apply modifies_store_fresh.
  - split; [done|]. exists nn, c1, c2.
    rewrite (node_at_store_outer _ _ _ _ _ _ Hgp),
            (outer_at_store_outer _ _ _ _ _ _ Hgp).
    by rewrite decide_True.
Qed.

Lemma inv_store_node H nn n' a b :
  Inv H -> node_at H new = Some nn ->
  length h0 <= params n' -> outer_at H (params n') = Some (a, b) ->
  length h0 <= a -> length h0 <= b ->
  Inv (<[new := ONode n']> H).
Proof.
  intros [Hm (Hnew & _)] Hnn Hpn Hp Ha Hb. split.
  - by apply modifies_store_fresh.
  - split; [done|]. exists n', a, b.
    rewrite (node_at_store_node _ _ _ _ _ Hnn),
            (outer_at_store_node _ _ _ _ _ Hnn).
    by rewrite decide_True.
Qed.

Lemma mutate_param_inv self ty kv H g u H' g' :
  Inv H -> mutate_param self new ty kv (H, g) = Ok (u, (H', g')) -> Inv H'.
Proof.
  intros HI Hrun. destruct kv as [key value]. unfold mutate_param in Hrun.
  apply bind_inv in Hrun as (f & [H1 g1] & Hf & Hrun).
  pose proof (choices_elem _ _ _ _ _ Hf) as Hin.
  destruct (pure_choices _ _ _ _ _ _ Hf) as (? & [= -> ->]).
  apply bind_inv in Hrun as ([param val] & [H2 g2] & Hpv & Hrun).
  destruct (pure_per_param_mutators self f key value Hin _ _ _ _ Hpv)
    as (? & [= -> ->]).
  apply bind_inv in Hrun as (u1 & [H3 g3] & Hdel & Hrun).
  assert (Inv H3) as HI3.
  { destruct (bool_decide (param = key)).
    - by injection Hdel as <- <-.
    - apply bind_inv in Hdel as (t & st & Ht & Hdel).
      apply params_item_inv in Ht as [-> Ht].
      apply bind_inv in Hdel as (d & st & Hd & Hdel).
      apply get_dict_inv in Hd as [-> Hd].
      destruct (Dict.delitem key d) as [d'|]; [|done].
      apply store_inv in Hdel as [_ [= -> ->]].
      eapply inv_store_dict; [done| |done]. by eapply inv_group_loc. }
  apply bind_inv in Hrun as (t & st & Ht & Hrun).
  apply params_item_inv in Ht as [-> Ht].
  apply bind_inv in Hrun as (d & st & Hd & Hrun).
  apply get_dict_inv in Hd as [-> Hd].
  apply store_inv in Hrun as [_ [= -> ->]].
  eapply inv_store_dict; [done| |done]. by eapply inv_group_loc.
Qed.

Lemma for_inv {A} (body : A -> M unit) xs :
  (forall x H g u H' g',
      Inv H -> body x (H, g) = Ok (u, (H', g')) -> Inv H') ->
  forall H g u H' g',
    Inv H -> for_ xs body (H, g) = Ok (u, (H', g')) -> Inv H'.
Proof.
  intros Hbody. induction xs as [|x xs IH]; intros H g u H' g' HI Hrun.
  - by injection Hrun as <- <-.
  - cbn [for_] in Hrun. apply bind_inv in Hrun as (u1 & [H1 g1] & H1run & Hrun).
    eapply IH; [|done]. by eapply Hbody.
Qed.

Lemma mutate_group_inv self from ty H g u H' g' :
  Inv H -> mutate_group self from new ty (H, g) = Ok (u, (H', g')) -> Inv H'.
Proof.
  intros HI Hrun. unfold mutate_group in Hrun.
  apply bind_inv in Hrun as (src & st & Hsrc & Hrun).
  apply params_item_inv in Hsrc as [-> Hsrc].
  apply bind_inv in Hrun as (c & st & Hc & Hrun).
  apply bind_inv in Hc as (d & st1 & Hd & Hc).
  apply get_dict_inv in Hd as [-> Hd].
  rewrite alloc_run in Hc. injection Hc as <- <-.
  pose proof (inv_app _ [ODict d] HI) as HI1.
  assert (length h0 <= length H) as Hlen by by destruct HI as [[? _] _].
  apply bind_inv in Hrun as (u1 & st & Hset & Hrun).
  assert (exists H2, st = (H2, g) /\ Inv H2) as (H2 & -> & HI2).
  { unfold params_setitem in Hset.
    apply bind_inv in Hset as (nn & st1 & Hnn & Hset).
    apply get_node_inv in Hnn as [-> Hnn].
    apply bind_inv in Hset as (gp & st1 & Hgp & Hset).
    apply get_outer_inv in Hgp as [-> Hgp].
    apply store_inv in Hset as [_ ->]. eexists. split; [done|].
    pose proof HI1 as [_ (_ & n & a & b & Hn & _ & Hp & Ha & Hb)].
    assert (n = nn) as -> by congruence.
    assert (gp = (a, b)) as -> by congruence.
    destruct ty; eapply inv_store_outer; try done. }
  apply bind_inv in Hrun as (it & st & Hit & Hrun).
  destruct (pure_params_item _ _ _ _ _ _ Hit) as (? & ->).
  apply bind_inv in Hrun as (items & st & Hitems & Hrun).
  destruct (pure_get_dict _ _ _ _ _ Hitems) as (? & ->).
  eapply for_inv; [|exact HI2|exact Hrun].
  intros. by eapply mutate_param_inv.
Qed.

Lemma per_param_mutate_inv self from corpus H g u H' g' :
  Inv H ->
  per_param_mutate self from new corpus (H, g) = Ok (u, (H', g')) -> Inv H'.
Proof.
  intros HI Hrun. eapply for_inv; [|exact HI|exact Hrun].
  intros. by eapply mutate_group_inv.
Qed.

Lemma deepcopy_params_inv p H g p' st' :
  deepcopy_params p (H, g) = Ok (p', st') ->
  exists k a' b',
    st' = (H ++ k, g) /\ outer_at (H ++ k) p' = Some (a', b') /\
    length H <= p' /\ length H <= a' /\ length H <= b'.
Proof.
  intros Hrun. unfold deepcopy_params in Hrun.
  apply bind_inv in Hrun as (gp & st & Hgp & Hrun).
  apply get_outer_inv in Hgp as [-> Hgp].
  apply bind_inv in Hrun as (c & st & Hc & Hrun).
  apply bind_inv in Hc as (da & st1 & Hda & Hc).
  apply get_dict_inv in Hda as [-> Hda].
  rewrite alloc_run in Hc. injection Hc as <- <-.
  apply bind_inv in Hrun as (c2 & st & Hc2 & Hrun).
  destruct (decide (gp.2 = gp.1)).
  - injection Hc2 as <- <-. rewrite alloc_run in Hrun.
    injection Hrun as <- <-.
    exists [ODict da; OParams (length H) (length H)], (length H), (length H).
    replace (H ++ [ODict da; OParams (length H) (length H)])
      with ((H ++ [ODict da]) ++ [OParams (length H) (length H)])
      by (by rewrite <- app_assoc).
    rewrite outer_at_alloc_eq, decide_True by done.
    rewrite length_app. cbn. repeat split; lia.
  - apply bind_inv in Hc2 as (db & st1 & Hdb & Hc2).
    apply get_dict_inv in Hdb as [-> Hdb].
    rewrite alloc_run in Hc2. injection Hc2 as <- <-.
    rewrite alloc_run in Hrun. injection Hrun as <- <-.
    exists [ODict da; ODict db; OParams (length H) (length (H ++ [ODict da]))],
      (length H), (length (H ++ [ODict da])).
    replace (H ++ [ODict da; ODict db;
                   OParams (length H) (length (H ++ [ODict da]))])
      with (((H ++ [ODict da]) ++ [ODict db])
              ++ [OParams (length H) (length (H ++ [ODict da]))])
      by (by rewrite <- !app_assoc).
    rewrite outer_at_alloc_eq, decide_True by done.
    rewrite !length_app. cbn. repeat split; lia.
Qed.

Lemma cross_over_group_inv corpus ty H g u H' g' :
  Inv H -> cross_over_group corpus new ty (H, g) = Ok (u, (H', g')) ->
  Inv H'.
Proof.
  intros HI Hrun. unfold cross_over_group in Hrun.
  apply bind_inv in Hrun as (nn & st & Hnn & Hrun).
  apply get_node_inv in Hnn as [-> Hnn].
  destruct (_ && _); [by injection Hrun as _ <- <-|].
  apply bind_inv in Hrun as (r & st & Hr & Hrun).
  destruct (pure_select_favourable_node _ _ _ _ _ _ _ Hr) as (? & ->).
  destruct r as [c|]; [|by injection Hrun as _ <- <-].
  unfold merge_nodes in Hrun.
  apply bind_inv in Hrun as (t & st & Ht & Hrun).
  apply params_item_inv in Ht as [-> Ht].
  apply bind_inv in Hrun as (donor & st & Hdonor & Hrun).
  apply params_item_inv in Hdonor as [-> Hdonor].
  apply bind_inv in Hrun as (d & st & Hd & Hrun).
  apply get_dict_inv in Hd as [-> Hd].
  apply bind_inv in Hrun as (other & st & Hother & Hrun).
  apply get_dict_inv in Hother as [-> Hother].
  apply store_inv in Hrun as [_ [= -> ->]].
  eapply inv_store_dict; [done| |done]. by eapply inv_group_loc.
Qed.

Lemma cross_over_inv from corpus H g u H' g' :
  Inv H -> cross_over from corpus new (H, g) = Ok (u, (H', g')) -> Inv H'.
Proof.
  intros HI Hrun. unfold cross_over in Hrun.
  apply bind_inv in Hrun as (fn & st & Hfn & Hrun).
  apply get_node_inv in Hfn as [-> Hfn].
  apply bind_inv in Hrun as (p' & st & Hp' & Hrun).
  apply deepcopy_params_inv in Hp'
    as (k & a' & b' & -> & Hout & Hfp & Hfa & Hfb).
  assert (length h0 <= length H) as Hlen by by destruct HI as [[? _] _].
  pose proof (inv_app _ k HI) as HI1.
  apply bind_inv in Hrun as (u1 & st & Hset & Hrun).
  unfold set_params in Hset.
  apply bind_inv in Hset as (nn & st1 & Hnn & Hset).
  apply get_node_inv in Hnn as [-> Hnn].
  apply store_inv in Hset as [_ ->].
  eapply for_inv; [|exact (inv_store_node _ nn (with_params nn p') a' b'
                             HI1 Hnn ltac:(cbn; lia)
                             Hout ltac:(lia) ltac:(lia))
                   |exact Hrun].
  intros. by eapply cross_over_group_inv.
Qed.

Lemma calculate_param_size_inv H g u H' g' :
  Inv H -> calculate_param_size new (H, g) = Ok (u, (H', g')) -> Inv H'.
Proof.
  intros HI Hrun. unfold calculate_param_size in Hrun.
  apply bind_inv in Hrun as (ka & st & Hka & Hrun).
  destruct (pure_len_params _ _ _ _ _ _ Hka) as (? & ->).
  apply bind_inv in Hrun as (kb & st & Hkb & Hrun).
  destruct (pure_len_params _ _ _ _ _ _ Hkb) as (? & ->).
  apply bind_inv in Hrun as (n & st & Hn & Hrun).
  apply get_node_inv in Hn as [-> Hn].
  apply store_inv in Hrun as [_ [= -> ->]].
  pose proof HI as [_ (_ & n' & a & b & Hn' & Hpn & Hp & Ha & Hb)].
  assert (n' = n) as -> by congruence.
  by eapply (inv_store_node _ n (with_size n (ka + kb)) a b).
Qed.

End frame.

Lemma constructed_views h u m parent :
  node_at (constructed h u m parent) (S (S (S (length h))))
  = Some (mkNode u m (S (S (length h))) 0 parent) /\
  outer_at (constructed h u m parent) (S (S (length h)))
  = Some (length h, S (length h)) /\
  dict_at (constructed h u m parent) (length h) = Some [] /\
  dict_at (constructed h u m parent) (S (length h)) = Some [].
Proof.
  unfold constructed, node_at, outer_at, dict_at.
  rewrite !lookup_app_r by lia.
  replace (S (S (S (length h))) - length h) with 3 by lia.
  replace (S (S (length h)) - length h) with 2 by lia.
  replace (S (length h) - length h) with 1 by lia.
  by rewrite Nat.sub_diag.
Qed.

Lemma Node_init_run u m parent h g :
  Node_init u m parent (h, g)
  = Ok (S (S (S (length h))), (constructed h u m parent, g)).
Proof.
  unfold Node_init, constructed.
  rewrite !(bind_Ok _ _ _ _ _ (alloc_run _ _ _)), alloc_run.
  rewrite !length_app. cbn [length].
  rewrite <- !app_assoc. cbn [app].
  by replace (length h + 1) with (S (length h)) by lia;
     replace (S (length h) + 1) with (S (S (length h))) by lia;
     replace (S (S (length h)) + 1) with (S (S (S (length h)))) by lia.
Qed.

Lemma constructed_inv h u m parent :
  mutation_inv h (S (S (S (length h)))) (constructed h u m parent).
Proof.
  destruct (constructed_views h u m parent) as (Hn & Hp & _).
  split; [apply modifies_alloc|]. split; [lia|].
  eexists _, _, _. split; [exact Hn|]. cbn. split; [lia|].
  split; [exact Hp|]. lia.
Qed.

(** ** [mutate] *)


Lemma all_param_mutate_inv h0 new self from corpus H g u H' g' :
  mutation_inv h0 new H ->
  all_param_mutate self from new corpus (H, g) = Ok (u, (H', g')) ->
  mutation_inv h0 new H'.
Proof.
  intros HI Hrun. unfold all_param_mutate in Hrun.
  apply bind_inv in Hrun as (f & st & Hf & Hrun).
  pose proof (choice_elem _ _ _ _ Hf) as Hin.
  destruct (pure_choice _ _ _ _ _ Hf) as (? & ->).
  apply list_elem_of_singleton in Hin as ->.
  by eapply cross_over_inv.
Qed.

(** The invariant holds when [mutate] returns. *)
Lemma mutate_inv self from corpus h g new h' g' :
  mutate self from corpus (h, g) = Ok (new, (h', g')) ->
  mutation_inv h new h'.
Proof.
  intros Hrun. unfold mutate in Hrun.
  apply bind_inv in Hrun as (fn & st & Hfn & Hrun).
  apply get_node_inv in Hfn as [-> Hfn].
  rewrite (bind_Ok _ _ _ _ _ (Node_init_run _ _ _ _ _)) in Hrun.
  pose proof (constructed_inv h (url fn) (method fn) (Some from)) as HI.
  set (new0 := S (S (S (length h)))) in *.
  set (H1 := constructed _ _ _ _) in *.
  apply bind_inv in Hrun as (fn' & st & Hfn' & Hrun).
  apply get_node_inv in Hfn' as [-> Hfn'].
  apply bind_inv in Hrun as (u & [H2 g2] & Hbranch & Hrun).
  assert (mutation_inv h new0 H2) as HI2.
  { destruct (size fn' =? 0).
    - by eapply cross_over_inv.
    - apply bind_inv in Hbranch as (choice & st & Hchoice & Hbranch).
      pose proof (choices_elem _ _ _ _ _ Hchoice) as Hin.
      destruct (pure_choices _ _ _ _ _ _ Hchoice) as (? & ->).
      apply elem_of_cons in Hin as [->|Hin].
      + by eapply per_param_mutate_inv.
      + apply list_elem_of_singleton in Hin as ->.
        by eapply all_param_mutate_inv. }
  apply bind_inv in Hrun as (u2 & [H3 g3] & Hsize & Hrun).
  injection Hrun as <- <- <-.
  by eapply calculate_param_size_inv.
Qed.

(** C9: when [mutate] returns, every object of the heap it started in is
    unchanged; in particular the parameters of the source node and of
    every member of the corpus, in both groups, are what they were
    before the call.  The new node is an object allocated by the call. *)
Theorem mutate_frame (self : Mutator) (from : loc) (corpus : list loc)
    (h : heap) (g : rng) (new : loc) (h' : heap) (g' : rng) :
  mutate self from corpus (h, g) = Ok (new, (h', g')) ->
  (forall l o, h !! l = Some o -> h' !! l = Some o) /\
  (forall node ty d,
      node = from \/ node ∈ corpus ->
      read_group h node ty = Some d -> read_group h' node ty = Some d) /\
  length h <= new.
Proof.
  intros Hrun. destruct (mutate_inv _ _ _ _ _ _ _ _ Hrun) as [Hm [Hnew _]].
  split; [|split; [|done]].
  - intros l o. by apply modifies_nil_lookup.
  - intros node ty d _. by apply modifies_nil_read_group.
Qed.

Lemma mutate_frame_witness :
  exists new h' g',
    mutate sample_mutator 11 [3; 7] (sample_heap, list_rng [0; 35; 105])
    = Ok (new, (h', g')) /\
    read_group h' 11 GET = read_group sample_heap 11 GET /\
    read_group h' 7 GET = read_group sample_heap 7 GET.
Proof.
  destruct (mutate sample_mutator 11 [3; 7]
              (sample_heap, list_rng [0; 35; 105]))
    as [[new [h' g']]|e] eqn:Hrun; [|by vm_compute in Hrun].
  exists new, h', g'. split; [done|].
  destruct (mutate_frame _ _ _ _ _ _ _ _ Hrun) as (_ & Hread & _).
  split.
  - apply (Hread 11 GET); [by left|reflexivity].
  - apply (Hread 7 GET); [right; right; left|reflexivity].
Defined.

Lemma wf_node_app h k node : wf_node h node -> wf_node (h ++ k) node.
Proof.
  intros (n & a & b & dg & dp & Hn & Hp & Hdg & Hdp & Hw).
  exists n, a, b, dg, dp.
  by rewrite (node_at_app _ _ _ _ Hn), (outer_at_app _ _ _ _ Hp),
             (dict_at_app _ _ _ _ Hdg), (dict_at_app _ _ _ _ Hdp).
Qed.

Lemma readable2_app h k node : readable2 h node -> readable2 (h ++ k) node.
Proof.
  intros [[dg Hg] [dp Hp]].
  split; eexists; by apply read_group_app.
Qed.

Lemma read_group_store_node h l n n' x ty :
  node_at h l = Some n -> params n' = params n ->
  read_group (<[l := ONode n']> h) x ty = read_group h x ty.
Proof.
  intros Hn Hp. unfold read_group, group_loc.
  rewrite (node_at_store_node _ _ _ _ _ Hn). case_decide as Hx.
  - subst. rewrite Hn, Hp, (outer_at_store_node _ _ _ _ _ Hn).
    destruct (outer_at h (params n)); [|done].
    by rewrite (dict_at_store_node _ _ _ _ _ Hn).
  - destruct (node_at h x); [|done].
    rewrite (outer_at_store_node _ _ _ _ _ Hn).
    destruct (outer_at h _); [|done].
    by rewrite (dict_at_store_node _ _ _ _ _ Hn).
Qed.

Lemma calculate_param_size_run h g node n (dG dP : dict) :
  node_at h node = Some n ->
  read_group h node GET = Some dG -> read_group h node POST = Some dP ->
  calculate_param_size node (h, g)
  = Ok (tt, (<[node := ONode (with_size n (length dG + length dP))]> h, g)).
Proof.
  intros Hn HG HP. unfold calculate_param_size.
  rewrite (bind_Ok _ _ _ _ _ (len_params_run _ g _ _ _ HG)).
  rewrite (bind_Ok _ _ _ _ _ (len_params_run _ g _ _ _ HP)).
  rewrite (bind_Ok _ _ _ _ _ (get_node_run _ g _ _ Hn)).
  apply store_run. by eapply node_at_lt.
Qed.

(** The end of [mutate], after either path. *)
Lemma finish_run (path : M unit) H1 g1 H2 g2 new n2 (dG dP : dict) :
  path (H1, g1) = Ok (tt, (H2, g2)) ->
  node_at H2 new = Some n2 ->
  read_group H2 new GET = Some dG -> read_group H2 new POST = Some dP ->
  exists h',
    (path ;;; calculate_param_size new ;;; ret new) (H1, g1)
    = Ok (new, (h', g2)) /\
    node_at h' new = Some (with_size n2 (length dG + length dP)) /\
    read_group h' new GET = Some dG /\ read_group h' new POST = Some dP.
Proof.
  intros Hpath Hn HG HP.
  exists (<[new := ONode (with_size n2 (length dG + length dP))]> H2).
  split.
  { rewrite (bind_Ok _ _ _ _ _ Hpath).
    by rewrite (bind_Ok _ _ _ _ _
                  (calculate_param_size_run _ g2 _ _ _ _ Hn HG HP)). }
  split.
  { rewrite (node_at_store_node _ _ _ _ _ Hn). by rewrite decide_True. }
  by rewrite !(read_group_store_node _ _ _ (with_size n2 _) _ _ Hn eq_refl).
Qed.

(** The weighted coin of [mutate]. *)
Lemma coin_run {A} (a b : A) h g :
  Random.choices [a; b] [80; 20] (h, g)
  = Ok (if g 0 mod 100 <? 80 then a else b, (h, advance g)).
Proof.
  unfold Random.choices. cbn -[Nat.modulo Nat.ltb].
  unfold bind. cbn -[Nat.modulo Nat.ltb].
  by destruct (g 0 mod 100 <? 80).
Qed.

Lemma bind_bind_Ok {A B C} (m : M A) (k1 : A -> M B) (k2 : B -> M C)
    st a st' :
  m st = Ok (a, st') -> bind (bind m k1) k2 st = bind (k1 a) k2 st'.
Proof. unfold bind. by intros ->. Qed.

Section mutate_total.

Variables (self : Mutator) (from : loc) (corpus : list loc) (h : heap)
          (fn : Node).

Hypothesis xss_ok : Payloads_ok (xss_payloads self).
Hypothesis syntax_ok : Payloads_ok (syntax_tokens self).
Hypothesis from_wf : wf_node h from.
Hypothesis from_node : node_at h from = Some fn.
Hypothesis corpus_readable : Forall (readable2 h) corpus.

#[local] Abbreviation new := (S (S (S (length h)))).
#[local] Abbreviation h1 := (constructed h (url fn) (method fn) (Some from)).
#[local] Abbreviation nn0 :=
  (mkNode (url fn) (method fn) (S (S (length h))) 0 (Some from)).

#[local] Abbreviation built := (built from h fn).

Lemma mutate_start g :
  mutate self from corpus (h, g)
  = ((if size fn =? 0 then cross_over from corpus new
      else
        let* choice :=
          Random.choices [per_param_mutate self; all_param_mutate self]
                         [80; 20] in
        choice from new corpus) ;;;
     calculate_param_size new ;;; ret new) (h1, g).
Proof.
  unfold mutate.
  rewrite (bind_Ok _ _ _ _ _ (get_node_run _ g _ _ from_node)).
  rewrite (bind_Ok _ _ _ _ _ (Node_init_run _ _ _ _ _)).
  by rewrite (bind_Ok _ _ _ _ _
                (get_node_run h1 g _ _ (node_at_app _ _ _ _ from_node))).
Qed.

Lemma finish_built (path : M unit) g1 H2 g2 n2 (dG dP : dict) :
  path (h1, g1) = Ok (tt, (H2, g2)) ->
  node_at H2 new = Some n2 ->
  url n2 = url fn -> method n2 = method fn ->
  parent_request n2 = Some from ->
  read_group H2 new GET = Some dG -> read_group H2 new POST = Some dP ->
  exists h' g' nn,
    (path ;;; calculate_param_size new ;;; ret new) (h1, g1)
    = Ok (new, (h', g')) /\ built h' nn.
Proof.
  intros Hpath Hn Hu Hm Hp HG HP.
  destruct (finish_run path h1 g1 H2 g2 new n2 dG dP Hpath Hn HG HP)
    as (h' & Hrun & Hn' & HG' & HP').
  exists h', g2, (with_size n2 (length dG + length dP)).
  split; [done|]. split; [done|]. do 3 (split; [done|]).
  split; [split; eexists; eassumption|].
  unfold nparams. by rewrite HG', HP'.
Qed.

Lemma cross_over_built g1 :
  exists h' g' nn,
    (cross_over from corpus new ;;; calculate_param_size new ;;; ret new)
      (h1, g1)
    = Ok (new, (h', g')) /\ built h' nn.
Proof.
  destruct (constructed_views h (url fn) (method fn) (Some from))
    as (Hnew & _).
  assert (readable2 h1 from) as Hs.
  { apply readable2_app.
    destruct (wf_node_read_group _ _ GET from_wf) as (? & ? & _ & _ & ? & _).
    destruct (wf_node_read_group _ _ POST from_wf) as (? & ? & _ & _ & ? & _).
    split; eexists; eassumption. }
  assert (Forall (readable2 h1) corpus) as Hc.
  { eapply Forall_impl; [exact corpus_readable|].
    intros c. apply readable2_app. }
  destruct (cross_over_run h1 g1 from corpus new nn0 Hs Hnew Hc)
    as (H2 & p' & a' & b' & fA & fB & Hrun & _ & Hn2 & Hp2 & Ha2 & Hb2 & _).
  eapply (finish_built _ g1 H2 g1 (with_params nn0 p') fA fB);
    try done.
  - by eapply (read_group_of_parts _ _ _ _ _ _ GET).
  - by eapply (read_group_of_parts _ _ _ _ _ _ POST).
Qed.

Lemma per_param_built g1 :
  exists h' g' nn,
    (per_param_mutate self from new corpus ;;;
     calculate_param_size new ;;; ret new) (h1, g1)
    = Ok (new, (h', g')) /\ built h' nn.
Proof.
  destruct (constructed_views h (url fn) (method fn) (Some from))
    as (Hnew & Hout & _).
  assert (params fn <> params nn0) as Hshare.
  { destruct from_wf as (n & a & b & _ & _ & Hn & Hp & _).
    assert (n = fn) as -> by congruence.
    apply outer_at_lt in Hp. cbn. lia. }
  destruct (per_param_mutate_run self xss_ok syntax_ok from new corpus h1 g1
              fn nn0 (wf_node_app _ _ _ from_wf)
              (node_at_app _ _ _ _ from_node) Hnew Hshare
              ltac:(by eexists))
    as (H2 & g2 & dG & dP & dG' & dP' & Hrun & _ & _ & HG & HP & _ & _ & _
        & Hnodes).
  eapply (finish_built _ g1 H2 g2 nn0 dG' dP'); try done.
  by rewrite Hnodes.
Qed.

End mutate_total.

(** C5: [mutate] builds a new node with the url and the method of the
    source node and with the source node as parent.  The test for a
    source without parameters reads its [size], which the nodes keep
    equal to the count of their parameters in both groups: when that
    count is zero [mutate] runs [cross_over]; otherwise a draw [r] in
    [0..99] selects [per_param_mutate] when [r < 80] (weight 80) and
    [all_param_mutate], which runs its only function [cross_over], when
    [80 <= r] (weight 20).  Then the [size] of the new node is set to
    the count of its parameters in both groups, and the new node is
    returned. *)
Theorem mutate_spec (self : Mutator) (from : loc) (corpus : list loc)
    (h : heap) (g : rng) (fn : Node) :
  Payloads_ok (xss_payloads self) -> Payloads_ok (syntax_tokens self) ->
  wf_node h from -> node_at h from = Some fn ->
  size fn = nparams h GET from + nparams h POST from ->
  Forall (readable2 h) corpus ->
  let total := nparams h GET from + nparams h POST from in
  let new := S (S (S (length h))) in
  let h1 := constructed h (url fn) (method fn) (Some from) in
  let finish (path : M unit) : M loc :=
    path ;;; calculate_param_size new ;;; ret new in
  (exists h' g' nn,
      mutate self from corpus (h, g) = Ok (new, (h', g')) /\
      node_at h' new = Some nn /\
      url nn = url fn /\ method nn = method fn /\
      parent_request nn = Some from /\
      readable2 h' new /\
      size nn = nparams h' GET new + nparams h' POST new) /\
  (total = 0 ->
   mutate self from corpus (h, g)
   = finish (cross_over from corpus new) (h1, g)) /\
  (total <> 0 -> g 0 mod (80 + 20) < 80 ->
   mutate self from corpus (h, g)
   = finish (per_param_mutate self from new corpus) (h1, advance g)) /\
  (total <> 0 -> 80 <= g 0 mod (80 + 20) ->
   mutate self from corpus (h, g)
   = finish (all_param_mutate self from new corpus) (h1, advance g) /\
   mutate self from corpus (h, g)
   = finish (cross_over from corpus new) (h1, advance (advance g))).
Proof.
  intros Hxss Hsyn Hwf Hfrom Hsize Hcorpus total new h1 finish.
  subst total. rewrite <- Hsize. change (80 + 20) with 100.
  assert (size fn = 0 ->
          mutate self from corpus (h, g)
          = finish (cross_over from corpus new) (h1, g)) as E0.
  { intros Hz. rewrite (mutate_start _ _ _ _ _ Hfrom). by rewrite Hz. }
  assert (size fn <> 0 -> g 0 mod 100 < 80 ->
          mutate self from corpus (h, g)
          = finish (per_param_mutate self from new corpus) (h1, advance g))
    as E1.
  { intros Hz Hr. rewrite (mutate_start _ _ _ _ _ Hfrom).
    destruct (Nat.eqb_spec (size fn) 0); [done|].
    rewrite (bind_bind_Ok _ _ _ _ _ _ (coin_run _ _ _ _)).
    by destruct (Nat.ltb_spec (g 0 mod 100) 80); [|lia]. }
  assert (size fn <> 0 -> 80 <= g 0 mod 100 ->
          mutate self from corpus (h, g)
          = finish (all_param_mutate self from new corpus) (h1, advance g))
    as E2.
  { intros Hz Hr. rewrite (mutate_start _ _ _ _ _ Hfrom).
    destruct (Nat.eqb_spec (size fn) 0); [done|].
    rewrite (bind_bind_Ok _ _ _ _ _ _ (coin_run _ _ _ _)).
    by destruct (Nat.ltb_spec (g 0 mod 100) 80); [lia|]. }
  assert (finish (all_param_mutate self from new corpus) (h1, advance g)
          = finish (cross_over from corpus new) (h1, advance (advance g)))
    as E3.
  { unfold finish, all_param_mutate.
    assert (Random.choice [cross_over] (h1, advance g)
            = Ok (cross_over, (h1, advance (advance g)))) as Hc.
    { unfold Random.choice. cbn [length].
      rewrite (bind_Ok _ _ _ _ _ (randbelow_run _ _ _)).
      by rewrite Nat.mod_1_r. }
    by rewrite (bind_bind_Ok _ _ _ _ _ _ Hc). }
  split; [|split; [done|split; [done|]]].
  2:{ intros Hz Hr. split; [by apply E2|]. rewrite <- E3. by apply E2. }
  assert (forall h' nn,
    built from h fn h' nn ->
    node_at h' new = Some nn /\ url nn = url fn /\ method nn = method fn /\
    parent_request nn = Some from /\ readable2 h' new /\
    size nn = nparams h' GET new + nparams h' POST new) as Hbuilt by done.
  destruct (Nat.eq_dec (size fn) 0) as [Hz|Hz].
  - destruct (cross_over_built from corpus h fn Hwf Hcorpus g)
      as (h' & g' & nn & Hrun & Hb).
    exists h', g', nn. rewrite (E0 Hz). split; [exact Hrun|]. by apply Hbuilt.
  - destruct (Nat.lt_ge_cases (g 0 mod 100) 80) as [Hr|Hr].
    + destruct (per_param_built self from corpus h fn Hxss Hsyn Hwf Hfrom
                  (advance g)) as (h' & g' & nn & Hrun & Hb).
      exists h', g', nn. rewrite (E1 Hz Hr). split; [exact Hrun|].
      by apply Hbuilt.
    + destruct (cross_over_built from corpus h fn Hwf Hcorpus
                  (advance (advance g))) as (h' & g' & nn & Hrun & Hb).
      exists h', g', nn. rewrite (E2 Hz Hr), E3. split; [exact Hrun|].
      by apply Hbuilt.
Qed.

(** ** The sample data *)

Lemma sample_mutator_ok :
  Payloads_ok (xss_payloads sample_mutator) /\
  Payloads_ok (syntax_tokens sample_mutator).
Proof.
  split; (split; [vm_compute; lia|]); by repeat constructor.
Defined.

Lemma sample_heap_wf : wf_node sample_heap 11.
Proof.
  exists (mkNode (lit "/a") GET 10 2 None), 8, 9,
    [(lit "id", [lit "1"]); (lit "p[]", [lit "x"; lit "y"])], [].
  repeat split; try reflexivity.
  - apply (bool_decide_unpack _). by vm_compute.
  - apply NoDup_nil_2.
  - discriminate.
Defined.

Lemma sample_corpus_readable : Forall (readable2 sample_heap) [3; 7].
Proof. repeat constructor; eexists; reflexivity. Defined.

Lemma mutate_spec_witness :
  Payloads_ok (xss_payloads sample_mutator) /\
  Payloads_ok (syntax_tokens sample_mutator) /\
  wf_node sample_heap 11 /\
  2 = nparams sample_heap GET 11 + nparams sample_heap POST 11 /\
  Forall (readable2 sample_heap) [3; 7] /\
  exists h' g' nn,
    mutate sample_mutator 11 [3; 7] (sample_heap, list_rng [0; 35; 105])
    = Ok (15, (h', g')) /\
    node_at h' 15 = Some nn /\ url nn = lit "/a" /\ method nn = GET /\
    parent_request nn = Some 11.
Proof.
  destruct sample_mutator_ok as [Hxss Hsyn].
  split; [exact Hxss|]. split; [exact Hsyn|].
  split; [exact sample_heap_wf|]. split; [reflexivity|].
  split; [exact sample_corpus_readable|].
  destruct (mutate_spec sample_mutator 11 [3; 7] sample_heap
              (list_rng [0; 35; 105]) (mkNode (lit "/a") GET 10 2 None)
              Hxss Hsyn sample_heap_wf eq_refl eq_refl
              sample_corpus_readable)
    as ((h' & g' & nn & Hrun & Hn & Hu & Hm & Hp & _) & _).
  exists h', g', nn. by repeat split.
Defined.

Lemma per_param_mutate_count_witness :
  Payloads_ok (xss_payloads sample_mutator) /\
  Payloads_ok (syntax_tokens sample_mutator) /\
  wf_node sample_heap 11 /\
  exists h' g',
    per_param_mutate sample_mutator 11 3 [] (sample_heap, list_rng [35; 105])
    = Ok (tt, (h', g')) /\
    nparams h' GET 3 <= nparams sample_heap GET 11.
Proof.
  destruct sample_mutator_ok as [Hxss Hsyn].
  split; [exact Hxss|]. split; [exact Hsyn|].
  split; [exact sample_heap_wf|].
  destruct (per_param_mutate_count sample_mutator 11 3 [] sample_heap
              (list_rng [35; 105]) (mkNode (lit "/a") GET 10 2 None)
              (mkNode (lit "/x") GET 2 1 None)
              Hxss Hsyn sample_heap_wf eq_refl eq_refl
              ltac:(eexists; reflexivity) ltac:(discriminate))
    as (h' & g' & Hrun & Hcount).
  exists h', g'. split; [exact Hrun|]. apply (Hcount GET).
Defined.

(** Two names that meet in one key: with the source parameters
    [id] and [id[]], renaming [id] to [id[]] (strategy [alter_type]) and
    keeping [id[]] (strategy [skip_param]) leaves one parameter. *)
Example per_param_mutate_merges :
  let h := [ ODict [(lit "id", [lit "1"]); (lit "id[]", [lit "2"])];
             ODict []; OParams 0 1;
             ONode (mkNode (lit "/a") GET 2 2 None);
             ODict []; ODict []; OParams 4 5;
             ONode (mkNode (lit "/a") GET 6 0 (Some 3)) ] in
  exists h' g',
    per_param_mutate sample_mutator 3 7 [] (h, list_rng [35; 105])
    = Ok (tt, (h', g')) /\
    read_group h' 7 GET = Some [(lit "id[]", [lit "2"])].
Proof. eexists _, _. split; reflexivity. Qed.

(** The end-to-end scenario of the source node [/a] with the single
    parameter [id] and an empty corpus, on the whole-node path. *)
Example mutate_whole_node_scenario :
  let h := [ ODict [(lit "id", [lit "1"])]; ODict []; OParams 0 1;
             ONode (mkNode (lit "/a") GET 2 1 None) ] in
  exists h' g',
    mutate sample_mutator 3 [] (h, list_rng [90; 0]) = Ok (7, (h', g')) /\
    read_group h' 7 GET = Some [(lit "id", [lit "1"])] /\
    read_group h' 7 POST = Some [] /\
    size <$> node_at h' 7 = Some 1.
Proof. eexists _, _. repeat split; reflexivity. Qed.

(** Donor selection when the stronger condition never fires: the
    candidate at 11 has more parameters than the donor at 3 but the url
    of the target, so it only replaces the donor through the weaker
    condition, and the scan runs to the end. *)
Example select_last_weak_candidate :
  select_favourable_node [3; 11] 11 GET (sample_heap, constant_rng 0)
  = Ok (Some 11, (sample_heap, constant_rng 0)).
Proof. reflexivity. Qed.

(** The stronger condition stops the scan: the candidate at 7 has more
    parameters than the donor at 3 and another url than the target, and
    the candidate at 11 after it is not looked at. *)
Example select_first_strong_candidate :
  select_favourable_node [3; 7; 11] 11 GET (sample_heap, constant_rng 0)
  = Ok (Some 7, (sample_heap, constant_rng 0)).
Proof. reflexivity. Qed.

(* ================================================================== *)
(** * Further properties of the module *)
(* ================================================================== *)

(** ** [alter_type] on every name *)

(** Either some suffix of [s] starts with a match, or none does. *)
Lemma match_somewhere_dec re s :
  (exists i n, Re.match_here re (drop i s) = Some n) \/
  (forall i, Re.match_here re (drop i s) = None).
Proof.
  induction s as [|c s IH].
  - destruct (Re.match_here re []) as [n|] eqn:E.
    + left. by exists 0, n.
    + right. intros i. by rewrite drop_nil.
  - destruct (Re.match_here re (c :: s)) as [n|] eqn:E.
    + left. by exists 0, n.
    + destruct IH as [(i & n & Hi)|Hnone].
      * left. by exists (S i), n.
      * right. intros [|i]; [done|apply Hnone].
Qed.

(** A name carries a group, or it does not. *)
Lemma has_group_dec param :
  (exists base inner tail, has_group param base inner tail) \/
  (forall base inner tail, ~ has_group param base inner tail).
Proof.
  destruct (match_somewhere_dec array_access param) as [(i & n & Hi)|Hnone].
  - left. apply match_array_access_inv in Hi
      as (inner & tail & Heq & Hin & Htail & _).
    exists (take i param), inner, tail. repeat split; [|done..].
    by rewrite <- Heq, take_drop.
  - right. intros base inner tail (-> & Hin & Htail).
    specialize (Hnone (length base)).
    rewrite drop_app_length in Hnone.
    by rewrite match_array_access_group in Hnone.
Qed.

(** X1: [alter_type] never returns the name it was given: the name gets
    shorter (a group is stripped) or two characters longer, so in
    [per_param_mutate] the old key of a parameter handled by
    [alter_type] is always deleted.  The values are returned as they
    are. *)
Theorem alter_type_changes_name (param : str) (val : list str) :
  (alter_type param val).1 <> param /\
  length (alter_type param val).1 <> length param /\
  (alter_type param val).2 = val.
Proof.
  assert (length (alter_type param val).1 <> length param /\
          (alter_type param val).2 = val) as [Hlen Hval].
  { destruct (has_group_dec param) as [(base & inner & tail & Hg)|Hno].
    - rewrite (alter_type_strip _ _ _ _ _ Hg). destruct Hg as (-> & _).
      cbn [fst snd]. split; [|done].
      rewrite !length_app. cbn [length]. rewrite length_app. cbn [length]. lia.
    - rewrite (alter_type_append _ _ Hno). cbn [fst snd]. split; [|done].
      rewrite length_app. cbn. lia. }
  split; [|done]. intros Heq. by rewrite Heq in Hlen.
Qed.

(** X2: two applications of [alter_type] give the name back exactly in
    two cases: the name carries no group (the added [[]] is stripped
    again), or it is a name without group followed by the empty group
    [[]] at its very end (the stripped [[]] is added again). *)
Theorem alter_type_twice_iff (param : str) (val : list str) :
  alter_type (alter_type param val).1 (alter_type param val).2 = (param, val)
  <->
  (forall base inner tail, ~ has_group param base inner tail) \/
  (exists base, param = base ++ lit "[]" /\
                forall b i t, ~ has_group base b i t).
Proof.
  split.
  - intros Hid.
    destruct (has_group_dec param) as [(base & inner & tail & Hg)|Hno];
      [|by left].
    right. rewrite (alter_type_strip _ _ _ _ _ Hg) in Hid. cbn [fst snd] in Hid.
    destruct Hg as (-> & Hin & Htail).
    destruct (has_group_dec (base ++ tail)) as [(b & i & t & Hg2)|Hno2].
    + rewrite (alter_type_strip _ _ _ _ _ Hg2) in Hid.
      injection Hid as Hid. destruct Hg2 as (Heq2 & _).
      apply (f_equal length) in Hid. apply (f_equal length) in Heq2.
      rewrite !length_app in Hid, Heq2. cbn [length] in Hid, Heq2.
      rewrite !length_app in Hid, Heq2. cbn [length] in Hid, Heq2. lia.
    + rewrite (alter_type_append _ _ Hno2) in Hid. injection Hid as Hid.
      rewrite <- app_assoc in Hid. apply app_inv_head in Hid.
      destruct Htail as [-> | ->].
      * cbn in Hid. injection Hid as Hid. destruct inner as [|c inner].
        -- exists base. split; [done|]. by rewrite app_nil_r in Hno2.
        -- injection Hid as -> Hid. by destruct inner.
      * by cbn in Hid.
  - intros [Hno|(base & -> & Hno)].
    + rewrite (alter_type_append _ _ Hno). cbn [fst snd].
      rewrite (alter_type_strip (param ++ lit "[]") param [] [] val);
        [by rewrite app_nil_r|].
      split; [done|]. split; [apply not_elem_of_nil|by left].
    + rewrite (alter_type_strip (base ++ lit "[]") base [] [] val).
      * cbn [fst snd]. rewrite app_nil_r. by rewrite (alter_type_append _ _ Hno).
      * split; [done|]. split; [apply not_elem_of_nil|by left].
Qed.

(** ** Weighted draws *)

(** The index [random.choices] selects for the draw [x]: the item whose
    stretch of the cumulative weights holds [x]; its weight is positive. *)
Lemma bisect_accumulate ws :
  forall acc x,
    acc <= x < acc + sum_list ws ->
    exists w,
      ws !! Random.bisect (take (length ws - 1) (Random.accumulate_from acc ws)) x
      = Some w /\
      acc + sum_list
              (take (Random.bisect
                       (take (length ws - 1) (Random.accumulate_from acc ws)) x)
                    ws) <= x /\
      x < acc + sum_list
                  (take (Random.bisect
                           (take (length ws - 1)
                                 (Random.accumulate_from acc ws)) x) ws) + w.
Proof.
  induction ws as [|w ws IH]; intros acc x Hx; [cbn in Hx; lia|].
  replace (length (w :: ws) - 1) with (length ws) by (cbn [length]; lia).
  cbn [Random.accumulate_from].
  destruct ws as [|w' ws].
  - cbn. exists w. cbn in Hx. split; [done|]. lia.
  - cbn [length take Random.bisect].
    destruct (Nat.ltb_spec x (acc + w)).
    + exists w. cbn. split; [done|]. lia.
    + destruct (IH (acc + w) x) as (w0 & Hw0 & Hlo & Hhi).
      { simpl in Hx |- *. lia. }
      replace (length (w' :: ws) - 1) with (length ws) in Hw0, Hlo, Hhi
        by (cbn [length]; lia).
      exists w0. split; [exact Hw0|].
      change (take (S ?n) (w :: ?l)) with (w :: take n l).
      change (sum_list (w :: ?l)) with (w + sum_list l). lia.
Qed.

(** A weighted draw returns the item at an index of positive weight. *)
Lemma choices_positive {A} (population : list A) (weights : list nat) h g :
  length weights = length population ->
  0 < sum_list weights ->
  exists i x w,
    population !! i = Some x /\ weights !! i = Some w /\ 0 < w /\
    sum_list (take i weights) <= g 0 mod sum_list weights
      < sum_list (take i weights) + w /\
    Random.choices population weights (h, g) = Ok (x, (h, advance g)).
Proof.
  intros Hlen Hsum. unfold Random.choices, Random.accumulate.
  rewrite accumulate_from_length, Hlen, Nat.eqb_refl. cbn [negb].
  destruct weights as [|w0 ws]; [cbn in Hsum; lia|].
  rewrite accumulate_from_last. cbn [Nat.add].
  destruct (Nat.eqb_spec (sum_list (w0 :: ws)) 0) as [E|_]; [lia|].
  rewrite (bind_Ok _ _ _ _ _ (randbelow_run _ _ _)).
  set (r := g 0 mod sum_list (w0 :: ws)).
  assert (r < sum_list (w0 :: ws)) as Hr by (apply Nat.mod_upper_bound; lia).
  destruct (bisect_accumulate (w0 :: ws) 0 r ltac:(lia))
    as (w & Hw & Hlo & Hhi).
  rewrite <- Hlen.
  set (i := Random.bisect _ r) in *.
  destruct (lookup_lt_is_Some_2 population i) as [x Hx].
  { rewrite <- Hlen. by eapply lookup_lt_Some. }
  rewrite Hx. exists i, x, w. repeat split; try done; lia.
Qed.

(** X3: a category of weight zero is never drawn.  So a collection of
    positive total weight yields a payload, for every state of the
    generator, as soon as its categories of positive weight are not
    empty; an empty category of weight zero does no harm. *)
Theorem payload_skips_weightless (self : Payloads) (h : heap) (g : rng) :
  0 < sum_list (Payloads_weights self) ->
  (forall kind, kind ∈ self -> 0 < Kind_weight kind ->
                Kind_payloads kind <> []) ->
  exists kind x,
    kind ∈ self /\ 0 < Kind_weight kind /\ x ∈ Kind_payloads kind /\
    Random.choices self (Payloads_weights self) (h, g)
    = Ok (kind, (h, advance g)) /\
    Payloads_payload self (h, g) = Ok (x, (h, advance (advance g))).
Proof.
  intros Hsum Hne.
  destruct (choices_positive self (Payloads_weights self) h g
              (Payloads_weights_length self) Hsum)
    as (i & kind & w & Hk & Hw & Hpos & _ & Hrun).
  unfold Payloads_weights in Hw. rewrite list_lookup_fmap, Hk in Hw.
  injection Hw as <-.
  assert (kind ∈ self) as Hin by by eapply list_elem_of_lookup_2.
  destruct (choice_run _ h (advance g) (Hne kind Hin Hpos))
    as (x & Hx & Hrun').
  exists kind, x. repeat split; try done.
  unfold Payloads_payload. by rewrite (bind_Ok _ _ _ _ _ Hrun).
Qed.

Lemma payload_skips_weightless_witness :
  exists kind x,
    kind ∈ [mkKind 0 []; mkKind 5 [lit "a"]] /\ 0 < Kind_weight kind /\
    x ∈ Kind_payloads kind /\
    Payloads_payload [mkKind 0 []; mkKind 5 [lit "a"]] ([], constant_rng 0)
    = Ok (x, ([], advance (advance (constant_rng 0)))).
Proof.
  destruct (payload_skips_weightless [mkKind 0 []; mkKind 5 [lit "a"]] []
              (constant_rng 0) ltac:(vm_compute; lia))
    as (kind & x & Hin & Hpos & Hx & _ & Hrun).
  - intros kind Hin Hpos.
    apply elem_of_cons in Hin as [->|Hin]; [cbn in Hpos; lia|].
    apply list_elem_of_singleton in Hin as ->. discriminate.
  - by exists kind, x.
Defined.

(** X4: a collection without weight cannot be drawn from: the draw
    raises [IndexError] for the empty collection and [ValueError] for a
    collection whose weights are all zero, whatever its categories
    hold. *)
Theorem payload_without_weight (self : Payloads) (st : state) :
  sum_list (Payloads_weights self) = 0 ->
  Payloads_payload self st
  = Raise (match self with [] => IndexError | _ => ValueError end).
Proof.
  intros Hsum. unfold Payloads_payload, Random.choices, Random.accumulate.
  rewrite accumulate_from_length, Payloads_weights_length, Nat.eqb_refl.
  cbn [negb]. destruct self as [|kind self]; [done|].
  change (Payloads_weights (kind :: self))
    with (Kind_weight kind :: Payloads_weights self) in *.
  rewrite accumulate_from_last, Hsum. reflexivity.
Qed.

Lemma payload_without_weight_witness :
  Payloads_payload [mkKind 0 [lit "a"]] ([], constant_rng 7)
  = Raise ValueError.
Proof.
  exact (payload_without_weight [mkKind 0 [lit "a"]] ([], constant_rng 7)
           eq_refl).
Defined.

(** X5: the weights of the registry sum to 110, and a draw [r] in
    [0..109] selects [add_xss_payload] for [r < 30], [alter_type] for
    [30 <= r < 40], [add_random_text] for [40 <= r < 90],
    [add_syntax_token] for [90 <= r < 100] and [skip_param] for
    [100 <= r]; the draw always returns and takes one draw from the
    generator. *)
Theorem mutator_draw_ranges (self : Mutator) (h : heap) (g : rng) :
  sum_list (MutateFunctions_weights (per_param_mutators self)) = 110 /\
  MutateFunctions_mutator (per_param_mutators self) (h, g)
  = Ok (let r := g 0 mod 110 in
        if r <? 30 then add_xss_payload self
        else if r <? 40 then (fun param val => ret (alter_type param val))
        else if r <? 90 then add_random_text
        else if r <? 100 then add_syntax_token self
        else (fun param val => ret (skip_param param val)),
        (h, advance g)).
Proof.
  split; [reflexivity|].
  unfold MutateFunctions_mutator, Random.choices.
  cbn -[Nat.modulo Nat.ltb add_xss_payload add_syntax_token add_random_text].
  unfold bind. cbn -[Nat.modulo Nat.ltb add_xss_payload add_syntax_token
                     add_random_text].
  repeat (destruct (_ <? _); [reflexivity|]). reflexivity.
Qed.

(** ** [random_string] *)

Lemma iter_advance n g :
  Nat.iter n advance (advance g) = Nat.iter (S n) advance g.
Proof.
  induction n as [|n IH]; [done|].
  change (Nat.iter (S n) advance (advance g))
    with (advance (Nat.iter n advance (advance g))).
  by rewrite IH.
Qed.

(** X6: [random_string(n)] always returns, for every [n] and every state
    of the generator: a string of exactly [n] characters, each from the
    68 characters of the alphabet, after [n] draws; for [n = 0] it is
    the empty string. *)
Theorem random_string_length (n : nat) (h : heap) (g : rng) :
  length alphabet = 68 /\
  exists s,
    random_string n (h, g) = Ok (s, (h, Nat.iter n advance g)) /\
    length s = n /\ Forall (fun c => c ∈ alphabet) s /\
    (n = 0 -> s = []).
Proof.
  split; [reflexivity|]. unfold random_string.
  revert g. induction n as [|n IH]; intros g.
  - exists []. by repeat split.
  - cbn [Random.choices_k].
    rewrite (bind_Ok _ _ _ _ _ (randbelow_run _ _ _)).
    assert (g 0 mod length alphabet < length alphabet) as Hi
      by (apply Nat.mod_upper_bound; by vm_compute).
    destruct (lookup_lt_is_Some_2 _ _ Hi) as [c Hc]. rewrite Hc.
    destruct (IH (advance g)) as (s & Hrun & Hlen & Hall & _).
    rewrite (bind_Ok _ _ _ _ _ Hrun).
    exists (c :: s). split.
    { unfold ret. by rewrite iter_advance. }
    split; [cbn; by rewrite Hlen|]. split; [|done].
    constructor; [by eapply list_elem_of_lookup_2|done].
Qed.

(** ** When every draw returns *)

Lemma sum_take_le (ws : list nat) i j :
  i <= j -> sum_list (take i ws) <= sum_list (take j ws).
Proof.
  revert i j. induction ws as [|w ws IH]; intros i j Hij.
  - by rewrite !take_nil.
  - destruct i as [|i]; [cbn; lia|]. destruct j as [|j]; [lia|].
    cbn [take]. change (sum_list (w :: ?l)) with (w + sum_list l).
    specialize (IH i j ltac:(lia)). lia.
Qed.

Lemma sum_take_S (ws : list nat) i w :
  ws !! i = Some w -> sum_list (take (S i) ws) = sum_list (take i ws) + w.
Proof.
  intros Hw. rewrite (take_S_r _ _ _ Hw). rewrite sum_list_with_app. cbn. lia.
Qed.

Lemma sum_take_total (ws : list nat) i :
  sum_list (take i ws) <= sum_list ws.
Proof.
  rewrite <- (take_drop i ws) at 2. rewrite sum_list_with_app. lia.
Qed.

(** The draw that starts the stretch of the item at [i] selects it. *)
Lemma choices_hits {A} (population : list A) (weights : list nat) h i x w :
  length weights = length population ->
  population !! i = Some x -> weights !! i = Some w -> 0 < w ->
  Random.choices population weights
    (h, constant_rng (sum_list (take i weights)))
  = Ok (x, (h, advance (constant_rng (sum_list (take i weights))))).
Proof.
  intros Hlen Hx Hw Hpos.
  assert (sum_list (take i weights) + w <= sum_list weights) as Htot.
  { rewrite <- (sum_take_S _ _ _ Hw). apply sum_take_total. }
  destruct (choices_positive population weights h
              (constant_rng (sum_list (take i weights))) Hlen ltac:(lia))
    as (i' & x' & w' & Hx' & Hw' & Hpos' & [Hlo Hhi] & Hrun).
  unfold constant_rng in Hlo, Hhi. rewrite Nat.mod_small in Hlo, Hhi by lia.
  assert (i' = i) as ->.
  { destruct (Nat.lt_trichotomy i' i) as [Hlt|[->|Hgt]]; [|done|].
    - pose proof (sum_take_le weights (S i') i ltac:(lia)) as Hle.
      rewrite (sum_take_S _ _ _ Hw') in Hle. lia.
    - pose proof (sum_take_le weights (S i) i' ltac:(lia)) as Hle.
      rewrite (sum_take_S _ _ _ Hw) in Hle. lia. }
  by assert (x' = x) as -> by congruence.
Qed.

(** The state that reaches the category at index [i]: an empty one
    makes the draw raise. *)
Lemma empty_kind_reached (self : Payloads) i kind :
  self !! i = Some kind -> 0 < Kind_weight kind -> Kind_payloads kind = [] ->
  Payloads_payload self
    ([], constant_rng (sum_list (take i (Payloads_weights self))))
  = Raise IndexError.
Proof.
  intros Hk Hpos Hempty.
  assert (Payloads_weights self !! i = Some (Kind_weight kind)) as Hw.
  { unfold Payloads_weights. by rewrite list_lookup_fmap, Hk. }
  unfold Payloads_payload.
  rewrite (bind_Ok _ _ _ _ _
             (choices_hits self (Payloads_weights self) [] i kind _
                (Payloads_weights_length self) Hk Hw Hpos)).
  by rewrite Hempty.
Qed.

(** A collection of positive weights always draws exactly when no
    category is empty. *)
Lemma always_draws_iff (self : Payloads) :
  self <> [] ->
  Forall (fun kind => 0 < Kind_weight kind) self ->
  (forall st, exists x st', Payloads_payload self st = Ok (x, st'))
  <-> Forall (fun kind => Kind_payloads kind <> []) self.
Proof.
  intros Hne Hpos. split.
  - intros Hdraws. apply Forall_lookup. intros i kind Hk Hempty.
    rewrite Forall_lookup in Hpos. specialize (Hpos i kind Hk).
    destruct (Hdraws ([], constant_rng
                            (sum_list (take i (Payloads_weights self)))))
      as (x & st' & Hrun).
    by rewrite (empty_kind_reached self i kind Hk Hpos Hempty) in Hrun.
  - intros Hall [h g].
    destruct (Payloads_payload_run self h g) as (kind & x & _ & _ & Hrun).
    + split; [|done]. destruct self as [|kind self]; [done|].
      apply Forall_cons in Hpos as [Hk _].
      change (Payloads_weights (kind :: self))
        with (Kind_weight kind :: Payloads_weights self).
      cbn. lia.
    + eauto.
Qed.

(** X9: for a collection whose categories all have a positive weight,
    every draw returns a payload exactly when no category is empty: an
    empty category at index [i] is reached by the generator whose draw
    is the sum of the weights before [i], and the draw then raises
    [IndexError]. *)
Theorem payload_always_draws_iff (self : Payloads) :
  self <> [] ->
  Forall (fun kind => 0 < Kind_weight kind) self ->
  ((forall st, exists x st', Payloads_payload self st = Ok (x, st'))
   <-> Forall (fun kind => Kind_payloads kind <> []) self) /\
  (forall i kind,
      self !! i = Some kind -> Kind_payloads kind = [] ->
      Payloads_payload self
        ([], constant_rng (sum_list (take i (Payloads_weights self))))
      = Raise IndexError).
Proof.
  intros Hne Hpos. split; [by apply always_draws_iff|].
  intros i kind Hk Hempty. apply (empty_kind_reached self i kind Hk); [|done].
  rewrite Forall_lookup in Hpos. by apply (Hpos i).
Qed.

Lemma payload_always_draws_iff_witness :
  Payloads_payload [mkKind 30 [lit "<x>"]; mkKind 70 []]
    ([], constant_rng 30)
  = Raise IndexError.
Proof.
  apply (proj2 (payload_always_draws_iff
                  [mkKind 30 [lit "<x>"]; mkKind 70 []]
                  ltac:(discriminate)
                  ltac:(repeat constructor; cbn; lia))
           1 (mkKind 70 []) eq_refl eq_refl).
Defined.

(** ** Reading the payload files *)

Lemma split_not_nil sep s : split sep s <> [].
Proof.
  destruct s as [|c s]; [done|]. cbn [split].
  destruct (Ascii.eqb c sep); [done|]. by destruct (split sep s).
Qed.

Lemma split_no_sep sep l : sep ∉ l -> split sep l = [l].
Proof.
  induction l as [|c l IH]; intros Hl; [done|]. cbn [split].
  destruct (Ascii.eqb_spec c sep) as [->|Hne].
  - exfalso. apply Hl. left.
  - rewrite IH; [done|]. intros Hin. apply Hl. by right.
Qed.

Lemma split_app_sep sep l rest :
  sep ∉ l -> split sep (l ++ sep :: rest) = l :: split sep rest.
Proof.
  induction l as [|c l IH]; intros Hl.
  - cbn [app split]. by rewrite Ascii.eqb_refl.
  - cbn [app split]. destruct (Ascii.eqb_spec c sep) as [->|Hne].
    + exfalso. apply Hl. left.
    + rewrite IH; [done|]. intros Hin. apply Hl. by right.
Qed.

Lemma split_lines_no_sep sep s : Forall (fun l => sep ∉ l) (split sep s).
Proof.
  induction s as [|c s IH]; [repeat constructor; apply not_elem_of_nil|].
  cbn [split]. destruct (Ascii.eqb_spec c sep) as [->|Hne].
  - constructor; [apply not_elem_of_nil|done].
  - destruct (split sep s) as [|l ls].
    + repeat constructor. intros Hin.
      apply list_elem_of_singleton in Hin. done.
    + apply Forall_cons in IH as [Hl Hls]. constructor; [|done].
      intros Hin. apply elem_of_cons in Hin as [?|?]; done.
Qed.

(** A line holds only characters of the text. *)
Lemma split_elem sep s l x : l ∈ split sep s -> x ∈ l -> x ∈ s.
Proof.
  revert l. induction s as [|c s IH]; intros l Hl Hx.
  - apply list_elem_of_singleton in Hl as ->. done.
  - cbn [split] in Hl. destruct (Ascii.eqb c sep).
    + apply elem_of_cons in Hl as [->|Hl]; [by apply elem_of_nil in Hx|].
      right. by eapply IH.
    + destruct (split sep s) as [|l0 ls] eqn:E.
      * apply list_elem_of_singleton in Hl as ->.
        apply list_elem_of_singleton in Hx as ->. left.
      * apply elem_of_cons in Hl as [->|Hl].
        -- apply elem_of_cons in Hx as [->|Hx]; [left|right].
           apply (IH l0); [left|done].
        -- right. apply (IH l); [by right|done].
Qed.

(** ** Line ends in text mode *)

Lemma universal_newlines_no_cr raw :
  carriage_return ∉ universal_newlines raw.
Proof.
  assert ((carriage_return ∉ universal_newlines raw) /\
          forall c, carriage_return ∉ universal_newlines (c :: raw))
    as [H _]; [|done].
  induction raw as [|a raw [IH1 IH2]].
  - split; [apply not_elem_of_nil|]. intros c. cbn [universal_newlines].
    destruct (Ascii.eqb_spec c carriage_return) as [->|Hne];
      intros Hin; apply list_elem_of_singleton in Hin; [discriminate|].
    by subst.
  - split; [apply IH2|]. intros c.
    change (universal_newlines (c :: a :: raw))
      with (if Ascii.eqb c carriage_return
            then newline :: (if Ascii.eqb a newline
                             then universal_newlines raw
                             else universal_newlines (a :: raw))
            else c :: universal_newlines (a :: raw)).
    destruct (Ascii.eqb_spec c carriage_return) as [->|Hne].
    + intros Hin. apply elem_of_cons in Hin as [Heq|Hin]; [discriminate|].
      destruct (Ascii.eqb a newline); [done|by apply (IH2 a)].
    + intros Hin. apply elem_of_cons in Hin as [Heq|Hin]; [by subst|].
      by apply (IH2 a).
Qed.

(** Characters before the first carriage return are read as they are. *)
Lemma universal_newlines_app t s :
  carriage_return ∉ t ->
  universal_newlines (t ++ s) = t ++ universal_newlines s.
Proof.
  induction t as [|c t IH]; intros Ht; [done|].
  cbn [app universal_newlines].
  destruct (Ascii.eqb_spec c carriage_return) as [->|Hne].
  - exfalso. apply Ht. left.
  - rewrite IH; [done|]. intros Hin. apply Ht. by right.
Qed.

(** Each of the three line ends is read as one newline. *)
Lemma universal_newlines_eol eol s :
  line_end eol -> head s <> Some newline ->
  universal_newlines (eol ++ s) = newline :: universal_newlines s.
Proof.
  intros [->| [->| ->]] Hs.
  - reflexivity.
  - reflexivity.
  - destruct s as [|c s]; [reflexivity|].
    change (universal_newlines ([carriage_return] ++ c :: s))
      with (newline :: (if Ascii.eqb c newline
                        then universal_newlines s
                        else universal_newlines (c :: s))).
    destruct (Ascii.eqb_spec c newline) as [->|Hne]; [done|done].
Qed.

Lemma join_with_head eol t toks tail :
  t <> [] -> head (join_with eol (t :: toks) ++ tail) = head t.
Proof. intros Ht. destruct t; [done|]. by destruct toks. Qed.

(** The text read from payloads joined by one kind of line end. *)
Lemma universal_newlines_join eol toks tail :
  Forall token toks -> toks <> [] -> line_end eol ->
  tail = [] \/ tail = eol ->
  exists tail',
    (tail' = [] \/ tail' = [newline]) /\
    universal_newlines (join_with eol toks ++ tail) = join_lines toks ++ tail'.
Proof.
  intros Htoks Hne Heol Htail.
  induction Htoks as [|t toks (Ht & Hnl & Hcr) Hall IH]; [done|].
  destruct toks as [|t' toks].
  - cbn [join_with join_lines]. rewrite universal_newlines_app by done.
    destruct Htail as [->| ->].
    + exists []. split; [by left|done].
    + exists [newline]. split; [by right|].
      rewrite <- (app_nil_r eol).
      by rewrite universal_newlines_eol.
  - destruct IH as (tail' & Htail' & IH); [done|].
    exists tail'. split; [done|].
    change (join_with eol (t :: t' :: toks))
      with (t ++ eol ++ join_with eol (t' :: toks)).
    change (join_lines (t :: t' :: toks))
      with (t ++ newline :: join_lines (t' :: toks)).
    rewrite <- !app_assoc. rewrite universal_newlines_app by done.
    rewrite universal_newlines_eol, IH; [done..|].
    apply Forall_cons in Hall as [(Ht' & Hnl' & _) _].
    rewrite join_with_head by done.
    destruct t' as [|c t']; [done|]. cbn. intros [= ->]. apply Hnl'. left.
Qed.

(** X7: every payload [read_tokens] returns is a line of the file that
    is not empty: no payload is the empty string, and none holds a
    newline or a carriage return, which text mode reads as a line end.
    [read_tokens] returns exactly when the file opens and decodes; it
    gives no result when [open] or [read] raises. *)
Theorem read_tokens_tokens (dir : str) (fs : files) (filename : str) :
  match read_tokens dir fs filename with
  | Some toks => reads dir fs filename /\ Forall token toks
  | None =>
      fs (dir ++ lit "/" ++ filename) = NoFile \/
      fs (dir ++ lit "/" ++ filename) = NoText
  end.
Proof.
  unfold read_tokens, reads.
  destruct (fs _) as [| |raw]; [by left|by right|].
  split; [by eexists|].
  apply Forall_forall. intros l Hl.
  apply list_elem_of_In, List.filter_In in Hl as [Hl Hne].
  apply list_elem_of_In in Hl.
  split; [by destruct l|]. split.
  - pose proof (split_lines_no_sep newline (universal_newlines raw)) as Hsep.
    rewrite Forall_forall in Hsep. by apply Hsep.
  - intros Hcr. apply (universal_newlines_no_cr raw).
    by eapply split_elem.
Qed.

Lemma filter_tokens toks :
  Forall token toks ->
  List.filter (fun l : str => match l with [] => false | _ => true end) toks
  = toks.
Proof.
  induction 1 as [|t toks [Ht _] _ IH]; [done|].
  cbn [List.filter]. destruct t; [done|]. by rewrite IH.
Qed.

Lemma split_join_lines toks :
  Forall token toks -> toks <> [] -> split newline (join_lines toks) = toks.
Proof.
  induction 1 as [|t toks (_ & Ht & _) Hall IH]; intros Hne; [done|].
  destruct toks as [|t' toks].
  - by apply split_no_sep.
  - change (join_lines (t :: t' :: toks))
      with (t ++ newline :: join_lines (t' :: toks)).
    rewrite split_app_sep by done. by rewrite IH.
Qed.

Lemma split_join_lines_newline toks :
  Forall token toks -> toks <> [] ->
  split newline (join_lines toks ++ [newline]) = toks ++ [[]].
Proof.
  induction 1 as [|t toks (_ & Ht & _) Hall IH]; intros Hne; [done|].
  destruct toks as [|t' toks].
  - cbn [join_lines]. by rewrite split_app_sep.
  - change (join_lines (t :: t' :: toks))
      with (t ++ newline :: join_lines (t' :: toks)).
    rewrite <- app_assoc. cbn [app].
    rewrite split_app_sep by done. by rewrite IH.
Qed.

(** X8: writing payloads one per line and reading them back gives the
    same payloads in the same order, whichever of the line ends [\n],
    [\r\n] and [\r] the file uses between them, with or without a line
    end after the last one, if every payload is a non-empty string
    without newline and without carriage return. *)
Theorem read_tokens_join_lines (dir : str) (fs : files) (filename : str)
    (toks : list str) (eol tail : str) :
  Forall token toks -> line_end eol ->
  tail = [] \/ tail = eol ->
  fs (dir ++ lit "/" ++ filename) = Text (join_with eol toks ++ tail) ->
  read_tokens dir fs filename = Some toks.
Proof.
  intros Htoks Heol Htail Hfs. unfold read_tokens. rewrite Hfs. f_equal.
  destruct toks as [|t toks].
  - cbn [join_with app].
    destruct Htail as [->| ->]; [done|].
    by destruct Heol as [->| [->| ->]].
  - destruct (universal_newlines_join eol (t :: toks) tail Htoks
                ltac:(done) Heol Htail) as (tail' & [->| ->] & ->).
    + rewrite app_nil_r, split_join_lines by done. by apply filter_tokens.
    + rewrite split_join_lines_newline by done.
      rewrite List.filter_app, filter_tokens by done.
      cbn. by rewrite app_nil_r.
Qed.

Lemma read_tokens_join_lines_witness :
  read_tokens (lit "/opt/webFuzz")
    (one_file (lit "/opt/webFuzz/Payloads/Syntax/js")
              (join_with [carriage_return; newline] [lit "';"; lit "//"]
               ++ [carriage_return; newline]))
    (lit "Payloads/Syntax/js")
  = Some [lit "';"; lit "//"].
Proof.
  apply (read_tokens_join_lines _ _ _ [lit "';"; lit "//"]
           [carriage_return; newline] [carriage_return; newline]).
  - repeat constructor; try discriminate;
      apply (bool_decide_unpack _); by vm_compute.
  - right. by left.
  - by right.
  - reflexivity.
Defined.

(** ** [Mutator.__init__] *)

Lemma read_tokens_is_Some dir fs filename :
  is_Some (read_tokens dir fs filename) <-> reads dir fs filename.
Proof.
  unfold read_tokens, reads.
  destruct (fs _); split; intros [x Hx]; by eauto.
Qed.

(** X10: [Mutator.__init__] builds a mutator exactly when each of the
    six payload files opens and decodes.  What the decoded text holds
    plays no role: a file without any payload is accepted. *)
Theorem Mutator_init_opens (dir : str) (fs : files) :
  is_Some (Mutator_init dir fs)
  <-> Forall (reads dir fs) (xss_files ++ syntax_files).
Proof.
  unfold xss_files, syntax_files. cbn [app].
  rewrite !Forall_cons, Forall_nil, <- !read_tokens_is_Some.
  unfold Mutator_init.
  destruct (read_tokens dir fs (lit "Payloads/XSS/attributes"));
    [|split; [by intros [? ?]|by intros ([? ?] & _)]].
  destruct (read_tokens dir fs (lit "Payloads/XSS/dirty"));
    [|split; [by intros [? ?]|by intros (_ & [? ?] & _)]].
  destruct (read_tokens dir fs (lit "Payloads/XSS/well_formed"));
    [|split; [by intros [? ?]|by intros (_ & _ & [? ?] & _)]].
  destruct (read_tokens dir fs (lit "Payloads/Syntax/html"));
    [|split; [by intros [? ?]|by intros (_ & _ & _ & [? ?] & _)]].
  destruct (read_tokens dir fs (lit "Payloads/Syntax/php"));
    [|split; [by intros [? ?]|by intros (_ & _ & _ & _ & [? ?] & _)]].
  destruct (read_tokens dir fs (lit "Payloads/Syntax/js"));
    [|split; [by intros [? ?]|by intros (_ & _ & _ & _ & _ & [? ?] & _)]].
  split; [|by eexists]. intros _. repeat split; by eexists.
Qed.

(** X11: for the mutator [Mutator.__init__] builds, every draw of an XSS
    payload returns exactly when each of the three XSS files holds a
    line that is not empty, and every draw of a syntax token returns
    exactly when each of the three syntax files does: one blank file
    makes some draws raise [IndexError]. *)
Theorem Mutator_init_draws (dir : str) (fs : files) (m : Mutator) :
  Mutator_init dir fs = Some m ->
  (always_draws (xss_payloads m) <-> Forall (has_token dir fs) xss_files) /\
  (always_draws (syntax_tokens m)
   <-> Forall (has_token dir fs) syntax_files).
Proof.
  unfold Mutator_init, has_token, xss_files, syntax_files, always_draws.
  destruct (read_tokens dir fs (lit "Payloads/XSS/attributes"))
    as [a|] eqn:Ea; [|done].
  destruct (read_tokens dir fs (lit "Payloads/XSS/dirty"))
    as [d|] eqn:Ed; [|done].
  destruct (read_tokens dir fs (lit "Payloads/XSS/well_formed"))
    as [w|] eqn:Ew; [|done].
  destruct (read_tokens dir fs (lit "Payloads/Syntax/html"))
    as [h|] eqn:Eh; [|done].
  destruct (read_tokens dir fs (lit "Payloads/Syntax/php"))
    as [p|] eqn:Ep; [|done].
  destruct (read_tokens dir fs (lit "Payloads/Syntax/js"))
    as [j|] eqn:Ej; [|done].
  intros [= <-]. cbn [xss_payloads syntax_tokens].
  split.
  - rewrite (always_draws_iff
               [mkKind 30 a; mkKind 50 d; mkKind 20 w])
      by (done || (repeat constructor; cbn; lia)).
    rewrite !Forall_cons, !Forall_nil. cbn [Kind_payloads].
    rewrite Ea, Ed, Ew. split.
    + intros (Ha & Hd & Hw & _). repeat split; by eexists.
    + intros ((? & [= <-] & ?) & (? & [= <-] & ?) & (? & [= <-] & ?) & _).
      done.
  - rewrite (always_draws_iff
               [mkKind 30 h; mkKind 30 p; mkKind 40 j])
      by (done || (repeat constructor; cbn; lia)).
    rewrite !Forall_cons, !Forall_nil. cbn [Kind_payloads].
    rewrite Eh, Ep, Ej. split.
    + intros (Ha & Hd & Hw & _). repeat split; by eexists.
    + intros ((? & [= <-] & ?) & (? & [= <-] & ?) & (? & [= <-] & ?) & _).
      done.
Qed.

Lemma Mutator_init_draws_witness :
  exists m,
    Mutator_init (lit "/opt") (every_file (lit "<b>")) = Some m /\
    always_draws (xss_payloads m).
Proof.
  eexists. split; [reflexivity|].
  apply (proj1 (Mutator_init_draws (lit "/opt") (every_file (lit "<b>")) _
                  eq_refl)).
  repeat constructor; (eexists; split; [reflexivity|discriminate]).
Defined.

(** ** Dictionaries: lookup after update *)

Lemma dict_get_None k (d : dict) : dict_get k d = None <-> k ∉ d.*1.
Proof.
  induction d as [|[k0 v0] d IH]; cbn [dict_get].
  - split; [intros _; apply not_elem_of_nil|done].
  - cbn. destruct (decide (k0 = k)) as [->|Hne].
    + split; [done|]. intros Hn. exfalso. apply Hn. left.
    + rewrite IH, not_elem_of_cons. split; [by intros ?; split; [congruence|]|by intros [_ ?]].
Qed.

Lemma dict_get_setitem k v (d : dict) k' :
  dict_get k' (Dict.setitem k v d)
  = if decide (k' = k) then Some v else dict_get k' d.
Proof.
  induction d as [|[k0 v0] d IH]; cbn [Dict.setitem dict_get].
  - destruct (decide (k = k')), (decide (k' = k)); congruence.
  - destruct (decide (k0 = k)) as [->|Hne]; cbn [dict_get].
    + destruct (decide (k = k')), (decide (k' = k)); congruence.
    + rewrite IH.
      destruct (decide (k0 = k')), (decide (k' = k)); congruence.
Qed.

Lemma setitem_keys_mem k v (d : dict) :
  k ∈ d.*1 -> (Dict.setitem k v d).*1 = d.*1.
Proof.
  induction d as [|[k0 v0] d IH]; intros Hin; [by apply elem_of_nil in Hin|].
  cbn [Dict.setitem]. destruct (decide (k0 = k)) as [->|Hne]; [done|].
  cbn in Hin. apply elem_of_cons in Hin as [?|Hin]; [done|].
  cbn. by rewrite IH.
Qed.

Lemma setitem_keys_new k v (d : dict) :
  k ∉ d.*1 -> (Dict.setitem k v d).*1 = d.*1 ++ [k].
Proof.
  induction d as [|[k0 v0] d IH]; intros Hin; [done|].
  cbn in Hin. apply not_elem_of_cons in Hin as [Hne Hin].
  cbn [Dict.setitem]. destruct (decide (k0 = k)) as [->|_]; [done|].
  cbn. by rewrite IH.
Qed.

Lemma setitem_wf k v (d : dict) : Dict.wf d -> Dict.wf (Dict.setitem k v d).
Proof.
  unfold Dict.wf. intros Hwf. destruct (decide (k ∈ d.*1)) as [Hin|Hin].
  - by rewrite setitem_keys_mem.
  - rewrite setitem_keys_new by done. apply NoDup_app. split; [done|].
    split; [|apply NoDup_singleton].
    intros x Hx Hx'. apply list_elem_of_singleton in Hx' as ->. done.
Qed.

Lemma setitem_length_ge k v (d : dict) :
  length d <= length (Dict.setitem k v d).
Proof.
  induction d as [|[k0 v0] d IH]; cbn [Dict.setitem]; [cbn; lia|].
  destruct (decide (k0 = k)); cbn [length]; lia.
Qed.

Lemma update_wf (other d : dict) : Dict.wf d -> Dict.wf (Dict.update d other).
Proof.
  unfold Dict.update. revert d.
  induction other as [|[k v] other IH]; intros d Hwf; [done|].
  cbn [foldl]. apply IH. by apply setitem_wf.
Qed.

Lemma update_length (other d : dict) :
  length d <= length (Dict.update d other) <= length d + length other.
Proof.
  unfold Dict.update. revert d.
  induction other as [|[k v] other IH]; intros d; [cbn; lia|].
  cbn [foldl length]. specialize (IH (Dict.setitem k v d)). cbn [fst snd] in *.
  pose proof (setitem_length_le k v d).
  pose proof (setitem_length_ge k v d). lia.
Qed.

Lemma update_keys (other d : dict) k :
  k ∈ d.*1 -> k ∈ (Dict.update d other).*1.
Proof.
  unfold Dict.update. revert d.
  induction other as [|[k0 v] other IH]; intros d Hin; [done|].
  cbn [foldl]. apply IH. by apply setitem_keys.
Qed.

Lemma update_get (other d : dict) k :
  Dict.wf other ->
  dict_get k (Dict.update d other)
  = match dict_get k other with
    | Some v => Some v
    | None => dict_get k d
    end.
Proof.
  unfold Dict.update, Dict.wf. revert d.
  induction other as [|[k0 v0] other IH]; intros d Hwf; [done|].
  cbn in Hwf. apply NoDup_cons in Hwf as [Hnotin Hwf].
  cbn [foldl fst snd dict_get]. rewrite (IH _ Hwf), dict_get_setitem.
  destruct (decide (k0 = k)) as [->|Hne].
  - apply dict_get_None in Hnotin. rewrite Hnotin. by rewrite decide_True.
  - by rewrite decide_False.
Qed.

Lemma update_keeps_names (other d : dict) : keeps_names d (Dict.update d other).
Proof.
  split; [intros k; apply update_keys|apply update_length].
Qed.

Lemma keeps_names_refl (d : dict) : keeps_names d d.
Proof. by split. Qed.

Lemma keeps_names_trans (d1 d2 d3 : dict) :
  keeps_names d1 d2 -> keeps_names d2 d3 -> keeps_names d1 d3.
Proof. intros [H1 L1] [H2 L2]. split; [auto|lia]. Qed.

(** ** [merge_nodes] *)

(** X12: [merge_nodes] returns for readable groups and replaces the
    dict of the target group by the merge: a name of the donor gets the
    values of the donor, any other name keeps the values the target
    had; the names stay pairwise distinct, the count lies between the
    count of the target and the sum of both counts, no other object of
    the heap changes, and no draw is taken from the generator. *)
Theorem merge_nodes_spec (h : heap) (g : rng) (new cross : loc)
    (ty : HTTPMethod) (d other : dict) :
  read_group h new ty = Some d -> read_group h cross ty = Some other ->
  Dict.wf d -> Dict.wf other ->
  exists h' d' lt,
    merge_nodes new cross ty (h, g) = Ok (tt, (h', g)) /\
    read_group h' new ty = Some d' /\ Dict.wf d' /\
    (forall k, dict_get k d'
               = match dict_get k other with
                 | Some v => Some v
                 | None => dict_get k d
                 end) /\
    length d <= length d' <= length d + length other /\
    group_loc h new ty = Some lt /\ modifies [lt] h h'.
Proof.
  intros Hd Hother Hwd Hwo.
  destruct (readable_read_group h ty new (ex_intro _ d Hd))
    as (n & a & b & lt & d0 & Hn & Hgp & -> & Hlt & Hdt & Hr).
  assert (d0 = d) as -> by congruence.
  destruct (merge_nodes_run h g new cross ty _ d Hlt Hdt
              (ex_intro _ other Hother)) as (other' & Hr' & Hrun).
  assert (other' = other) as -> by congruence.
  exists (<[group ty (a, b) := ODict (Dict.update d other)]> h),
    (Dict.update d other), (group ty (a, b)).
  split; [done|]. split.
  { rewrite (read_group_store_dict _ _ _ _ _ _ Hdt). by rewrite decide_True. }
  split; [by apply update_wf|]. split; [intros k; by apply update_get|].
  split; [apply update_length|]. split; [done|].
  apply modifies_store. intros _. left.
Qed.

Lemma merge_nodes_spec_witness :
  exists h' d',
    merge_nodes 11 7 GET (sample_heap, constant_rng 0)
    = Ok (tt, (h', constant_rng 0)) /\
    read_group h' 11 GET = Some d' /\ length d' <= 2 + 3.
Proof.
  destruct (merge_nodes_spec sample_heap (constant_rng 0) 11 7 GET
              [(lit "id", [lit "1"]); (lit "p[]", [lit "x"; lit "y"])]
              [(lit "a", [lit "1"]); (lit "b", [lit "2"]); (lit "c", [lit "3"])]
              eq_refl eq_refl)
    as (h' & d' & lt & Hrun & Hread & _ & _ & [_ Hlen] & _).
  - apply (bool_decide_unpack _). by vm_compute.
  - apply (bool_decide_unpack _). by vm_compute.
  - by exists h', d'.
Defined.

(** ** [cross_over] *)

(** A node other than the only modified one reads as before. *)
Lemma read_group_frame h h' t tn c ty d :
  modifies [t] h h' -> node_at h t = Some tn -> c <> t ->
  read_group h c ty = Some d -> read_group h' c ty = Some d.
Proof.
  intros [_ Hm] Ht Hc Hr.
  destruct (readable_read_group h ty c (ex_intro _ d Hr))
    as (n & a & b & l & d0 & Hn & Hgp & -> & Hl & Hd & Hr').
  assert (d0 = d) as -> by congruence.
  assert (forall x o, x <> t -> h !! x = Some o -> h' !! x = Some o) as Hk.
  { intros x o Hx Ho. rewrite Hm; [done|by eapply lookup_lt_Some|].
    by intros ?%list_elem_of_singleton. }
  eapply (read_group_of_parts _ _ n _ a b ty); [|done| |].
  - apply node_at_lookup, Hk; [done|by apply node_at_lookup].
  - apply outer_at_lookup, Hk; [|by apply outer_at_lookup].
    apply not_eq_sym. by eapply node_outer_ne.
  - apply dict_at_lookup, Hk; [|by apply dict_at_lookup].
    apply not_eq_sym. by eapply node_dict_ne.
Qed.

(** One round of the loop, with the donor. *)
Lemma cross_over_group_strong h g corpus t tn ty lt d :
  node_at h t = Some tn -> group_loc h t ty = Some lt ->
  dict_at h lt = Some d -> Forall (readable h ty) corpus ->
  exists d',
    cross_over_group corpus t ty (h, g)
    = Ok (tt, (<[lt := ODict d']> h, g)) /\
    crossed h corpus ty d d'.
Proof.
  intros Hn Hlt Hd Hl. unfold cross_over_group.
  rewrite (bind_Ok _ _ _ _ _ (get_node_run _ g _ _ Hn)).
  assert (<[lt := ODict d]> h = h) as Hid.
  { apply list_insert_id. by apply dict_at_lookup. }
  destruct (HTTPMethod_eqb (method tn) GET && HTTPMethod_eqb ty POST).
  - exists d. rewrite Hid. split; [done|by left].
  - assert (readable h ty t) as Hs.
    { exists d. unfold read_group. by rewrite Hlt. }
    destruct (select_favourable_node_run h g ty t Hs corpus Hl)
      as (r & Hrun & _ & Hsome).
    rewrite (bind_Ok _ _ _ _ _ Hrun).
    destruct r as [c|].
    + destruct (Hsome c eq_refl) as [Hin Hc].
      destruct (merge_nodes_run _ g t c ty lt d Hlt Hd Hc)
        as (other & Hr & Hm).
      exists (Dict.update d other). split; [done|]. right. by exists c, other.
    + exists d. rewrite Hid. split; [done|by left].
Qed.

(** [cross_over] for a source with two distinct groups and a target
    outside the corpus: each group of the target is the group of the
    source, alone or updated with the same group of a donor. *)
Lemma cross_over_strong h g s corpus t tn (dA dB : dict) :
  read_group h s GET = Some dA -> read_group h s POST = Some dB ->
  group_loc h s GET <> group_loc h s POST ->
  node_at h t = Some tn -> Forall (readable2 h) corpus -> t ∉ corpus ->
  exists H fA fB,
    cross_over s corpus t (h, g) = Ok (tt, (H, g)) /\
    read_group H t GET = Some fA /\ read_group H t POST = Some fB /\
    crossed h corpus GET dA fA /\ crossed h corpus POST dB fB /\
    exists p', node_at H t = Some (with_params tn p').
Proof.
  intros HrG HrP Hdiff Ht Hcorpus Hnotin.
  destruct (readable_read_group _ _ _ (ex_intro _ dA HrG))
    as (n & a & b & ? & dA' & Hn & Hgp & -> & HlG & HdA & _).
  destruct (readable_read_group _ _ _ (ex_intro _ dB HrP))
    as (n' & a0 & b0 & ? & dB' & Hn' & Hgp' & -> & HlP & HdB & _).
  assert (n' = n) as -> by congruence.
  assert (a0 = a /\ b0 = b) as [-> ->] by (split; congruence).
  cbn [group fst snd] in *.
  assert (dA' = dA) as -> by (unfold read_group in HrG; rewrite HlG in HrG;
                              congruence).
  assert (dB' = dB) as -> by (unfold read_group in HrP; rewrite HlP in HrP;
                              congruence).
  assert (a <> b) as Hab by (intros ->; apply Hdiff; congruence).
  destruct (deepcopy_params_run h g (params n) a b dA dB Hgp HdA HdB)
    as (k & p' & a' & b' & Hcopy & Hp' & Ha' & Hb' & Hfp & Hfa & Hfb & Hne).
  specialize (Hne Hab).
  pose proof (node_at_app _ k _ _ Ht) as Ht0.
  set (H1 := <[t := ONode (with_params tn p')]> (h ++ k)).
  assert (node_at H1 t = Some (with_params tn p')) as Ht1.
  { unfold H1. rewrite (node_at_store_node _ _ _ _ _ Ht0). by case_decide. }
  assert (outer_at H1 p' = Some (a', b')) as Hp1.
  { unfold H1. by rewrite (outer_at_store_node _ _ _ _ _ Ht0). }
  assert (forall x, dict_at H1 x = dict_at (h ++ k) x) as Hd1.
  { intros x. unfold H1. by rewrite (dict_at_store_node _ _ _ _ _ Ht0). }
  assert (forall ty, group_loc H1 t ty = Some (group ty (a', b'))) as Hg1.
  { intros ty. unfold group_loc. rewrite Ht1. cbn [params with_params].
    by rewrite Hp1. }
  assert (forall ty, Forall (readable H1 ty) corpus) as Hc1.
  { intros ty. eapply Forall_impl; [exact Hcorpus|]. intros c [HcG HcP].
    eapply readable_baseline; try done. by destruct ty. }
  assert (modifies [t] h H1) as Hm1.
  { unfold H1. eapply modifies_trans; [apply (modifies_alloc _ h k)|].
    apply modifies_store. intros _. left. }
  (* the GET group *)
  destruct (cross_over_group_strong H1 g corpus t _ GET a' dA Ht1 (Hg1 GET)
              ltac:(by rewrite Hd1) (Hc1 GET)) as (d1 & Hrun1 & Hcr1).
  set (H2 := <[a' := ODict d1]> H1) in *.
  assert (dict_at H1 a' = Some dA) as Ha1 by by rewrite Hd1.
  assert (node_at H2 t = Some (with_params tn p')) as Ht2.
  { unfold H2. by rewrite (node_at_store_dict _ _ _ _ _ Ha1). }
  assert (group_loc H2 t POST = Some b') as Hg2.
  { unfold H2. rewrite (group_loc_store_dict _ _ _ _ _ _ Ha1). apply Hg1. }
  assert (dict_at H2 b' = Some dB) as Hb2.
  { unfold H2. rewrite (dict_at_store_dict _ _ _ _ _ Ha1).
    rewrite decide_False by done. by rewrite Hd1. }
  assert (modifies [t] h H2) as Hm2.
  { unfold H2. by apply modifies_store_fresh. }
  (* the POST group *)
  destruct (cross_over_group_strong H2 g corpus t _ POST b' _ Ht2 Hg2 Hb2
    ltac:(eapply Forall_impl; [exact (Hc1 POST)|];
          intros c Hc; by eapply readable_store_dict))
    as (d2 & Hrun2 & Hcr2).
  set (H3 := <[b' := ODict d2]> H2) in *.
  assert (forall H' ty d d',
    modifies [t] h H' -> crossed H' corpus ty d d' -> crossed h corpus ty d d')
    as Hback.
  { intros H' ty d d' Hm [->|(c & other & Hin & Hr & ->)]; [by left|].
    right. exists c, other. split; [done|]. split; [|done].
    rewrite Forall_forall in Hcorpus.
    assert (readable h ty c) as [o Ho]
      by (destruct (Hcorpus c Hin); by destruct ty).
    assert (c <> t) as Hct by (by intros ->).
    pose proof (read_group_frame _ _ _ _ _ _ _ Hm Ht Hct Ho). congruence. }
  exists H3, d1, d2.
  split.
  { unfold cross_over.
    rewrite (bind_Ok _ _ _ _ _ (get_node_run _ g _ _ Hn)).
    rewrite (bind_Ok _ _ _ _ _ Hcopy).
    rewrite (bind_Ok _ _ _ _ _ (set_params_run _ g _ _ p' Ht0)).
    fold H1. cbn [for_].
    rewrite (bind_Ok _ _ _ _ _ Hrun1).
    by rewrite (bind_Ok _ _ _ _ _ Hrun2). }
  assert (node_at H3 t = Some (with_params tn p')) as Ht3.
  { unfold H3. by rewrite (node_at_store_dict _ _ _ _ _ Hb2). }
  assert (outer_at H3 p' = Some (a', b')) as Hp3.
  { unfold H3. rewrite (outer_at_store_dict _ _ _ _ _ Hb2).
    unfold H2. by rewrite (outer_at_store_dict _ _ _ _ _ Ha1). }
  split.
  { eapply (read_group_of_parts _ _ _ _ _ _ GET); [done..|].
    unfold H3. rewrite (dict_at_store_dict _ _ _ _ _ Hb2).
    rewrite decide_False by done.
    unfold H2. rewrite (dict_at_store_dict _ _ _ _ _ Ha1).
    by rewrite decide_True. }
  split.
  { eapply (read_group_of_parts _ _ _ _ _ _ POST); [done..|].
    unfold H3. rewrite (dict_at_store_dict _ _ _ _ _ Hb2).
    by rewrite decide_True. }
  split; [by apply (Hback H1)|]. split; [by apply (Hback H2)|].
  by exists p'.
Qed.

(** X13: [cross_over] returns for readable nodes and takes no draw from
    the generator.  Of the target node only [params] changes, to an
    object allocated by the call: url, method and parent are kept, and
    so is [size], which is not refreshed.  Every other node, the source
    and the corpus included, reads as before. *)
Theorem cross_over_keeps_node (h : heap) (g : rng) (s t : loc)
    (corpus : list loc) (tn : Node) :
  readable2 h s -> node_at h t = Some tn -> Forall (readable2 h) corpus ->
  exists h' tn',
    cross_over s corpus t (h, g) = Ok (tt, (h', g)) /\
    node_at h' t = Some tn' /\
    url tn' = url tn /\ method tn' = method tn /\ size tn' = size tn /\
    parent_request tn' = parent_request tn /\ length h <= params tn' /\
    modifies [t] h h' /\
    (forall c ty d, c <> t -> read_group h c ty = Some d ->
                    read_group h' c ty = Some d).
Proof.
  intros Hs Ht Hcorpus.
  destruct (cross_over_run h g s corpus t tn Hs Ht Hcorpus)
    as (h' & p' & a' & b' & fA & fB & Hrun & Hmod & Hn & _ & _ & _ & Hp & _).
  exists h', (with_params tn p'). do 7 (split; [done|]). split; [done|].
  intros c ty d Hc Hr. by eapply read_group_frame.
Qed.

Lemma cross_over_keeps_node_witness :
  exists h' tn',
    cross_over 3 [7] 11 (sample_heap, constant_rng 0)
    = Ok (tt, (h', constant_rng 0)) /\
    node_at h' 11 = Some tn' /\ size tn' = 2.
Proof.
  destruct (cross_over_keeps_node sample_heap (constant_rng 0) 3 11 [7]
              (mkNode (lit "/a") GET 10 2 None))
    as (h' & tn' & Hrun & Hn & _ & _ & Hsize & _).
  - split; eexists; reflexivity.
  - reflexivity.
  - repeat constructor; eexists; reflexivity.
  - by exists h', tn'.
Defined.

(** X14: for a source whose two groups are distinct objects and a target
    outside the corpus, each group of the target after [cross_over] is
    the group of the source, alone or updated with the same group of one
    node of the corpus as that node was before the call.  So the target
    has every parameter name of the source, and at least as many
    parameters. *)
Theorem cross_over_merges (h : heap) (g : rng) (s t : loc)
    (corpus : list loc) (tn : Node) (dG dP : dict) :
  read_group h s GET = Some dG -> read_group h s POST = Some dP ->
  group_loc h s GET <> group_loc h s POST ->
  node_at h t = Some tn -> Forall (readable2 h) corpus -> t ∉ corpus ->
  exists h' fG fP,
    cross_over s corpus t (h, g) = Ok (tt, (h', g)) /\
    read_group h' t GET = Some fG /\ read_group h' t POST = Some fP /\
    crossed h corpus GET dG fG /\ crossed h corpus POST dP fP /\
    keeps_names dG fG /\ keeps_names dP fP.
Proof.
  intros HrG HrP Hdiff Ht Hcorpus Hnotin.
  destruct (cross_over_strong h g s corpus t tn dG dP HrG HrP Hdiff Ht
              Hcorpus Hnotin)
    as (h' & fG & fP & Hrun & HG & HP & HcG & HcP & _).
  exists h', fG, fP. do 5 (split; [done|]).
  assert (forall ty d f, crossed h corpus ty d f -> keeps_names d f) as Hk.
  { intros ty d f [->|(c & other & _ & _ & ->)];
      [apply keeps_names_refl|apply update_keeps_names]. }
  split; by eapply Hk.
Qed.

Lemma cross_over_merges_witness :
  exists h' fG,
    cross_over 3 [7] 11 (sample_heap, constant_rng 0)
    = Ok (tt, (h', constant_rng 0)) /\
    read_group h' 11 GET = Some fG /\ 1 <= length fG.
Proof.
  destruct (cross_over_merges sample_heap (constant_rng 0) 3 11 [7]
              (mkNode (lit "/a") GET 10 2 None)
              [(lit "q", [lit "1"])] [] eq_refl eq_refl)
    as (h' & fG & fP & Hrun & HG & _ & _ & _ & [_ Hlen] & _).
  - by vm_compute.
  - reflexivity.
  - repeat constructor; eexists; reflexivity.
  - apply (bool_decide_unpack _). by vm_compute.
  - by exists h', fG.
Defined.

(** ** [per_param_mutate]: where the parameters come from *)

Lemma setitem_elem k v (d : dict) kv :
  kv ∈ Dict.setitem k v d -> kv = (k, v) \/ kv ∈ d.
Proof.
  induction d as [|[k0 v0] d IH]; cbn [Dict.setitem].
  - intros ->%list_elem_of_singleton. by left.
  - destruct (decide (k0 = k)) as [->|Hne].
    + intros [->|Hin]%elem_of_cons; [by left|right; by right].
    + intros [->|Hin]%elem_of_cons; [right; left|].
      destruct (IH Hin); [by left|right; by right].
Qed.

Lemma setitem_mem k v (d : dict) : (k, v) ∈ Dict.setitem k v d.
Proof.
  induction d as [|[k0 v0] d IH]; cbn [Dict.setitem]; [left|].
  destruct (decide (k0 = k)); [left|by right].
Qed.

Lemma delitem_elem k (d d' : dict) kv :
  Dict.delitem k d = Some d' -> kv ∈ d' -> kv ∈ d.
Proof.
  revert d'. induction d as [|[k0 v0] d IH]; intros d'; cbn [Dict.delitem];
    [done|].
  destruct (decide (k0 = k)) as [->|Hne].
  - intros [= <-] Hin. by right.
  - destruct (Dict.delitem k d) as [d1|]; [|done]. cbn.
    intros [= <-] [->|Hin]%elem_of_cons; [left|right; by apply (IH d1)].
Qed.

Lemma delitem_wf k (d d' : dict) :
  Dict.delitem k d = Some d' -> Dict.wf d -> Dict.wf d'.
Proof.
  unfold Dict.wf. revert d'.
  induction d as [|[k0 v0] d IH]; intros d'; cbn [Dict.delitem]; [done|].
  destruct (decide (k0 = k)) as [->|Hne].
  - intros [= <-] Hnd. cbn in Hnd. by apply NoDup_cons in Hnd as [_ ?].
  - destruct (Dict.delitem k d) as [d1|] eqn:E; [|done]. cbn.
    intros [= <-] Hnd. apply NoDup_cons in Hnd as [Hnotin Hnd].
    cbn. apply NoDup_cons. split; [|by apply IH].
    intros Hin. apply Hnotin.
    apply list_elem_of_fmap in Hin as ([k1 v1] & -> & Hin).
    apply list_elem_of_fmap. exists (k1, v1). split; [done|].
    by eapply delitem_elem.
Qed.

Section per_param_strong.

Variable self : Mutator.
Hypothesis xss_ok : Payloads_ok (xss_payloads self).
Hypothesis syntax_ok : Payloads_ok (syntax_tokens self).

(** What the drawn strategy returns. *)
Lemma mutator_run_strong key value h g :
  exists f param val g',
    MutateFunctions_mutator (per_param_mutators self) (h, g)
    = Ok (f, (h, advance g)) /\
    f key value (h, advance g) = Ok ((param, val), (h, g')) /\
    mutation_of key value param val.
Proof.
  destruct (choices_run
              (MutateFunctions_functions (per_param_mutators self))
              (MutateFunctions_weights (per_param_mutators self)) h g
              eq_refl ltac:(cbv; lia)) as (f & Hin & Hrun).
  exists f. cbn in Hin.
  repeat (apply elem_of_cons in Hin as [->|Hin]);
    [| | | | |by apply elem_of_nil in Hin].
  - destruct (add_payload_run (xss_payloads self) key value h (advance g)
                xss_ok) as (token & out & g' & Hf & Hins & _).
    exists key, out, g'. do 2 (split; [done|]). left. split; [done|].
    right. by exists token.
  - exists (alter_type key value).1, (alter_type key value).2, (advance g).
    split; [done|]. split.
    + cbv beta. unfold ret. by destruct (alter_type key value).
    + right. by destruct (alter_type key value).
  - destruct (add_random_text_run key value h (advance g))
      as (token & out & g' & Hf & Hins & _).
    exists key, out, g'. do 2 (split; [done|]). left. split; [done|].
    right. by exists token.
  - destruct (add_payload_run (syntax_tokens self) key value h (advance g)
                syntax_ok) as (token & out & g' & Hf & Hins & _).
    exists key, out, g'. do 2 (split; [done|]). left. split; [done|].
    right. by exists token.
  - exists key, value, (advance g). do 2 (split; [done|]).
    left. split; [done|by left].
Qed.

(** One parameter: the new entry is a mutation of the parameter, the
    other entries were there before. *)
Lemma mutate_param_strong new ty c (d : dict) key value h g :
  group_loc h new ty = Some c -> dict_at h c = Some d -> key ∈ d.*1 ->
  exists d' g' param val,
    mutate_param self new ty (key, value) (h, g)
    = Ok (tt, (<[c := ODict d']> h, g')) /\
    mutation_of key value param val /\ (param, val) ∈ d' /\
    (forall kv, kv ∈ d' -> kv = (param, val) \/ kv ∈ d) /\
    (Dict.wf d -> Dict.wf d') /\ length d' <= length d /\
    forall k', k' <> key -> k' ∈ d.*1 -> k' ∈ d'.*1.
Proof.
  intros Hc Hd Hkey.
  destruct (mutator_run_strong key value h g)
    as (f & param & val & g' & Hf & Hpv & Hmut).
  unfold mutate_param.
  rewrite (bind_Ok _ _ _ _ _ Hf), (bind_Ok _ _ _ _ _ Hpv).
  destruct (bool_decide_reflect (param = key)) as [->|Hne].
  - rewrite (bind_Ok _ _ _ _ _ eq_refl).
    rewrite (bind_Ok _ _ _ _ _ (params_item_run _ g' _ _ _ Hc)).
    rewrite (bind_Ok _ _ _ _ _ (get_dict_run _ g' _ _ Hd)).
    rewrite store_run by by eapply dict_at_lt.
    exists (Dict.setitem key val d), g', key, val.
    split; [done|]. split; [done|]. split; [apply setitem_mem|].
    split; [intros kv; apply setitem_elem|].
    split; [apply setitem_wf|].
    split; [by rewrite setitem_length_mem|]. intros k' _. apply setitem_keys.
  - destruct (delitem_Some key d Hkey) as (d1 & Hdel & Hlen & Hkeys).
    erewrite bind_Ok; cycle 1.
    { rewrite (bind_Ok _ _ _ _ _ (params_item_run _ g' _ _ _ Hc)).
      rewrite (bind_Ok _ _ _ _ _ (get_dict_run _ g' _ _ Hd)).
      rewrite Hdel. apply store_run. by eapply dict_at_lt. }
    rewrite (bind_Ok _ _ _ _ _
               (params_item_run _ g' _ _ _
                  (eq_trans (group_loc_store_dict _ _ _ d1 _ _ Hd) Hc))).
    erewrite bind_Ok; cycle 1.
    { apply get_dict_run. rewrite (dict_at_store_dict _ _ _ _ _ Hd).
      by rewrite decide_True. }
    rewrite store_run
      by (rewrite length_insert; by eapply dict_at_lt).
    rewrite list_insert_insert_eq.
    exists (Dict.setitem param val d1), g', param, val.
    split; [done|]. split; [done|]. split; [apply setitem_mem|].
    split.
    { intros kv [->|Hin]%setitem_elem; [by left|right].
      by eapply delitem_elem. }
    split.
    { intros Hwf. apply setitem_wf. by eapply delitem_wf. }
    split; [pose proof (setitem_length_le param val d1); lia|].
    intros k' Hk' Hin. apply setitem_keys. by apply Hkeys.
Qed.

(** The inner loop: every entry of the final dict was in the dict at the
    start or is a mutation of an item. *)
Lemma mutate_params_strong new ty c (items : dict) :
  forall (d : dict) h g,
    group_loc h new ty = Some c -> dict_at h c = Some d ->
    NoDup items.*1 -> (forall k, k ∈ items.*1 -> k ∈ d.*1) ->
    exists d' g',
      for_ items (mutate_param self new ty) (h, g)
      = Ok (tt, (<[c := ODict d']> h, g')) /\
      (forall param val, (param, val) ∈ d' ->
         (param, val) ∈ d \/
         exists key value,
           (key, value) ∈ items /\ mutation_of key value param val) /\
      (d <> [] -> d' <> []) /\
      (Dict.wf d -> Dict.wf d') /\ length d' <= length d.
Proof.
  induction items as [|[key value] items IH]; intros d h g Hc Hd Hnd Hsub.
  - exists d, g. split; [|split; [by left|done]]. cbn [for_]. unfold ret.
    rewrite list_insert_id; [done|]. by apply dict_at_lookup.
  - cbn in Hnd. apply NoDup_cons in Hnd as [Hnotin Hnd].
    destruct (mutate_param_strong new ty c d key value h g Hc Hd)
      as (d1 & g1 & param & val & Hrun1 & Hmut & Hmem & Hsrc & Hwf1 & Hlen1
          & Hkeys1).
    { apply Hsub. left. }
    destruct (IH d1 (<[c := ODict d1]> h) g1)
      as (d2 & g2 & Hrun2 & Hsrc2 & Hne2 & Hwf2 & Hlen2).
    + by rewrite (group_loc_store_dict _ _ _ _ _ _ Hd).
    + rewrite (dict_at_store_dict _ _ _ _ _ Hd). by rewrite decide_True.
    + done.
    + intros k Hk. apply Hkeys1.
      * intros ->. done.
      * apply Hsub. by right.
    + exists d2, g2. split.
      { cbn [for_]. rewrite (bind_Ok _ _ _ _ _ Hrun1), Hrun2.
        by rewrite list_insert_insert_eq. }
      split.
      { intros p v Hin. destruct (Hsrc2 p v Hin) as [Hin1|(k & vv & Hk & Hm)].
        - destruct (Hsrc _ Hin1) as [[= -> ->]|Hd0]; [|by left].
          right. exists key, value. split; [left|done].
        - right. exists k, vv. split; [by right|done]. }
      split; [|split; [by auto|lia]].
      intros _. apply Hne2. intros ->. by apply elem_of_nil in Hmem.
Qed.

(** One group. *)
Lemma mutate_group_strong from new ty h g fn nn a b (d : dict) :
  node_at h from = Some fn -> node_at h new = Some nn ->
  params fn <> params nn -> outer_at h (params nn) = Some (a, b) ->
  read_group h from ty = Some d -> Dict.wf d ->
  exists H' d' g',
    mutate_group self from new ty (h, g) = Ok (tt, (H', g')) /\
    mutated d d' /\
    (forall x, node_at H' x = node_at h x) /\
    outer_at H' (params nn)
    = Some (match ty with GET => (length h, b) | POST => (a, length h) end) /\
    (forall x, x <> params nn -> outer_at H' x = outer_at h x) /\
    dict_at H' (length h) = Some d' /\
    (forall x, x <> length h -> dict_at H' x = dict_at h x).
Proof.
  intros Hfrom Hnew Hshare Hp Hread Hwf.
  destruct (readable_read_group h ty from (ex_intro _ d Hread))
    as (fn' & fa & fb & l & d0 & Hfn' & Hfp & -> & Hl & Hd & Hr).
  assert (fn' = fn) as -> by congruence.
  assert (d0 = d) as -> by congruence.
  set (H0 := h ++ [ODict d]).
  set (o := match ty with
            | GET => OParams (length h) b
            | POST => OParams a (length h)
            end).
  set (H1 := <[params nn := o]> H0).
  pose proof (outer_at_app _ [ODict d] _ _ Hp : outer_at H0 _ = _) as Hp0.
  assert (forall x, node_at H1 x = node_at h x) as Hn1.
  { intros x. unfold H1, o.
    destruct ty; rewrite (node_at_store_outer _ _ _ _ _ _ Hp0);
      unfold H0; rewrite node_at_alloc_eq; case_decide; try done;
      subst; unfold node_at; by rewrite lookup_ge_None_2. }
  assert (forall x, outer_at H1 x
            = if decide (x = params nn)
              then Some (match ty with
                         | GET => (length h, b)
                         | POST => (a, length h)
                         end)
              else outer_at h x) as Ho1.
  { intros x. unfold H1, o.
    destruct ty; rewrite (outer_at_store_outer _ _ _ _ _ _ Hp0);
      case_decide; try done;
      unfold H0; rewrite outer_at_alloc_eq; case_decide; try done;
      subst; unfold outer_at; by rewrite lookup_ge_None_2. }
  assert (forall x, dict_at H1 x
            = if decide (x = length h) then Some d else dict_at h x) as Hd1.
  { intros x. unfold H1, o.
    destruct ty; rewrite (dict_at_store_outer _ _ _ _ _ _ Hp0);
      unfold H0; by rewrite dict_at_alloc_eq. }
  assert (group_loc H1 from ty = Some (group ty (fa, fb))) as Hl1.
  { unfold group_loc. rewrite Hn1, Hfrom, Ho1.
    rewrite decide_False by done. by rewrite Hfp. }
  assert (dict_at H1 (group ty (fa, fb)) = Some d) as Hsrc1.
  { rewrite Hd1. case_decide as E; [|done].
    apply dict_at_lt in Hd. lia. }
  assert (group_loc H1 new ty = Some (length h)) as Hc1.
  { unfold group_loc. rewrite Hn1, Hnew, Ho1.
    rewrite decide_True by done. by destruct ty. }
  assert (dict_at H1 (length h) = Some d) as Hcopy1.
  { rewrite Hd1. by rewrite decide_True. }
  destruct (mutate_params_strong new ty (length h) d d H1 g Hc1 Hcopy1 Hwf
              ltac:(done)) as (d' & g' & Hloop & Hsrc & Hne & Hwf' & Hlen).
  exists (<[length h := ODict d']> H1), d', g'.
  split.
  { unfold mutate_group.
    rewrite (bind_Ok _ _ _ _ _ (params_item_run _ g _ _ _ Hl)).
    rewrite (bind_Ok _ _ _ _ _ (deepcopy_dict_run _ g _ _ Hd)).
    fold H0.
    rewrite (bind_Ok _ _ _ _ _
               (params_setitem_run H0 g new nn a b ty (length h)
                  (node_at_app _ _ _ _ Hnew) Hp0)).
    fold o. fold H1.
    rewrite (bind_Ok _ _ _ _ _ (params_item_run _ g _ _ _ Hl1)).
    by rewrite (bind_Ok _ _ _ _ _ (get_dict_run _ g _ _ Hsrc1)). }
  split.
  { split; [|split; [done|split; [by apply Hwf'|done]]].
    intros param val Hin.
    destruct (Hsrc param val Hin) as [Hd0|?]; [|done].
    exists param, val. split; [done|]. left. split; [done|by left]. }
  split. { intros x. by rewrite (node_at_store_dict _ _ _ _ _ Hcopy1). }
  split. { rewrite (outer_at_store_dict _ _ _ _ _ Hcopy1), Ho1.
           by rewrite decide_True. }
  split. { intros x Hx. rewrite (outer_at_store_dict _ _ _ _ _ Hcopy1), Ho1.
           by rewrite decide_False. }
  split. { rewrite (dict_at_store_dict _ _ _ _ _ Hcopy1).
           by rewrite decide_True. }
  intros x Hx. rewrite (dict_at_store_dict _ _ _ _ _ Hcopy1).
  rewrite decide_False by done. rewrite Hd1. by rewrite decide_False.
Qed.

(** Both groups. *)
Lemma per_param_mutate_strong from new corpus h g fn nn :
  wf_node h from -> node_at h from = Some fn -> node_at h new = Some nn ->
  params fn <> params nn -> is_Some (outer_at h (params nn)) ->
  exists H' g' (dG dP dG' dP' : dict),
    per_param_mutate self from new corpus (h, g) = Ok (tt, (H', g')) /\
    read_group h from GET = Some dG /\ read_group h from POST = Some dP /\
    read_group H' new GET = Some dG' /\ read_group H' new POST = Some dP' /\
    mutated dG dG' /\ mutated dP dP' /\
    (forall x, node_at H' x = node_at h x).
Proof.
  intros (fn' & fa & fb & dG & dP & Hfn' & Hfp & HdG & HdP & HwG & HwP & Hab)
         Hfrom Hnew Hshare [[a b] Hp].
  assert (fn' = fn) as -> by congruence.
  assert (read_group h from GET = Some dG) as HrG
    by by eapply (read_group_of_parts _ _ _ _ _ _ GET).
  assert (read_group h from POST = Some dP) as HrP
    by by eapply (read_group_of_parts _ _ _ _ _ _ POST).
  destruct (mutate_group_strong from new GET h g fn nn a b dG
              Hfrom Hnew Hshare Hp HrG HwG)
    as (H1 & dG' & g1 & Hrun1 & Hmut1 & Hn1 & Ho1 & Hoo1 & Hd1 & Hdo1).
  assert (read_group H1 from POST = Some dP) as HrP1.
  { eapply (read_group_of_parts _ _ _ _ fa fb POST); [by rewrite Hn1|done| |].
    - by rewrite Hoo1.
    - rewrite Hdo1; [done|]. apply dict_at_lt in HdP. cbn. lia. }
  assert (length h < length H1) as Hsz1 by (by apply dict_at_lt in Hd1).
  destruct (mutate_group_strong from new POST H1 g1 fn nn (length h) b dP
              ltac:(by rewrite Hn1) ltac:(by rewrite Hn1) Hshare Ho1 HrP1 HwP)
    as (H2 & dP' & g2 & Hrun2 & Hmut2 & Hn2 & Ho2 & Hoo2 & Hd2 & Hdo2).
  exists H2, g2, dG, dP, dG', dP'.
  split.
  { unfold per_param_mutate. cbn [for_].
    by rewrite (bind_Ok _ _ _ _ _ Hrun1), (bind_Ok _ _ _ _ _ Hrun2). }
  do 2 (split; [done|]).
  split.
  { eapply (read_group_of_parts _ _ _ _ _ _ GET);
      [by rewrite Hn2, Hn1|done|exact Ho2|].
    cbn. rewrite Hdo2 by lia. done. }
  split.
  { eapply (read_group_of_parts _ _ _ _ _ _ POST);
      [by rewrite Hn2, Hn1|done|exact Ho2|]. done. }
  do 2 (split; [done|]).
  intros x. by rewrite Hn2, Hn1.
Qed.

End per_param_strong.

(** X15: [per_param_mutate] invents no parameter.  Every parameter of
    the new node is, in its group, a parameter of the source with the
    name kept and the values kept or each extended by one token at the
    same end, or the pair [alter_type] makes of a parameter of the
    source.  The names of a group stay pairwise distinct; a group of the
    source that holds parameters gives a group that holds parameters,
    and never more of them. *)
Theorem per_param_mutate_provenance (self : Mutator) (from new : loc)
    (corpus : list loc) (h : heap) (g : rng) (fn nn : Node) :
  Payloads_ok (xss_payloads self) -> Payloads_ok (syntax_tokens self) ->
  wf_node h from -> node_at h from = Some fn ->
  node_at h new = Some nn -> is_Some (outer_at h (params nn)) ->
  params fn <> params nn ->
  exists h' g',
    per_param_mutate self from new corpus (h, g) = Ok (tt, (h', g')) /\
    forall ty, exists dS dN,
      read_group h from ty = Some dS /\ read_group h' new ty = Some dN /\
      mutated dS dN.
Proof.
  intros Hxss Hsyn Hwf Hfrom Hnew Houter Hshare.
  destruct (per_param_mutate_strong self Hxss Hsyn from new corpus h g fn nn
              Hwf Hfrom Hnew Hshare Houter)
    as (h' & g' & dG & dP & dG' & dP' & Hrun & HrG & HrP & HrG' & HrP'
        & HmG & HmP & _).
  exists h', g'. split; [done|].
  intros []; [by exists dG, dG'|by exists dP, dP'].
Qed.

Lemma per_param_mutate_provenance_witness :
  exists h' g' dN,
    per_param_mutate sample_mutator 11 3 [] (sample_heap, list_rng [35; 105])
    = Ok (tt, (h', g')) /\
    read_group h' 3 GET = Some dN /\ dN <> [].
Proof.
  destruct sample_mutator_ok as [Hxss Hsyn].
  destruct (per_param_mutate_provenance sample_mutator 11 3 [] sample_heap
              (list_rng [35; 105]) (mkNode (lit "/a") GET 10 2 None)
              (mkNode (lit "/x") GET 2 1 None)
              Hxss Hsyn sample_heap_wf eq_refl eq_refl
              ltac:(eexists; reflexivity) ltac:(discriminate))
    as (h' & g' & Hrun & Hall).
  destruct (Hall GET) as (dS & dN & HS & HN & _ & Hne & _).
  exists h', g', dN. split; [exact Hrun|]. split; [exact HN|].
  apply Hne. intros ->. by vm_compute in HS.
Defined.

(** ** [mutate]: the parameters of the new node *)

Section mutate_paths.

Variables (self : Mutator) (from : loc) (corpus : list loc) (h : heap)
          (fn : Node) (dG dP : dict).

Hypothesis xss_ok : Payloads_ok (xss_payloads self).
Hypothesis syntax_ok : Payloads_ok (syntax_tokens self).
Hypothesis from_wf : wf_node h from.
Hypothesis from_node : node_at h from = Some fn.
Hypothesis from_get : read_group h from GET = Some dG.
Hypothesis from_post : read_group h from POST = Some dP.
Hypothesis corpus_readable : Forall (readable2 h) corpus.

#[local] Abbreviation new := (S (S (S (length h)))).
#[local] Abbreviation h1 := (constructed h (url fn) (method fn) (Some from)).
#[local] Abbreviation nn0 :=
  (mkNode (url fn) (method fn) (S (S (length h))) 0 (Some from)).

(** The whole-node path. *)
Lemma cross_over_path g1 :
  exists h' nn fG fP,
    (cross_over from corpus new ;;; calculate_param_size new ;;; ret new)
      (h1, g1)
    = Ok (new, (h', g1)) /\
    node_at h' new = Some nn /\ size nn = length fG + length fP /\
    read_group h' new GET = Some fG /\ read_group h' new POST = Some fP /\
    crossed h corpus GET dG fG /\ crossed h corpus POST dP fP.
Proof.
  destruct (constructed_views h (url fn) (method fn) (Some from))
    as (Hnew & _).
  assert (group_loc h1 from GET <> group_loc h1 from POST) as Hdiff.
  { destruct from_wf as (n & a & b & dg & dp & Hn & Hp & Hdg & Hdp & _ & _
                         & Hab).
    destruct (read_group_of_parts h from n _ a b GET dg Hn eq_refl Hp Hdg)
      as [_ HlG].
    destruct (read_group_of_parts h from n _ a b POST dp Hn eq_refl Hp Hdp)
      as [_ HlP].
    unfold constructed.
    rewrite (group_loc_app _ _ _ _ _ HlG), (group_loc_app _ _ _ _ _ HlP).
    cbn. congruence. }
  assert (Forall (readable2 h1) corpus) as Hc.
  { eapply Forall_impl; [exact corpus_readable|].
    intros c. apply readable2_app. }
  assert (new ∉ corpus) as Hnotin.
  { intros Hin. rewrite Forall_forall in corpus_readable.
    destruct (corpus_readable _ Hin) as [[d Hd] _].
    destruct (read_group_node _ _ _ _ Hd) as [n Hn].
    apply node_at_lt in Hn. lia. }
  destruct (cross_over_strong h1 g1 from corpus new nn0 dG dP
              (read_group_app _ _ _ _ _ from_get)
              (read_group_app _ _ _ _ _ from_post) Hdiff Hnew Hc Hnotin)
    as (H2 & fG & fP & Hrun & HG & HP & HcG & HcP & p' & Hn2).
  destruct (finish_run _ h1 g1 H2 g1 new _ fG fP Hrun Hn2 HG HP)
    as (h' & Hfin & Hn' & HG' & HP').
  exists h', (with_size (with_params nn0 p') (length fG + length fP)), fG, fP.
  do 5 (split; [done|]).
  assert (forall ty d f, crossed h1 corpus ty d f -> crossed h corpus ty d f)
    as Hback.
  { intros ty d f [->|(c & other & Hin & Hr & ->)]; [by left|].
    right. exists c, other. split; [done|]. split; [|done].
    rewrite Forall_forall in corpus_readable.
    assert (readable h ty c) as [o Ho]
      by (destruct (corpus_readable c Hin); by destruct ty).
    pose proof (read_group_app _
                  [ODict []; ODict []; OParams (length h) (S (length h));
                   ONode nn0] _ _ _ Ho) as Ho1.
    unfold constructed in Hr. congruence. }
  split; by apply Hback.
Qed.

(** The per-parameter path. *)
Lemma per_param_path g1 :
  exists h' g' nn fG fP,
    (per_param_mutate self from new corpus ;;;
     calculate_param_size new ;;; ret new) (h1, g1)
    = Ok (new, (h', g')) /\
    node_at h' new = Some nn /\ size nn = length fG + length fP /\
    read_group h' new GET = Some fG /\ read_group h' new POST = Some fP /\
    mutated dG fG /\ mutated dP fP.
Proof.
  destruct (constructed_views h (url fn) (method fn) (Some from))
    as (Hnew & Hout & _).
  assert (params fn <> params nn0) as Hshare.
  { destruct from_wf as (n & a & b & _ & _ & Hn & Hp & _).
    assert (n = fn) as -> by congruence.
    apply outer_at_lt in Hp. cbn. lia. }
  destruct (per_param_mutate_strong self xss_ok syntax_ok from new corpus h1
              g1 fn nn0 (wf_node_app _ _ _ from_wf)
              (node_at_app _ _ _ _ from_node) Hnew Hshare
              ltac:(by eexists))
    as (H2 & g2 & dG0 & dP0 & fG & fP & Hrun & HsG & HsP & HG & HP & HmG
        & HmP & Hnodes).
  pose proof (read_group_app _
                [ODict []; ODict []; OParams (length h) (S (length h));
                 ONode nn0] _ _ _ from_get) as HsG'.
  pose proof (read_group_app _
                [ODict []; ODict []; OParams (length h) (S (length h));
                 ONode nn0] _ _ _ from_post) as HsP'.
  unfold constructed in HsG, HsP.
  assert (dG0 = dG) as -> by congruence.
  assert (dP0 = dP) as -> by congruence.
  destruct (finish_run _ h1 g1 H2 g2 new nn0 fG fP Hrun
              ltac:(by rewrite Hnodes) HG HP)
    as (h' & Hfin & Hn' & HG' & HP').
  exists h', g2, (with_size nn0 (length fG + length fP)), fG, fP.
  do 6 (split; [done|]). done.
Qed.

(** Either path, by the size of the source and the first draw. *)
Lemma mutate_paths g :
  exists h' g' nn fG fP,
    mutate self from corpus (h, g) = Ok (new, (h', g')) /\
    node_at h' new = Some nn /\ size nn = length fG + length fP /\
    read_group h' new GET = Some fG /\ read_group h' new POST = Some fP /\
    ((size fn <> 0 /\ g 0 mod 100 < 80 /\ mutated dG fG /\ mutated dP fP) \/
     ((size fn = 0 /\ g' = g \/
       size fn <> 0 /\ 80 <= g 0 mod 100 /\ g' = advance (advance g)) /\
      crossed h corpus GET dG fG /\ crossed h corpus POST dP fP)).
Proof.
  rewrite (mutate_start _ _ _ _ _ from_node).
  destruct (Nat.eqb_spec (size fn) 0) as [Hz|Hz].
  - destruct (cross_over_path g)
      as (h' & nn & fG & fP & Hrun & Hn & Hsz & HG & HP & HcG & HcP).
    exists h', g, nn, fG, fP. do 5 (split; [done|]).
    right. split; [by left|done].
  - rewrite (bind_bind_Ok _ _ _ _ _ _ (coin_run _ _ _ _)).
    destruct (Nat.ltb_spec (g 0 mod 100) 80) as [Hr|Hr].
    + destruct (per_param_path (advance g))
        as (h' & g' & nn & fG & fP & Hrun & Hn & Hsz & HG & HP & HmG & HmP).
      exists h', g', nn, fG, fP. do 5 (split; [done|]). by left.
    + destruct (cross_over_path (advance (advance g)))
        as (h' & nn & fG & fP & Hrun & Hn & Hsz & HG & HP & HcG & HcP).
      exists h', (advance (advance g)), nn, fG, fP.
      split.
      { unfold all_param_mutate.
        assert (Random.choice [cross_over] (h1, advance g)
                = Ok (cross_over, (h1, advance (advance g)))) as Hc.
        { unfold Random.choice. cbn [length].
          rewrite (bind_Ok _ _ _ _ _ (randbelow_run _ _ _)).
          by rewrite Nat.mod_1_r. }
        by rewrite (bind_bind_Ok _ _ _ _ _ _ Hc). }
      do 4 (split; [done|]). right. split; [right|]; done.
Qed.

End mutate_paths.

(** X16: where the parameters of the node [mutate] returns come from.
    For a source with [size] not zero and a first draw [r < 80] (of
    [0..99]) every group of the new node holds only mutations of
    parameters of the same group of the source.  For a source with
    [size] zero, or a first draw [80 <= r], every group is the group of
    the source, alone or updated with the same group of one node of the
    corpus; no draw is taken in the first case, two in the second.  The
    [size] of the new node is the count of its parameters. *)
Theorem mutate_parameters (self : Mutator) (from : loc) (corpus : list loc)
    (h : heap) (g : rng) (fn : Node) (dG dP : dict) :
  Payloads_ok (xss_payloads self) -> Payloads_ok (syntax_tokens self) ->
  wf_node h from -> node_at h from = Some fn ->
  read_group h from GET = Some dG -> read_group h from POST = Some dP ->
  Forall (readable2 h) corpus ->
  exists h' g' nn fG fP,
    mutate self from corpus (h, g) = Ok (S (S (S (length h))), (h', g')) /\
    node_at h' (S (S (S (length h)))) = Some nn /\
    size nn = length fG + length fP /\
    read_group h' (S (S (S (length h)))) GET = Some fG /\
    read_group h' (S (S (S (length h)))) POST = Some fP /\
    ((size fn <> 0 /\ g 0 mod 100 < 80 /\ mutated dG fG /\ mutated dP fP) \/
     ((size fn = 0 /\ g' = g \/
       size fn <> 0 /\ 80 <= g 0 mod 100 /\ g' = advance (advance g)) /\
      crossed h corpus GET dG fG /\ crossed h corpus POST dP fP)).
Proof.
  intros Hxss Hsyn Hwf Hfrom HG HP Hcorpus.
  by apply mutate_paths.
Qed.

Lemma mutate_parameters_witness :
  exists h' g' nn fG,
    mutate sample_mutator 11 [3; 7] (sample_heap, list_rng [0; 35; 105])
    = Ok (15, (h', g')) /\
    node_at h' 15 = Some nn /\ read_group h' 15 GET = Some fG /\
    size nn = length fG + 0.
Proof.
  destruct sample_mutator_ok as [Hxss Hsyn].
  destruct (mutate_parameters sample_mutator 11 [3; 7] sample_heap
              (list_rng [0; 35; 105]) (mkNode (lit "/a") GET 10 2 None)
              [(lit "id", [lit "1"]); (lit "p[]", [lit "x"; lit "y"])] []
              Hxss Hsyn sample_heap_wf eq_refl eq_refl eq_refl
              sample_corpus_readable)
    as (h' & g' & nn & fG & fP & Hrun & Hn & Hsz & HG & HP & Hpath).
  exists h', g', nn, fG. do 3 (split; [done|]).
  destruct Hpath as [(_ & _ & _ & _ & _ & _ & Hlen)|[[[Hz _]|(_ & Hr & _)] _]].
  - cbn in Hlen. assert (length fP = 0) as Hl by lia. by rewrite Hsz, Hl.
  - discriminate Hz.
  - vm_compute in Hr. lia.
Defined.

(** X17: the [size] of the node [mutate] returns, for a source whose
    [size] is the count of its parameters.  The new node of a source
    with parameters has parameters.  On the per-parameter path the
    count cannot grow, on the whole-node path it cannot fall.  With an
    empty corpus the count never grows, and a source without parameters
    gives a node without parameters, without any draw: then [mutate]
    changes nothing of the request. *)
Theorem mutate_size (self : Mutator) (from : loc) (corpus : list loc)
    (h : heap) (g : rng) (fn : Node) :
  Payloads_ok (xss_payloads self) -> Payloads_ok (syntax_tokens self) ->
  wf_node h from -> node_at h from = Some fn ->
  size fn = nparams h GET from + nparams h POST from ->
  Forall (readable2 h) corpus ->
  exists h' g' nn,
    mutate self from corpus (h, g) = Ok (S (S (S (length h))), (h', g')) /\
    node_at h' (S (S (S (length h)))) = Some nn /\
    (size fn <> 0 -> size nn <> 0) /\
    (size fn <> 0 -> g 0 mod 100 < 80 -> size nn <= size fn) /\
    (size fn = 0 \/ 80 <= g 0 mod 100 -> size fn <= size nn) /\
    (corpus = [] -> size nn <= size fn) /\
    (corpus = [] -> size fn = 0 ->
     g' = g /\ forall ty, read_group h' (S (S (S (length h)))) ty = Some []).
Proof.
  intros Hxss Hsyn Hwf Hfrom Hsize Hcorpus.
  destruct (wf_node_read_group _ _ GET Hwf) as (? & dG & _ & _ & HG & _).
  destruct (wf_node_read_group _ _ POST Hwf) as (? & dP & _ & _ & HP & _).
  unfold nparams in Hsize. rewrite HG, HP in Hsize. cbn in Hsize.
  destruct (mutate_paths self from corpus h fn dG dP Hxss Hsyn Hwf Hfrom
              HG HP Hcorpus g)
    as (h' & g' & nn & fG & fP & Hrun & Hn & Hsz & HfG & HfP & Hpath).
  exists h', g', nn. do 2 (split; [done|]).
  assert (forall ty d f, crossed h corpus ty d f ->
            length d <= length f /\ (corpus = [] -> f = d)) as Hcr.
  { intros ty d f [->|(c & other & Hin & _ & ->)]; [done|]. split.
    - apply update_length.
    - intros ->. by apply elem_of_nil in Hin. }
  destruct Hpath as [(Hnz & Hr & (_ & HneG & _ & HlG) & (_ & HneP & _ & HlP))
                    |(Hcase & HcG & HcP)].
  - split.
    { intros _ Hzero.
      assert (fG = [] /\ fP = []) as [-> ->].
      { destruct fG, fP; try done; cbn in Hzero, Hsz; lia. }
      destruct dG; [|by apply HneG]. destruct dP; [|by apply HneP].
      cbn in Hsize. lia. }
    split; [intros; lia|]. split; [intros [?|?]; [done|lia]|].
    split; [intros; lia|]. by intros.
  - destruct (Hcr _ _ _ HcG) as [HlG HeG].
    destruct (Hcr _ _ _ HcP) as [HlP HeP].
    split; [lia|]. split.
    { intros Hnz Hr. destruct Hcase as [[? _]|(_ & ? & _)]; [done|lia]. }
    split; [intros; lia|]. split.
    { intros Hnil. rewrite (HeG Hnil), (HeP Hnil) in Hsz. lia. }
    intros Hnil Hz. destruct Hcase as [[_ ->]|[? _]]; [|done].
    split; [done|]. rewrite (HeG Hnil) in HfG. rewrite (HeP Hnil) in HfP.
    assert (dG = [] /\ dP = []) as [-> ->].
    { destruct dG, dP; try done; cbn in Hsize; lia. }
    by intros [].
Qed.

Lemma mutate_size_witness :
  exists h' g' nn,
    mutate sample_mutator 11 [3; 7] (sample_heap, list_rng [0; 35; 105])
    = Ok (15, (h', g')) /\
    node_at h' 15 = Some nn /\ size nn <> 0 /\ size nn <= 2.
Proof.
  destruct sample_mutator_ok as [Hxss Hsyn].
  destruct (mutate_size sample_mutator 11 [3; 7] sample_heap
              (list_rng [0; 35; 105]) (mkNode (lit "/a") GET 10 2 None)
              Hxss Hsyn sample_heap_wf eq_refl eq_refl
              sample_corpus_readable)
    as (h' & g' & nn & Hrun & Hn & Hnz & Hle & _).
  exists h', g', nn. do 2 (split; [done|]). split.
  - apply Hnz. discriminate.
  - apply Hle; [discriminate|vm_compute; lia].
Defined.

(** ** [select_favourable_node]: the donor is a node of the corpus *)

(** X18: on readable nodes [select_favourable_node] returns, leaves the
    heap and the generator as they were, and gives [None] exactly for
    the empty corpus; a donor it gives is a node of the corpus.  Nothing
    excludes the target: a corpus that holds only the target gives the
    target as its own donor. *)
Theorem select_favourable_node_member (h : heap) (g : rng)
    (node_list : list loc) (start : loc) (ty : HTTPMethod) :
  readable h ty start -> Forall (readable h ty) node_list ->
  (exists r,
      select_favourable_node node_list start ty (h, g) = Ok (r, (h, g)) /\
      (r = None <-> node_list = []) /\
      (forall c, r = Some c -> c ∈ node_list)) /\
  (node_list = [start] ->
   select_favourable_node node_list start ty (h, g) = Ok (Some start, (h, g))).
Proof.
  intros Hs Hl.
  assert (exists r,
      select_favourable_node node_list start ty (h, g) = Ok (r, (h, g)) /\
      (r = None <-> node_list = []) /\
      (forall c, r = Some c -> c ∈ node_list)) as Hmain.
  { destruct node_list as [|first rest].
    - exists None. by repeat split.
    - assert (readable h ty first) as Hf
        by by apply Forall_cons in Hl as [? _].
      destruct (select_scan_total h g ty start Hs _ first Hf Hl)
        as (x & Hx & _ & Hrun).
      exists (Some x). unfold select_favourable_node.
      rewrite (bind_Ok _ _ _ _ _ (readable_len_params h g ty start Hs)).
      rewrite (bind_Ok _ _ _ _ _ Hrun).
      split; [done|]. split; [done|]. intros c [= <-].
      destruct Hx as [->|Hx]; [left|done]. }
  split; [exact Hmain|]. intros ->.
  destruct Hmain as (r & Hrun & Hnone & Hmem). rewrite Hrun.
  destruct r as [c|].
  - by specialize (Hmem c eq_refl) as ->%list_elem_of_singleton.
  - discriminate (proj1 Hnone eq_refl).
Qed.

Lemma select_favourable_node_member_witness :
  select_favourable_node [11] 11 GET (sample_heap, constant_rng 0)
  = Ok (Some 11, (sample_heap, constant_rng 0)).
Proof.
  apply (proj2 (select_favourable_node_member sample_heap (constant_rng 0)
                  [11] 11 GET ltac:(eexists; reflexivity)
                  ltac:(repeat constructor; eexists; reflexivity))
           eq_refl).
Defined.
